(** * X3 password-hash analysis: the SAXDB section extractor and the hash
    classifier of [scripts/analyze-password-hashes.py], embedded and verified.

    Python strings are modelled as lists of characters.  Characters are the
    256 code points of [ascii] (Latin-1); on that range the classes [\s] and
    [\d] of Python's [re] module are written out below.  Dictionaries are
    stdpp finite maps. *)

From Stdlib Require Import ZArith Ascii String Permutation.
From stdpp Require Import base tactics option list gmap strings fin_maps pretty.

Local Open Scope char_scope.
Local Open Scope Z_scope.

(** ** Strings *)

Abbreviation str := (list ascii).

(** A Python string literal. *)
Definition py (s : string) : str := list_ascii_of_string s.

(** The double-quote character, and literals in which an apostrophe stands
    for a double quote: [quoted "'k' 'v';"] is the text ["k" "v";]. *)
Definition dq : ascii := "034".
Definition quoted (s : string) : str :=
  (λ c, if Ascii.eqb c "'" then dq else c) <$> py s.

(** [s.startswith(prefix)] *)
Fixpoint startswith (s prefix : str) {struct prefix} : bool :=
  match prefix with
  | [] => true
  | p :: prefix' =>
      match s with
      | c :: s' => Ascii.eqb c p && startswith s' prefix'
      | [] => false
      end
  end.

(** [c in chars] for a character [c] and a string or tuple of characters. *)
Definition char_in (c : ascii) (chars : str) : bool :=
  bool_decide (c ∈ chars).

(** [s[i] == c]; only used under a guard that makes [i] a valid index. *)
Definition char_at_is (s : str) (i : nat) (c : ascii) : bool :=
  bool_decide (s !! i = Some c).

(** [s[i] in chars], under the same guard. *)
Definition char_at_in (s : str) (i : nat) (chars : str) : bool :=
  from_option (λ c, char_in c chars) false (s !! i).

(** [all(c in chars for c in s)] *)
Definition all_in (chars s : str) : bool := forallb (λ c, char_in c chars) s.

(** ** Hash classifier: [detect_algorithm] (lines 37-70)

    The source nests the tests for bcrypt (lines 51-52) and for the two MD5
    shapes (lines 60-62 and 66-67) as an [if] inside an [if], neither with
    an [else]: control falls to the next test when either fails, as it does
    here when the conjunction fails. *)

Definition hex_digits : str := py "0123456789abcdefABCDEF".

Definition detect_algorithm (hash_str : str) : str :=
  if bool_decide (hash_str = []) then py "empty"
  else if startswith hash_str (py "$pbkdf2-sha256$") then py "pbkdf2-sha256"
  else if startswith hash_str (py "$pbkdf2-sha512$") then py "pbkdf2-sha512"
  else if (4 <=? Z.of_nat (length hash_str))
          && char_at_is hash_str 0 "$" && char_at_is hash_str 1 "2"
          && (char_at_in hash_str 2 ["a"; "b"; "y"] && char_at_is hash_str 3 "$")
       then py "bcrypt"
  else if startswith hash_str (py "$argon2id$") then py "argon2id"
  else if (startswith hash_str (py "$") && (Z.of_nat (length hash_str) =? 41))
          && all_in hex_digits (drop 1 hash_str)
       then py "md5-seeded"
  else if (Z.of_nat (length hash_str) =? 32) && all_in hex_digits hash_str
       then py "md5-plain"
  else py "unknown".

(** *** The classifier as the specification words it: an ordered list of
    rules, the first rule that applies giving the tag. *)

Definition has_prefix (p s : str) : Prop := ∃ rest, s = p ++ rest.
Definition is_hex (c : ascii) : Prop :=
  c ∈ ["0";"1";"2";"3";"4";"5";"6";"7";"8";"9";
       "a";"b";"c";"d";"e";"f";"A";"B";"C";"D";"E";"F"].

#[local] Instance is_hex_dec (c : ascii) : Decision (is_hex c).
Proof. unfold is_hex. apply _. Defined.

Definition rule_empty (s : str) : Prop := s = [].
Definition rule_pbkdf2_sha256 : str → Prop := has_prefix (py "$pbkdf2-sha256$").
Definition rule_pbkdf2_sha512 : str → Prop := has_prefix (py "$pbkdf2-sha512$").
Definition rule_bcrypt (s : str) : Prop :=
  ∃ v rest, s = "$" :: "2" :: v :: "$" :: rest ∧ (v = "a" ∨ v = "b" ∨ v = "y").
Definition rule_argon2id : str → Prop := has_prefix (py "$argon2id$").
Definition rule_md5_seeded (s : str) : Prop :=
  ∃ body, s = "$" :: body ∧ length s = 41%nat ∧ Forall is_hex body.
Definition rule_md5_plain (s : str) : Prop :=
  length s = 32%nat ∧ Forall is_hex s.

Definition rules := list ((str → Prop) * str).

(** The six checks made on a non-empty string, in the order of the source. *)
Definition format_rules : rules :=
  [ (rule_pbkdf2_sha256, py "pbkdf2-sha256");
    (rule_pbkdf2_sha512, py "pbkdf2-sha512");
    (rule_bcrypt, py "bcrypt");
    (rule_argon2id, py "argon2id");
    (rule_md5_seeded, py "md5-seeded");
    (rule_md5_plain, py "md5-plain") ].

Definition classifier_rules : rules := (rule_empty, py "empty") :: format_rules.

(** [first_match s rs d t]: [t] is the tag of the first rule of [rs] that
    holds of [s], or the default [d] when none does. *)
Inductive first_match (s : str) : rules → str → str → Prop :=
| fm_none d : first_match s [] d d
| fm_here (P : str → Prop) t rs d : P s → first_match s ((P, t) :: rs) d t
| fm_later (P : str → Prop) t rs d t' :
    ¬ P s → first_match s rs d t' → first_match s ((P, t) :: rs) d t'.

(** At most one rule of a list holds of [s]. *)
Definition exclusive (s : str) (rs : rules) : Prop :=
  ∀ i j ri rj, rs !! i = Some ri → rs !! j = Some rj → ri.1 s → rj.1 s → i = j.

(** ** A backtracking matcher for the fragment of Python's [re] the script uses

    Literal characters, character classes, greedy [*] and [+] over a class,
    greedy [?], concatenation, alternation and numbered capture groups.
    Matching is by continuation: a pattern consumes a prefix of the input
    and hands the rest, with the groups captured so far, to what follows;
    when what follows fails, the next shorter alternative is tried. *)

Inductive regex : Type :=
| Lit (c : ascii)
| Cls (p : ascii → bool)
| Star (p : ascii → bool)
| Plus (p : ascii → bool)
| Opt (r : regex)
| Cat (r1 r2 : regex)
| Alt (r1 r2 : regex)
| Group (n : nat) (r : regex).

Declare Scope regex_scope.
Delimit Scope regex_scope with re.
Bind Scope regex_scope with regex.
Infix "·" := Cat (at level 41, right associativity) : regex_scope.

(** The groups of a match: group number to captured text; a group that took
    no part in the match is absent ([None] in Python). *)
Abbreviation groups := (gmap nat str).

Section Matcher.
Context {R : Type}.

(** Greedy repetition of a class: longest run first, then shorter ones. *)
Fixpoint greedy (p : ascii → bool) (s : str) (k : str → option R) : option R :=
  match s with
  | c :: s' =>
      if p c then
        match greedy p s' k with
        | Some r => Some r
        | None => k s
        end
      else k s
  | [] => k []
  end.

Fixpoint exec (r : regex) (s : str) (g : groups)
    (k : str → groups → option R) : option R :=
  match r with
  | Lit c =>
      match s with
      | c' :: s' => if Ascii.eqb c' c then k s' g else None
      | [] => None
      end
  | Cls p =>
      match s with
      | c' :: s' => if p c' then k s' g else None
      | [] => None
      end
  | Star p => greedy p s (λ s', k s' g)
  | Plus p =>
      match s with
      | c' :: s' => if p c' then greedy p s' (λ s'', k s'' g) else None
      | [] => None
      end
  | Opt r1 =>
      match exec r1 s g k with
      | Some x => Some x
      | None => k s g
      end
  | Cat r1 r2 => exec r1 s g (λ s' g', exec r2 s' g' k)
  | Alt r1 r2 =>
      match exec r1 s g k with
      | Some x => Some x
      | None => exec r2 s g k
      end
  | Group n r1 =>
      exec r1 s g (λ s' g', k s' (<[n := take (length s - length s') s]> g'))
  end.
End Matcher.

(** A match of a pattern at the head of [s]: how many characters it spans,
    and its groups. *)
Definition match_here (r : regex) (s : str) : option (nat * groups) :=
  exec r s ∅ (λ rest g, Some ((length s - length rest)%nat, g)).

(** [re.match(r, s)]: the groups of the match at the start of [s]. *)
Definition re_match (r : regex) (s : str) : option groups :=
  snd <$> match_here r s.

(** [re.search(r, s)]: the groups of the leftmost match. *)
Fixpoint re_search (r : regex) (s : str) : option groups :=
  match match_here r s with
  | Some (_, g) => Some g
  | None =>
      match s with
      | [] => None
      | _ :: s' => re_search r s'
      end
  end.

(** [r.finditer(s)]: the groups of the successive non-overlapping matches,
    left to right.  [skip] counts the characters still covered by the match
    found last.  (After a match of no character the scan moves on by one;
    the patterns below match at least one character.) *)
Fixpoint finditer_from (r : regex) (s : str) (skip : nat) : list groups :=
  match skip with
  | S n =>
      match s with
      | [] => []
      | _ :: s' => finditer_from r s' n
      end
  | O =>
      match match_here r s with
      | Some (len, g) =>
          g :: match s with
               | [] => []
               | _ :: s' => finditer_from r s' (len - 1)
               end
      | None =>
          match s with
          | [] => []
          | _ :: s' => finditer_from r s' 0
          end
      end
  end.

Definition finditer (r : regex) (s : str) : list groups := finditer_from r s 0.

(** [m.group(n)] for a group that every match of the pattern sets (see
    [account_pattern_groups] and [prop_pattern_groups] below). *)
Definition group (m : groups) (n : nat) : str := default [] (m !! n).

(** Character classes.  [\s] on Latin-1 is: tab, line feed, vertical tab,
    form feed, carriage return, the separators 28-31, space, NEL (133) and
    the no-break space (160).  [\d] on Latin-1 is 0-9. *)
Definition is_space (c : ascii) : bool :=
  let n := nat_of_ascii c in
  ((9 <=? n)%nat && (n <=? 13)%nat) || ((28 <=? n)%nat && (n <=? 32)%nat)
  || (n =? 133)%nat || (n =? 160)%nat.
Definition is_digit (c : ascii) : bool :=
  let n := nat_of_ascii c in (48 <=? n)%nat && (n <=? 57)%nat.
Definition not_char (c : ascii) : ascii → bool := λ c', negb (Ascii.eqb c' c).

(** ** Work factors: [parse_pbkdf2_iterations], [parse_bcrypt_cost]
    (lines 73-86) *)

(** What a call does: return a value or raise. *)
Inductive outcome (A : Type) : Type :=
| Returns (a : A)
| Raises (exn : string).
Arguments Returns {A} a.
Arguments Raises {A} exn.

(** [sys.int_info.default_max_str_digits]: the interpreter's limit on the
    number of digits of a decimal text that [int] converts.  The script
    leaves the limit at its default. *)
Definition max_str_digits : Z := 4300.

(** [int(s)] on the texts that [(\d+)] can capture: a non-empty run of
    decimal digits, read in base ten, unless it has more digits than
    [max_str_digits] (leading zeros count).  [None] stands for the
    [ValueError] that [int] raises on a longer run and on any other text. *)
Definition digit_value (c : ascii) : Z := Z.of_nat (nat_of_ascii c) - 48.
Definition int (s : str) : option Z :=
  if bool_decide (s = []) then None
  else if forallb is_digit s
       then if max_str_digits <? Z.of_nat (length s) then None
            else Some (fold_left (λ acc c, 10 * acc + digit_value c) s 0)
       else None.

(** [int(m.group(n))] *)
Definition int_group (m : groups) (n : nat) : outcome (option Z) :=
  match m !! n with
  | None => Raises "TypeError"
  | Some digits =>
      match int digits with
      | Some v => Returns (Some v)
      | None => Raises "ValueError"
      end
  end.

(** [\$i=(\d+)\$] *)
Definition pbkdf2_iterations_re : regex :=
  (Lit "$" · Lit "i" · Lit "=" · Group 1 (Plus is_digit) · Lit "$")%re.

Definition parse_pbkdf2_iterations (hash_str : str) : outcome (option Z) :=
  match re_search pbkdf2_iterations_re hash_str with
  | Some m => int_group m 1
  | None => Returns None
  end.

(** [\$2[aby]\$(\d+)\$] *)
Definition bcrypt_cost_re : regex :=
  (Lit "$" · Lit "2" · Cls (λ c, char_in c ["a"; "b"; "y"]) · Lit "$"
   · Group 1 (Plus is_digit) · Lit "$")%re.

Definition parse_bcrypt_cost (hash_str : str) : outcome (option Z) :=
  match re_match bcrypt_cost_re hash_str with
  | Some m => int_group m 1
  | None => Returns None
  end.

(** ** Section extractor: [parse_saxdb_nickserv] (lines 89-147) *)

(** [s.find(sub, start)] for [0 <= start]: the index of the first occurrence
    of [sub] at or after [start], or [-1]. *)
Fixpoint find_from (sub s : str) (i : Z) : Z :=
  if startswith s sub then i
  else match s with
       | [] => -1
       | _ :: s' => find_from sub s' (i + 1)
       end.
Definition find (s sub : str) (start : Z) : Z :=
  find_from sub (drop (Z.to_nat start) s) start.

(** [s[a:b]] for [0 <= a] and [0 <= b]. *)
Definition slice (s : str) (a b : Z) : str :=
  take (Z.to_nat b - Z.to_nat a) (drop (Z.to_nat a) s).

(** The loop of lines 110-115; [rest] is [content[pos:]], so that
    [pos < len(content)] is [rest] being non-empty and [content[pos]] is its
    head.  The value is [pos] when the loop ends. *)
Fixpoint scan_braces (rest : str) (depth pos : Z) : Z :=
  match rest with
  | c :: rest' =>
      if 0 <? depth then
        scan_braces rest'
          (if Ascii.eqb c "{" then depth + 1
           else if Ascii.eqb c "}" then depth - 1
           else depth)
          (pos + 1)
      else pos
  | [] => pos
  end.

(** The quoted section name, ["NickServ"] between double quotes. *)
Definition section_token : str := quoted "'NickServ'".

(** [ns_content] of line 117, or [None] where the function returns early. *)
Definition section_body (content : str) : option str :=
  let ns_start := find content section_token 0 in
  if ns_start =? -1 then None
  else
    let brace_start := find content (py "{") ns_start in
    if brace_start =? -1 then None
    else
      let pos := scan_braces (drop (Z.to_nat (brace_start + 1)) content)
                   1 (brace_start + 1) in
      Some (slice content (brace_start + 1) (pos - 1)).

(** Line 123, with ' written for the double quote:
    ['([^']+)'\s*\{\s*([^}]+)\s*\};] *)
Definition account_pattern : regex :=
  (Lit dq · Group 1 (Plus (not_char dq)) · Lit dq · Star is_space
   · Lit "{" · Star is_space · Group 2 (Plus (not_char "}")) · Star is_space
   · Lit "}" · Lit ";")%re.

(** Line 138, with ' written for the double quote:
    ['([^']+)'\s+(?:'(V)'|(L));?\s*], where V is [[^']*] (a quoted scalar)
    and L is [\([^)]*\)] (a parenthesised list, kept with its parentheses). *)
Definition prop_pattern : regex :=
  (Lit dq · Group 1 (Plus (not_char dq)) · Lit dq · Plus is_space
   · Alt (Lit dq · Group 2 (Star (not_char dq)) · Lit dq)
         (Group 3 (Lit "(" · Star (not_char ")") · Lit ")"))
   · Opt (Lit ";") · Star is_space)%re.

Definition excluded_names : list str :=
  [py "version_control"; py "note_types"; py "dnr"; py "channels"; py "bots"].

(** Line 141: group 2 when it took part in the match, else group 3. *)
Definition prop_value (prop_match : groups) : str :=
  match prop_match !! 2%nat with
  | Some v => v
  | None => group prop_match 3
  end.

(** One turn of the loop of lines 139-142. *)
Definition add_property (props : gmap str str) (prop_match : groups)
    : gmap str str :=
  let key := group prop_match 1 in
  let value := prop_value prop_match in
  <[key := value]> props.

(** Lines 136-142: the properties of one account. *)
Definition parse_properties (properties_str : str) : gmap str str :=
  fold_left add_property (finditer prop_pattern properties_str) ∅.

(** One turn of the loop of lines 127-145. *)
Definition add_account (accounts : gmap str (gmap str str)) (m : groups)
    : gmap str (gmap str str) :=
  let account_name := group m 1 in
  let properties_str := group m 2 in
  if bool_decide (account_name ∈ excluded_names) then accounts
  else
    let props := parse_properties properties_str in
    if bool_decide (props = ∅) then accounts
    else <[account_name := props]> accounts.

Definition parse_saxdb_nickserv (content : str) : gmap str (gmap str str) :=
  match section_body content with
  | None => ∅
  | Some ns_content =>
      fold_left add_account (finditer account_pattern ns_content) ∅
  end.

(** Line 199 of the report generator: [props.get('passwd', '')]. *)
Definition passwd_of (props : gmap str str) : str :=
  default [] (props !! py "passwd").

(** * Notions used to state the properties *)

(** ** What a match looks like

    [matches r s s' g g']: the pattern [r] can consume the prefix of [s]
    that leaves [s'], taking the groups from [g] to [g'].  Every result of
    [exec] is such a match (the converse needs the priorities of
    backtracking, and is shown pattern by pattern where it is needed). *)
Inductive matches : regex → str → str → groups → groups → Prop :=
| m_lit c s g : matches (Lit c) (c :: s) s g g
| m_cls (p : ascii → bool) c s g : p c = true → matches (Cls p) (c :: s) s g g
| m_star (p : ascii → bool) run s g :
    Forall (λ c, p c = true) run → matches (Star p) (run ++ s) s g g
| m_plus (p : ascii → bool) run s g :
    run ≠ [] → Forall (λ c, p c = true) run → matches (Plus p) (run ++ s) s g g
| m_opt_some r s s' g g' : matches r s s' g g' → matches (Opt r) s s' g g'
| m_opt_none r s g : matches (Opt r) s s g g
| m_cat r1 r2 s s1 s2 g g1 g2 :
    matches r1 s s1 g g1 → matches r2 s1 s2 g1 g2 →
    matches (Cat r1 r2) s s2 g g2
| m_alt_l r1 r2 s s' g g' : matches r1 s s' g g' → matches (Alt r1 r2) s s' g g'
| m_alt_r r1 r2 s s' g g' : matches r2 s s' g g' → matches (Alt r1 r2) s s' g g'
| m_group n r s s' g g' :
    matches r s s' g g' →
    matches (Group n r) s s' g (<[n := take (length s - length s') s]> g').

(** The next character of [s] is in the class [p]. *)
Definition at_class (p : ascii → bool) (s : str) : bool :=
  from_option p false (head s).

(** The value of a decimal numeral, most significant digit first. *)
Fixpoint numeral_value (digits : str) : Z :=
  match digits with
  | [] => 0
  | c :: digits' =>
      digit_value c * 10 ^ Z.of_nat (length digits') + numeral_value digits'
  end.

(** A non-empty run of decimal digits. *)
Definition is_numeral (digits : str) : Prop :=
  digits ≠ [] ∧ Forall (λ c, is_digit c = true) digits.

(** [s] is [pre], then [$i=], a numeral and [$], then [post]. *)
Definition iterations_segment (s pre digits post : str) : Prop :=
  s = pre ++ py "$i=" ++ digits ++ "$" :: post ∧ is_numeral digits.

(** [s] is a bcrypt prefix [$2a$], [$2b$] or [$2y$], then a numeral and [$],
    then [rest]. *)
Definition cost_segment (s digits rest : str) : Prop :=
  (∃ v, s = "$" :: "2" :: v :: "$" :: digits ++ "$" :: rest)
  ∧ is_numeral digits.

(** [sub] occurs in [s] at index [i]. *)
Definition occurs_at (sub s : str) (i : nat) : Prop :=
  ∃ pre post, s = pre ++ sub ++ post ∧ length pre = i.

(** The first occurrence of [sub] in [s] is at index [i]. *)
Definition first_at (sub s : str) (i : nat) : Prop :=
  occurs_at sub s i ∧ ∀ j, occurs_at sub s j → (i ≤ j)%nat.

(** The brace counter of lines 111-114 after all of [s], started at [d]. *)
Fixpoint brace_depth (s : str) (d : Z) : Z :=
  match s with
  | [] => d
  | c :: s' =>
      brace_depth s'
        (if Ascii.eqb c "{" then d + 1
         else if Ascii.eqb c "}" then d - 1
         else d)
  end.

(** Every closing brace of [s] matches an earlier opening brace of [s], and
    every opening brace is closed. *)
Definition balanced (s : str) : Prop :=
  brace_depth s 0 = 0 ∧ ∀ n, 0 <= brace_depth (take n s) 0.

(** The section opened just before [rest] is not closed in [rest]: started
    at 1, the counter is positive after every prefix. *)
Definition unterminated (rest : str) : Prop :=
  ∀ n, 0 < brace_depth (take n rest) 1.

(** The text of a property value: a quoted scalar, or a parenthesised list
    (' stands for the double quote: ['x'] or [('a' 'b')]). *)
Definition value_text (v : str) : Prop :=
  (∃ scalar, v = dq :: scalar ++ [dq] ∧ dq ∉ scalar)
  ∨ (∃ items, v = "(" :: items ++ [")"] ∧ ")" ∉ items).

(** An account entry named [name], up to its first closing brace: the
    quoted name, an opening brace, a property block that starts with a
    quoted key and its value, then the first closing brace of the entry and
    a semicolon.  Blank runs may stand where the pattern allows them.  For
    an account without sub-records this is the whole entry; for one with
    sub-records it ends where the first sub-record is closed. *)
Definition account_entry (name entry : str) : Prop :=
  ∃ sp1 sp2 key sp3 value more,
    entry = dq :: name ++ dq :: sp1 ++ "{" :: sp2
              ++ (dq :: key ++ dq :: sp3 ++ value ++ more)
              ++ py "};"
    ∧ name ≠ [] ∧ (dq ∉ name) ∧ ("{" ∉ name)
    ∧ Forall (λ c, is_space c = true) sp1
    ∧ Forall (λ c, is_space c = true) sp2
    ∧ key ≠ [] ∧ (dq ∉ key)
    ∧ sp3 ≠ [] ∧ Forall (λ c, is_space c = true) sp3
    ∧ value_text value
    ∧ ("}" ∉ key ++ value ++ more).

(** * The report generator (lines 190-371) and the account listing
    (lines 435-442)

    The clock ([datetime.now]), the local-time rendering of
    [format_timestamp] and the floating-point percentages are outside this
    development; what is embedded is the tally of [generate_report], the
    integer statistics, the recommendations of the text report and the
    fixed-width texts. *)

(** An item of [accounts.items()]: an account name and its properties. *)
Abbreviation account := (str * gmap str str)%type.

(** ** [defaultdict(list)], as the list of its items in insertion order *)

(** [d[k].append(v)]: extends the list of [k] where it stands, or enters
    [k] last with the list [[v]]. *)
Fixpoint dd_append {V : Type} (k : str) (v : V) (d : list (str * list V))
    : list (str * list V) :=
  match d with
  | [] => [(k, [v])]
  | (k', l) :: d' =>
      if bool_decide (k' = k) then (k', l ++ [v]) :: d'
      else (k', l) :: dd_append k v d'
  end.

(** [d.get(k, [])] *)
Fixpoint dd_get {V : Type} (k : str) (d : list (str * list V)) : list V :=
  match d with
  | [] => []
  | (k', l) :: d' => if bool_decide (k' = k) then l else dd_get k d'
  end.

(** [k in d] *)
Definition dd_has {V : Type} (k : str) (d : list (str * list V)) : bool :=
  bool_decide (k ∈ d.*1).

(** ** The tally of [generate_report] (lines 194-211) *)

Record tally : Type := Tally {
  by_algorithm : list (str * list account);
  iterations_stats : list (str * list Z);
  bcrypt_costs : list Z
}.

Definition empty_tally : tally := Tally [] [] [].

(** One turn of the loop of lines 198-211.  [if iters:] holds of an integer
    other than 0, and of neither [None] nor 0. *)
Definition tally_account (t : tally) (item : account) : outcome tally :=
  let '(account_name, props) := item in
  let passwd := passwd_of props in
  let algo := detect_algorithm passwd in
  let t := Tally (dd_append algo (account_name, props) (by_algorithm t))
             (iterations_stats t) (bcrypt_costs t) in
  if startswith algo (py "pbkdf2") then
    match parse_pbkdf2_iterations passwd with
    | Raises exn => Raises exn
    | Returns None => Returns t
    | Returns (Some iters) =>
        if iters =? 0 then Returns t
        else Returns (Tally (by_algorithm t)
                        (dd_append algo iters (iterations_stats t))
                        (bcrypt_costs t))
    end
  else if bool_decide (algo = py "bcrypt") then
    match parse_bcrypt_cost passwd with
    | Raises exn => Raises exn
    | Returns None => Returns t
    | Returns (Some cost) =>
        if cost =? 0 then Returns t
        else Returns (Tally (by_algorithm t) (iterations_stats t)
                        (bcrypt_costs t ++ [cost]))
    end
  else Returns t.

Fixpoint tally_accounts (items : list account) (t : tally) : outcome tally :=
  match items with
  | [] => Returns t
  | item :: items' =>
      match tally_account t item with
      | Raises exn => Raises exn
      | Returns t' => tally_accounts items' t'
      end
  end.

(** Lines 194-211, for [accounts.items()] being [items]. *)
Definition generate_report_tally (items : list account) : outcome tally :=
  tally_accounts items empty_tally.

(** ** Integer statistics (lines 240-242, 247-249, 303 and 305) *)

(** [sum(l)] *)
Definition sum_Z (l : list Z) : Z := foldl Z.add 0 l.

(** [(min(l), max(l), sum(l) // len(l))] for the non-empty list [x :: rest];
    every use in the source is guarded by [if l:]. *)
Definition work_stats (x : Z) (rest : list Z) : Z * Z * Z :=
  (foldl Z.min x rest, foldl Z.max x rest,
   sum_Z (x :: rest) / Z.of_nat (length (x :: rest))).

(** ** [report["algorithms"]] of [generate_json_report] (lines 229-250)

    The percentage of line 232 is a rounded float: it is left uninterpreted,
    as a function of [len(accts)] and [len(accounts)]. *)

Record algo_entry (P : Type) : Type := AlgoEntry {
  entry_count : nat;
  entry_percentage : P;
  entry_iterations : option (Z * Z * Z);
  entry_cost : option (Z * Z * Z)
}.
Arguments AlgoEntry {P} _ _ _ _.
Arguments entry_count {P} _.
Arguments entry_percentage {P} _.
Arguments entry_iterations {P} _.
Arguments entry_cost {P} _.

Section JsonAlgorithms.
Context {P : Type} (percentage : nat → nat → P).

(** Lines 229-233; [sorted] fixes the order in which the keys are entered,
    which a finite map does not record. *)
Definition json_counts (n_accounts : nat) (by_algo : list (str * list account))
    : gmap str (algo_entry P) :=
  fold_left
    (λ table '(algo, accts),
       <[algo := AlgoEntry (length accts) (percentage (length accts) n_accounts)
                   None None]> table)
    by_algo ∅.

(** One turn of the loop of lines 237-243: the subscript
    [report["algorithms"][algo]] raises [KeyError] on a missing key. *)
Definition json_add_iterations (table : gmap str (algo_entry P))
    (item : str * list Z) : outcome (gmap str (algo_entry P)) :=
  let '(algo, iters) := item in
  match iters with
  | [] => Returns table
  | x :: rest =>
      match table !! algo with
      | None => Raises "KeyError"
      | Some e =>
          Returns (<[algo := AlgoEntry (entry_count e) (entry_percentage e)
                               (Some (work_stats x rest)) (entry_cost e)]> table)
      end
  end.

Fixpoint json_iterations (table : gmap str (algo_entry P))
    (stats : list (str * list Z)) : outcome (gmap str (algo_entry P)) :=
  match stats with
  | [] => Returns table
  | item :: stats' =>
      match json_add_iterations table item with
      | Raises exn => Raises exn
      | Returns table' => json_iterations table' stats'
      end
  end.

(** Lines 245-250. *)
Definition json_add_cost (table : gmap str (algo_entry P)) (costs : list Z)
    : outcome (gmap str (algo_entry P)) :=
  match costs with
  | [] => Returns table
  | x :: rest =>
      match table !! py "bcrypt" with
      | None => Raises "KeyError"
      | Some e =>
          Returns (<[py "bcrypt" := AlgoEntry (entry_count e) (entry_percentage e)
                                      (entry_iterations e)
                                      (Some (work_stats x rest))]> table)
      end
  end.

(** The value of [report["algorithms"]] when line 252 is reached. *)
Definition json_algorithms (n_accounts : nat) (t : tally)
    : outcome (gmap str (algo_entry P)) :=
  match json_iterations (json_counts n_accounts (by_algorithm t))
          (iterations_stats t) with
  | Raises exn => Raises exn
  | Returns table => json_add_cost table (bcrypt_costs t)
  end.
End JsonAlgorithms.

(** ** The recommendations of the text report (lines 342-366) *)

(** [str(n)], as an f-string writes an integer. *)
Definition str_int (n : Z) : str := py (pretty n).

Definition line_ok : str :=
  py "  [OK] All accounts using modern password hashing!".
Definition line_action (legacy_count : Z) : str :=
  py "  [ACTION] " ++ str_int legacy_count
    ++ py " accounts need migration from legacy MD5".
Definition line_action_more : str :=
  py "           These will auto-migrate on next login with lazy migration enabled".
Definition line_info : str :=
  py "  [INFO] No accounts using modern algorithms yet".
Definition line_info_more : str :=
  py "         Ensure password_lazy_migration=1 in x3.conf".
Definition line_warn_iterations (algo : str) (lowest : Z) : str :=
  py "  [WARN] Some " ++ algo ++ py " hashes use low iteration count ("
    ++ str_int lowest ++ py ")".
Definition line_warn_iterations_more : str :=
  py "         Consider increasing password_pbkdf2_iterations".
Definition line_warn_cost (lowest : Z) : str :=
  py "  [WARN] Some bcrypt hashes use low cost factor ("
    ++ str_int lowest ++ py ")".
Definition line_warn_cost_more : str :=
  py "         Consider increasing password_bcrypt_cost".

(** [min(l)] for the non-empty list [x :: rest]. *)
Definition lowest (x : Z) (rest : list Z) : Z := foldl Z.min x rest.

(** The lines appended by lines 342-366, in order. *)
Definition recommendation_lines (n_accounts : nat) (t : tally) : list str :=
  let by_algo := by_algorithm t in
  let legacy_count :=
    (length (dd_get (py "md5-seeded") by_algo)
     + length (dd_get (py "md5-plain") by_algo))%nat in
  let modern_count :=
    (length (dd_get (py "pbkdf2-sha256") by_algo)
     + length (dd_get (py "pbkdf2-sha512") by_algo)
     + length (dd_get (py "bcrypt") by_algo))%nat in
  (if (legacy_count =? 0)%nat && (0 <? n_accounts)%nat then [line_ok]
   else
     (if (0 <? legacy_count)%nat
      then [line_action (Z.of_nat legacy_count); line_action_more] else [])
     ++ (if (modern_count =? 0)%nat then [line_info; line_info_more] else []))
  ++ flat_map
       (λ '(algo, iters),
          match iters with
          | [] => []
          | x :: rest =>
              if lowest x rest <? 100000
              then [line_warn_iterations algo (lowest x rest);
                    line_warn_iterations_more]
              else []
          end)
       (iterations_stats t)
  ++ match bcrypt_costs t with
     | [] => []
     | x :: rest =>
         if lowest x rest <? 10
         then [line_warn_cost (lowest x rest); line_warn_cost_more]
         else []
     end.

(** The order of line 282, in which the text report lists the algorithms. *)
Definition algo_order : list str :=
  [py "pbkdf2-sha256"; py "pbkdf2-sha512"; py "bcrypt"; py "argon2id";
   py "md5-seeded"; py "md5-plain"; py "unknown"; py "empty"].

(** ** Fixed-width texts *)

(** Line 334: a conditional expression nests to the right. *)
Definition display_hash (passwd : str) : str :=
  if (30 <? length passwd)%nat then take 30 passwd ++ py "..."
  else if bool_decide (passwd = []) then py "(empty)"
  else passwd.

(** Line 441. *)
Definition hash_preview (passwd : str) : str :=
  if (35 <? length passwd)%nat then take 35 passwd ++ py "..." else passwd.

(** The format [<Ns] of an f-string: blanks are added on the right up to the
    width [N]; a longer text is left as it is. *)
Definition pad_right (width : nat) (s : str) : str :=
  s ++ replicate (width - length s) " ".

(** The line printed by one turn of the loop of lines 438-442. *)
Definition listing_line (name : str) (props : gmap str str) : str :=
  let passwd := passwd_of props in
  let algo := detect_algorithm passwd in
  let preview := hash_preview passwd in
  pad_right 20 name ++ " " :: pad_right 15 algo ++ " " :: pad_right 40 preview.

(** Lines 199-200: the algorithm of an account. *)
Definition algorithm_of (item : account) : str :=
  detect_algorithm (passwd_of item.2).

(** What an account adds to [iterations_stats[algo]] and to [bcrypt_costs]
    (lines 204-211): the work factor read from its hash, unless it is
    missing or 0. *)
Definition recorded_iterations (item : account) : option Z :=
  if startswith (algorithm_of item) (py "pbkdf2") then
    match parse_pbkdf2_iterations (passwd_of item.2) with
    | Returns (Some iters) => if iters =? 0 then None else Some iters
    | _ => None
    end
  else None.

Definition recorded_cost (item : account) : option Z :=
  if startswith (algorithm_of item) (py "pbkdf2") then None
  else if bool_decide (algorithm_of item = py "bcrypt") then
    match parse_bcrypt_cost (passwd_of item.2) with
    | Returns (Some cost) => if cost =? 0 then None else Some cost
    | _ => None
    end
  else None.

(** * Properties *)

(** Closed decidable statements are settled by evaluation. *)
Ltac by_evaluation := apply (bool_decide_unpack _); vm_compute; exact I.

(** ** Strings *)

Lemma startswith_spec (s p : str) : startswith s p = true ↔ has_prefix p s.
Proof.
  revert s. induction p as [|c p IH]; intros s; simpl.
  - split; [intros _; by exists s | done].
  - destruct s as [|c' s].
    + split; [done | intros [rest H]; discriminate H].
    + rewrite andb_true_iff, IH, Ascii.eqb_eq. split.
      * intros [-> [rest ->]]. by exists rest.
      * intros [rest H]. simpl in H. injection H as -> ->. split; [done | by exists rest].
Qed.

Lemma char_in_spec (c : ascii) (chars : str) : char_in c chars = true ↔ c ∈ chars.
Proof. unfold char_in. apply bool_decide_eq_true. Qed.

Lemma all_in_spec (chars s : str) :
  all_in chars s = true ↔ Forall (λ c, c ∈ chars) s.
Proof.
  unfold all_in. rewrite forallb_forall, Forall_forall.
  split; intros H c Hc.
  - apply char_in_spec, H. by apply list_elem_of_In.
  - apply char_in_spec, H. by apply list_elem_of_In.
Qed.

Lemma all_in_hex (s : str) : all_in hex_digits s = true ↔ Forall is_hex s.
Proof. apply all_in_spec. Qed.

(** ** The classifier *)

Lemma guard_bcrypt (s : str) :
  (4 <=? Z.of_nat (length s)) && char_at_is s 0 "$" && char_at_is s 1 "2"
  && (char_at_in s 2 ["a"; "b"; "y"] && char_at_is s 3 "$") = true
  ↔ rule_bcrypt s.
Proof.
  unfold rule_bcrypt, char_at_is, char_at_in.
  rewrite !andb_true_iff, !bool_decide_eq_true. split.
  - intros [[[_ H0] H1] [H2 H3]].
    destruct s as [|c0 [|c1 [|c2 [|c3 rest]]]]; try discriminate.
    simpl in *. injection H0 as ->. injection H1 as ->. injection H3 as ->.
    apply char_in_spec in H2. exists c2, rest. split; [done|].
    rewrite !elem_of_cons, elem_of_nil in H2. tauto.
  - intros (v & rest & -> & Hv). simpl. repeat split; try done.
    + apply Z.leb_le. lia.
    + apply char_in_spec. rewrite !elem_of_cons. tauto.
Qed.

Lemma guard_md5_seeded (s : str) :
  (startswith s (py "$") && (Z.of_nat (length s) =? 41))
  && all_in hex_digits (drop 1 s) = true
  ↔ rule_md5_seeded s.
Proof.
  unfold rule_md5_seeded.
  rewrite !andb_true_iff, startswith_spec, Z.eqb_eq, all_in_hex. split.
  - intros [[[rest ->] Hlen] Hhex]. exists rest. simpl in *.
    split; [done|]. split; [lia | done].
  - intros (body & -> & Hlen & Hhex). simpl in *.
    split; [split; [by exists body | lia] | done].
Qed.

Lemma guard_md5_plain (s : str) :
  (Z.of_nat (length s) =? 32) && all_in hex_digits s = true ↔ rule_md5_plain s.
Proof.
  unfold rule_md5_plain. rewrite andb_true_iff, Z.eqb_eq, all_in_hex.
  split; intros [H1 H2]; split; (lia || done).
Qed.

Lemma first_match_functional (s : str) (rs : rules) (d t t' : str) :
  first_match s rs d t → first_match s rs d t' → t = t'.
Proof.
  induction 1; inversion 1; subst; try done. by apply IHfirst_match.
Qed.

Ltac rule_step lem :=
  match goal with
  | |- first_match _ _ _ (if ?b then _ else _) =>
      let E := fresh "E" in
      destruct b eqn:E;
      [ apply lem in E; by apply fm_here
      | apply fm_later;
        [ let H := fresh in intros H; apply lem in H; congruence | ] ]
  end.

Lemma detect_algorithm_first_match (s : str) :
  first_match s classifier_rules (py "unknown") (detect_algorithm s).
Proof.
  unfold detect_algorithm, classifier_rules, format_rules.
  rule_step (bool_decide_eq_true (s = [])).
  rule_step (startswith_spec s (py "$pbkdf2-sha256$")).
  rule_step (startswith_spec s (py "$pbkdf2-sha512$")).
  rule_step (guard_bcrypt s).
  rule_step (startswith_spec s (py "$argon2id$")).
  rule_step (guard_md5_seeded s).
  rule_step (guard_md5_plain s).
  constructor.
Qed.

(** C4. For every string, [detect_algorithm] returns exactly the tag of the
    first rule that holds in the ordered list: empty, the two PBKDF2
    prefixes, the bcrypt shape, the Argon2id prefix, the 41-character
    seeded shape, the 32-character plain shape, and [unknown] when no rule
    holds. *)
Theorem detect_algorithm_decision_order (s t : str) :
  first_match s classifier_rules (py "unknown") t ↔ detect_algorithm s = t.
Proof.
  split.
  - intros H. eapply first_match_functional; [apply detect_algorithm_first_match | done].
  - intros <-. apply detect_algorithm_first_match.
Qed.

(** *** The six format checks exclude one another *)

Ltac not_hex H :=
  apply (bool_decide_pack _) in H; vm_compute in H; destruct H.

Ltac open_rules :=
  repeat match goal with
    | H : rule_pbkdf2_sha256 _ |- _ => destruct H as [? H]
    | H : rule_pbkdf2_sha512 _ |- _ => destruct H as [? H]
    | H : rule_argon2id _ |- _ => destruct H as [? H]
    | H : rule_bcrypt _ |- _ => destruct H as (? & ? & H & ?)
    | H : rule_md5_seeded _ |- _ => destruct H as (? & H & ? & ?)
    | H : rule_md5_plain _ |- _ => destruct H as [? ?]
    end.

Ltac hex_clash :=
  repeat match goal with
    | H : Forall is_hex (_ :: _) |- _ =>
        let H1 := fresh in let H2 := fresh in
        apply Forall_cons in H as [H1 H2]; try (by not_hex H1)
    end.

Lemma format_rules_clash (s : str) (i j : nat) (ri rj : (str → Prop) * str) :
  format_rules !! i = Some ri → format_rules !! j = Some rj →
  ri.1 s → rj.1 s → i = j.
Proof.
  intros Hi Hj Pi Pj.
  destruct i as [|[|[|[|[|[|i]]]]]]; try discriminate Hi;
  destruct j as [|[|[|[|[|[|j]]]]]]; try discriminate Hj;
  try reflexivity; exfalso;
  injection Hi as <-; injection Hj as <-; simpl in Pi, Pj;
  open_rules; subst; simpl in *; simplify_eq; hex_clash; try lia.
Qed.

Lemma first_match_no_hit (s : str) (rs : rules) (d : str) :
  Forall (λ r, ¬ r.1 s) rs → first_match s rs d d.
Proof.
  induction 1 as [|[P t] rs HP _ IH]; [constructor|].
  by apply fm_later.
Qed.

Lemma first_match_only_hit (s : str) (rs : rules) (d t : str) :
  (∀ r, r ∈ rs → r.1 s ∨ ¬ r.1 s) →
  (∀ r, r ∈ rs → r.1 s → r.2 = t) →
  (∃ r, r ∈ rs ∧ r.1 s) →
  first_match s rs d t.
Proof.
  induction rs as [|[P t'] rs IH]; intros Hdec Htag [r [Hin Hr]].
  - by apply elem_of_nil in Hin.
  - destruct (Hdec (P, t')) as [HP | HP]; [left|..].
    + rewrite <- (Htag (P, t')); [by apply fm_here | left | done].
    + apply fm_later; [done|]. apply IH.
      * intros r' Hr'. apply Hdec. by right.
      * intros r' Hr'. apply Htag. by right.
      * apply elem_of_cons in Hin as [-> | Hin]; [done | by exists r].
Qed.

Lemma first_match_cases (s : str) (rs : rules) (d t : str) :
  first_match s rs d t →
  (t = d ∧ Forall (λ r, ¬ r.1 s) rs) ∨ (∃ r, r ∈ rs ∧ r.1 s ∧ r.2 = t).
Proof.
  induction 1 as [d | P t rs d HP | P t rs d t' HP _ IH].
  - left. by split.
  - right. exists (P, t). split; [left | done].
  - destruct IH as [[-> Hno] | (r & Hin & Hr & Ht)].
    + left. split; [done | by constructor].
    + right. exists r. split; [by right | done].
Qed.

Lemma first_match_permutation (s : str) (rs rs' : rules) (d t : str) :
  exclusive s rs → (∀ r, r ∈ rs → r.1 s ∨ ¬ r.1 s) → rs' ≡ₚ rs →
  first_match s rs d t → first_match s rs' d t.
Proof.
  intros Hex Hdec Hperm Hfm.
  destruct (first_match_cases _ _ _ _ Hfm) as [[-> Hno] | (r & Hin & Hr & <-)].
  - apply first_match_no_hit. by rewrite Hperm.
  - apply first_match_only_hit.
    + intros r' Hr'. apply Hdec. by rewrite <- Hperm.
    + intros r' Hr' Hholds. rewrite Hperm in Hr'.
      apply list_elem_of_lookup in Hr' as [i Hi].
      apply list_elem_of_lookup in Hin as [j Hj].
      assert (i = j) as -> by eauto using Hex. congruence.
    + exists r. split; [by rewrite Hperm | done].
Qed.

Lemma format_rules_decidable (s : str) (r : (str → Prop) * str) :
  r ∈ format_rules → r.1 s ∨ ¬ r.1 s.
Proof.
  unfold format_rules. rewrite !elem_of_cons, elem_of_nil.
  intros [-> | [-> | [-> | [-> | [-> | [-> | []]]]]]]; simpl;
    [ pose proof (startswith_spec s (py "$pbkdf2-sha256$")) as H
    | pose proof (startswith_spec s (py "$pbkdf2-sha512$")) as H
    | pose proof (guard_bcrypt s) as H
    | pose proof (startswith_spec s (py "$argon2id$")) as H
    | pose proof (guard_md5_seeded s) as H
    | pose proof (guard_md5_plain s) as H ];
    match type of H with
    | ?b = true ↔ _ => destruct b; [left; by apply H | right; intros H'; by apply H in H']
    end.
Qed.

Lemma detect_algorithm_hit (s : str) (r : (str → Prop) * str) :
  r ∈ format_rules → r.1 s → s ≠ [] → detect_algorithm s = r.2.
Proof.
  intros Hin Hr Hne.
  apply (first_match_functional s classifier_rules (py "unknown"));
    [apply detect_algorithm_first_match|].
  apply fm_later; [done|].
  apply first_match_only_hit.
  - apply format_rules_decidable.
  - intros r' Hin' Hr'.
    apply list_elem_of_lookup in Hin as [i Hi].
    apply list_elem_of_lookup in Hin' as [j Hj].
    assert (i = j) as -> by eauto using format_rules_clash. congruence.
  - by exists r.
Qed.

(** C7. Of the six checks made on a non-empty string at most one holds, so
    performing them in any order (any permutation of the six, after the
    test for the empty string) gives the tag [detect_algorithm] returns; and
    a string with one of the distinctive prefixes is classified neither as
    [md5-seeded] nor as [md5-plain]. *)
Theorem format_checks_exclusive (s : str) :
  exclusive s format_rules
  ∧ (∀ rs, rs ≡ₚ format_rules →
       first_match s ((rule_empty, py "empty") :: rs) (py "unknown")
         (detect_algorithm s))
  ∧ (rule_pbkdf2_sha256 s ∨ rule_pbkdf2_sha512 s ∨ rule_bcrypt s
     ∨ rule_argon2id s →
     detect_algorithm s ≠ py "md5-seeded" ∧ detect_algorithm s ≠ py "md5-plain").
Proof.
  split; [|split].
  - intros i j ri rj. apply format_rules_clash.
  - intros rs Hperm.
    destruct (decide (s = [])) as [-> | Hne].
    + change (detect_algorithm []) with (py "empty"). by apply fm_here.
    + apply fm_later; [done|].
      eapply first_match_permutation;
        [intros i j ri rj; apply format_rules_clash
        | apply format_rules_decidable | done |].
      pose proof (detect_algorithm_first_match s) as H.
      inversion H; subst; done.
  - intros H.
    assert (∃ r, r ∈ format_rules ∧ r.1 s ∧ s ≠ []
                 ∧ r.2 ≠ py "md5-seeded" ∧ r.2 ≠ py "md5-plain")
      as (r & Hin & Hr & Hne & Hs & Hp).
    { unfold format_rules.
      destruct H as [H | [H | [H | H]]];
        [ exists (rule_pbkdf2_sha256, py "pbkdf2-sha256")
        | exists (rule_pbkdf2_sha512, py "pbkdf2-sha512")
        | exists (rule_bcrypt, py "bcrypt")
        | exists (rule_argon2id, py "argon2id") ];
        (split; [rewrite !elem_of_cons; tauto |]);
        (split; [done|]); (split; [| split; discriminate]);
        intros ->; simpl in H; open_rules; discriminate. }
    rewrite (detect_algorithm_hit s r) by done. by split.
Qed.

(** ** The matcher *)

Section MatcherFacts.
Context {R : Type}.
Implicit Types (k : str → option R) (p : ascii → bool).

Lemma greedy_sound p s k x :
  greedy p s k = Some x →
  ∃ run s', s = run ++ s' ∧ Forall (λ c, p c = true) run ∧ k s' = Some x.
Proof.
  induction s as [|c s IH]; simpl.
  - intros H. by exists [], [].
  - destruct (p c) eqn:Hc; [| intros H; by exists [], (c :: s)].
    destruct (greedy p s k) as [y|] eqn:Hg.
    + intros [= ->]. destruct (IH eq_refl) as (run & s' & -> & Hrun & Hk).
      exists (c :: run), s'. by repeat constructor.
    + intros H. by exists [], (c :: s).
Qed.

(** The longest run is tried first: when what follows accepts it, that is
    the result. *)
Lemma greedy_longest p run s k :
  Forall (λ c, p c = true) run → at_class p s = false → is_Some (k s) →
  greedy p (run ++ s) k = k s.
Proof.
  intros Hrun Hs [x Hx]. induction Hrun as [|c run Hc _ IH].
  - destruct s as [|c s]; [done|]. unfold at_class in Hs.
    simpl in *. by rewrite Hs.
  - simpl. by rewrite Hc, IH, Hx.
Qed.

(** When what follows refuses every text that starts in the class, the
    repetition never gives a character back. *)
Lemma greedy_commit p run s k :
  Forall (λ c, p c = true) run → at_class p s = false →
  (∀ c t, p c = true → k (c :: t) = None) →
  greedy p (run ++ s) k = k s.
Proof.
  intros Hrun Hs Hk. induction Hrun as [|c run Hc _ IH].
  - destruct s as [|c s]; [done|]. unfold at_class in Hs.
    simpl in *. by rewrite Hs.
  - simpl. rewrite Hc, IH. destruct (k s); [done|]. by apply Hk.
Qed.
End MatcherFacts.

Lemma take_run (run s : str) : take (length (run ++ s) - length s) (run ++ s) = run.
Proof.
  rewrite length_app. replace (length run + length s - length s)%nat with (length run) by lia.
  by rewrite take_app_length.
Qed.

Section ExecFacts.
Context {R : Type}.
Implicit Types (k : str → groups → option R) (p : ascii → bool) (g : groups).

Lemma exec_sound r s g k x :
  exec r s g k = Some x →
  ∃ s' g', matches r s s' g g' ∧ k s' g' = Some x.
Proof.
  revert s g k. induction r as [c|p|p|p|r IH|r1 IH1 r2 IH2|r1 IH1 r2 IH2|n r IH];
    intros s g k; simpl.
  - destruct s as [|c' s]; [done|].
    destruct (Ascii.eqb c' c) eqn:E; [|done].
    apply Ascii.eqb_eq in E as ->. intros H. exists s, g. split; [constructor | done].
  - destruct s as [|c' s]; [done|].
    destruct (p c') eqn:E; [|done].
    intros H. exists s, g. split; [by constructor | done].
  - intros H. apply greedy_sound in H as (run & s' & -> & Hrun & Hk).
    exists s', g. split; [by constructor | done].
  - destruct s as [|c' s]; [done|].
    destruct (p c') eqn:E; [|done].
    intros H. apply greedy_sound in H as (run & s' & -> & Hrun & Hk).
    exists s', g. split; [| done].
    apply (m_plus p (c' :: run)); [done | by constructor].
  - destruct (exec r s g k) as [y|] eqn:E.
    + intros [= ->]. apply IH in E as (s' & g' & Hm & Hk).
      exists s', g'. split; [by apply m_opt_some | done].
    + intros H. exists s, g. split; [apply m_opt_none | done].
  - intros H. apply IH1 in H as (s1 & g1 & Hm1 & H).
    apply IH2 in H as (s2 & g2 & Hm2 & H).
    exists s2, g2. split; [by econstructor | done].
  - destruct (exec r1 s g k) as [y|] eqn:E.
    + intros [= ->]. apply IH1 in E as (s' & g' & Hm & Hk).
      exists s', g'. split; [by apply m_alt_l | done].
    + intros H. apply IH2 in H as (s' & g' & Hm & Hk).
      exists s', g'. split; [by apply m_alt_r | done].
  - intros H. apply IH in H as (s' & g' & Hm & Hk).
    eexists s', _. split; [by apply m_group | done].
Qed.

Lemma exec_cat r1 r2 s g k :
  exec (Cat r1 r2) s g k = exec r1 s g (λ s' g', exec r2 s' g' k).
Proof. done. Qed.

Lemma exec_cls p c s g k : p c = true → exec (Cls p) (c :: s) g k = k s g.
Proof. intros H. simpl. by rewrite H. Qed.

Lemma exec_lit c s g k : exec (Lit c) (c :: s) g k = k s g.
Proof. simpl. by rewrite Ascii.eqb_refl. Qed.

Lemma exec_lit_other c c' s g k : c' ≠ c → exec (Lit c) (c' :: s) g k = None.
Proof. intros H. simpl. by apply Ascii.eqb_neq in H as ->. Qed.

Lemma exec_star_longest p run s g k :
  Forall (λ c, p c = true) run → at_class p s = false → is_Some (k s g) →
  exec (Star p) (run ++ s) g k = k s g.
Proof. intros. simpl. by rewrite greedy_longest. Qed.

Lemma exec_star_commit p run s g k :
  Forall (λ c, p c = true) run → at_class p s = false →
  (∀ c t, p c = true → k (c :: t) g = None) →
  exec (Star p) (run ++ s) g k = k s g.
Proof. intros. simpl. by rewrite greedy_commit. Qed.

Lemma exec_plus_longest p run s g k :
  run ≠ [] → Forall (λ c, p c = true) run → at_class p s = false →
  is_Some (k s g) →
  exec (Plus p) (run ++ s) g k = k s g.
Proof.
  intros Hne Hrun. destruct Hrun as [|c run Hc Hrun]; [done|]. intros.
  simpl. by rewrite Hc, greedy_longest.
Qed.

Lemma exec_plus_commit p run s g k :
  run ≠ [] → Forall (λ c, p c = true) run → at_class p s = false →
  (∀ c t, p c = true → k (c :: t) g = None) →
  exec (Plus p) (run ++ s) g k = k s g.
Proof.
  intros Hne Hrun. destruct Hrun as [|c run Hc Hrun]; [done|]. intros.
  simpl. by rewrite Hc, greedy_commit.
Qed.

Lemma exec_group n r run s g k :
  exec (Group n r) (run ++ s) g k
  = exec r (run ++ s) g
      (λ s' g', k s' (<[n := take (length (run ++ s) - length s') (run ++ s)]> g')).
Proof. done. Qed.

Lemma exec_group_plus_commit n p run s g k :
  run ≠ [] → Forall (λ c, p c = true) run → at_class p s = false →
  (∀ c t g', p c = true → k (c :: t) g' = None) →
  exec (Group n (Plus p)) (run ++ s) g k = k s (<[n := run]> g).
Proof.
  intros Hne Hrun Hs Hk.
  rewrite exec_group, exec_plus_commit, take_run; [done..|].
  intros c t Hc. by apply Hk.
Qed.

Lemma exec_group_plus_longest n p run s g k :
  run ≠ [] → Forall (λ c, p c = true) run → at_class p s = false →
  is_Some (k s (<[n := run]> g)) →
  exec (Group n (Plus p)) (run ++ s) g k = k s (<[n := run]> g).
Proof.
  intros Hne Hrun Hs Hk.
  rewrite exec_group, exec_plus_longest, take_run; [done..|].
  by rewrite take_run.
Qed.

Lemma exec_group_star_commit n p run s g k :
  Forall (λ c, p c = true) run → at_class p s = false →
  (∀ c t g', p c = true → k (c :: t) g' = None) →
  exec (Group n (Star p)) (run ++ s) g k = k s (<[n := run]> g).
Proof.
  intros Hrun Hs Hk.
  rewrite exec_group, exec_star_commit, take_run; [done..|].
  intros c t Hc. by apply Hk.
Qed.
End ExecFacts.

Ltac inv_matches :=
  repeat match goal with
    | H : matches (Cat _ _) _ _ _ _ |- _ => inversion H; subst; clear H
    | H : matches (Lit _) _ _ _ _ |- _ => inversion H; subst; clear H
    | H : matches (Cls _) _ _ _ _ |- _ => inversion H; subst; clear H
    | H : matches (Star _) _ _ _ _ |- _ => inversion H; subst; clear H
    | H : matches (Plus _) _ _ _ _ |- _ => inversion H; subst; clear H
    | H : matches (Group _ _) _ _ _ _ |- _ => inversion H; subst; clear H
    | H : matches (Alt _ _) _ _ _ _ |- _ => inversion H; subst; clear H
    | H : matches (Opt _) _ _ _ _ |- _ => inversion H; subst; clear H
    end.

Lemma match_here_sound (r : regex) (s : str) (len : nat) (g : groups) :
  match_here r s = Some (len, g) →
  ∃ s', matches r s s' ∅ g ∧ len = (length s - length s')%nat.
Proof.
  intros H. apply exec_sound in H as (s' & g' & Hm & [= <- <-]). by exists s'.
Qed.

Lemma matches_suffix (r : regex) (s s' : str) (g g' : groups) :
  matches r s s' g g' → ∃ m, s = m ++ s'.
Proof.
  induction 1 as [c s g|p c s g|p run s g|p run s g| | |
                  r1 r2 s s1 s2 g g1 g2 _ [m1 ->] _ [m2 ->]| | |].
  - by exists [c].
  - by exists [c].
  - by exists run.
  - by exists run.
  - done.
  - by exists [].
  - exists (m1 ++ m2). by rewrite <- app_assoc.
  - done.
  - done.
  - done.
Qed.

(** ** [re.search] *)

Lemma re_search_skip (r : regex) (pre t : str) :
  (∀ i, (i < length pre)%nat → match_here r (drop i (pre ++ t)) = None) →
  re_search r (pre ++ t) = re_search r t.
Proof.
  induction pre as [|c pre IH]; intros H; [done|].
  simpl. assert (match_here r (c :: pre ++ t) = None) as ->
    by (apply (H 0%nat); simpl; lia).
  apply IH. intros i Hi. apply (H (S i)). simpl. lia.
Qed.

Lemma re_search_sound (r : regex) (s : str) (m : groups) :
  re_search r s = Some m → ∃ i len, match_here r (drop i s) = Some (len, m).
Proof.
  induction s as [|c s IH]; cbn [re_search].
  - destruct (match_here r []) as [[len g]|] eqn:H; [|done].
    intros [= <-]. by exists 0%nat, len.
  - destruct (match_here r (c :: s)) as [[len g]|] eqn:H.
    + intros [= <-]. by exists 0%nat, len.
    + intros Hm. apply IH in Hm as (i & len & Hm). by exists (S i), len.
Qed.

Lemma re_search_here (r : regex) (s : str) (len : nat) (m : groups) :
  match_here r s = Some (len, m) → re_search r s = Some m.
Proof. intros H. destruct s; cbn [re_search]; by rewrite H. Qed.

(** ** Numerals *)

Lemma fold_numeral (digits : str) (acc : Z) :
  fold_left (λ acc c, 10 * acc + digit_value c) digits acc
  = acc * 10 ^ Z.of_nat (length digits) + numeral_value digits.
Proof.
  revert acc. induction digits as [|c digits IH]; intros acc; simpl fold_left.
  - simpl. lia.
  - rewrite IH. simpl numeral_value. simpl length.
    rewrite Nat2Z.inj_succ, Z.pow_succ_r by lia. lia.
Qed.

Lemma int_numeral (digits : str) :
  is_numeral digits → Z.of_nat (length digits) <= max_str_digits →
  int digits = Some (numeral_value digits).
Proof.
  intros [Hne Hd] Hlen. unfold int.
  rewrite bool_decide_eq_false_2 by done.
  rewrite (proj2 (forallb_forall _ _)).
  - rewrite (proj2 (Z.ltb_ge _ _)) by done. by rewrite fold_numeral.
  - intros c Hc. apply list_elem_of_In in Hc. by apply (proj1 (Forall_forall _ _) Hd).
Qed.

Lemma int_overlong (digits : str) :
  max_str_digits < Z.of_nat (length digits) → int digits = None.
Proof.
  intros Hlen. unfold int. case_bool_decide; [done|].
  destruct (forallb is_digit digits); [|done].
  by rewrite (proj2 (Z.ltb_lt _ _)).
Qed.

Lemma int_group_numeral (m : groups) (n : nat) (digits : str) :
  m !! n = Some digits → is_numeral digits →
  Z.of_nat (length digits) <= max_str_digits →
  int_group m n = Returns (Some (numeral_value digits)).
Proof. intros Hm Hd Hlen. unfold int_group. by rewrite Hm, int_numeral. Qed.

Lemma int_group_overlong (m : groups) (n : nat) (digits : str) :
  m !! n = Some digits → max_str_digits < Z.of_nat (length digits) →
  int_group m n = Raises "ValueError".
Proof. intros Hm Hlen. unfold int_group. by rewrite Hm, int_overlong. Qed.

Lemma digit_not_dollar (c : ascii) : is_digit c = true → c ≠ "$".
Proof. by intros H ->. Qed.

(** ** bcrypt cost *)

Lemma bcrypt_cost_re_match (v : ascii) (digits rest : str) :
  v ∈ ["a"; "b"; "y"] → is_numeral digits →
  re_match bcrypt_cost_re ("$" :: "2" :: v :: "$" :: digits ++ "$" :: rest)
  = Some {[ 1%nat := digits ]}.
Proof.
  intros Hv [Hne Hd]. unfold re_match, match_here, bcrypt_cost_re.
  do 2 (rewrite exec_cat, exec_lit; cbv beta).
  rewrite exec_cat, exec_cls by by apply char_in_spec.
  rewrite exec_cat, exec_lit; cbv beta.
  rewrite exec_cat, exec_group_plus_commit; [by rewrite exec_lit | done..|].
  intros c t g' Hc. apply exec_lit_other. by apply digit_not_dollar.
Qed.

Lemma bcrypt_cost_re_sound (s : str) (m : groups) :
  re_match bcrypt_cost_re s = Some m →
  ∃ digits rest, cost_segment s digits rest ∧ m = {[ 1%nat := digits ]}.
Proof.
  unfold re_match. destruct (match_here _ _) as [[len g]|] eqn:H; [|done].
  intros [= <-]. apply match_here_sound in H as (s' & Hm & _).
  unfold bcrypt_cost_re in Hm. inv_matches.
  rewrite take_run. eexists _, _. split; [|done].
  split; [by eexists | done].
Qed.

Lemma detect_bcrypt_shape (s : str) :
  detect_algorithm s = py "bcrypt" → rule_bcrypt s.
Proof.
  intros H. unfold detect_algorithm in H.
  repeat match type of H with
    | (if ?b then _ else _) = _ => destruct b eqn:?
    end; try discriminate H.
  by apply guard_bcrypt.
Qed.

(** C5. For a string classified as bcrypt, the cost is the numeral that
    follows the four-character prefix and ends at the next [$], read in base
    ten, when the numeral has at most [max_str_digits] digits; on a longer
    numeral the call raises [ValueError]; when no numeral followed by [$]
    stands there the cost is unset; [$2b$12$abcdefghijklmnopqrstuv] is
    classified as bcrypt with cost 12. *)
Theorem bcrypt_cost_extracted (s : str) :
  detect_algorithm s = py "bcrypt" →
  (∀ digits rest, cost_segment s digits rest →
     Z.of_nat (length digits) <= max_str_digits →
     parse_bcrypt_cost s = Returns (Some (numeral_value digits)))
  ∧ (∀ digits rest, cost_segment s digits rest →
       max_str_digits < Z.of_nat (length digits) →
       parse_bcrypt_cost s = Raises "ValueError")
  ∧ ((¬ ∃ digits rest, cost_segment s digits rest) →
     parse_bcrypt_cost s = Returns None)
  ∧ detect_algorithm (py "$2b$12$abcdefghijklmnopqrstuv") = py "bcrypt"
  ∧ parse_bcrypt_cost (py "$2b$12$abcdefghijklmnopqrstuv") = Returns (Some 12).
Proof.
  intros Hb. apply detect_bcrypt_shape in Hb as (v & tail & Hs & Hv).
  assert (∀ digits rest, cost_segment s digits rest →
            parse_bcrypt_cost s = int_group {[ 1%nat := digits ]} 1) as Hmatch.
  { intros digits rest [[v' Hseg] Hnum]. unfold parse_bcrypt_cost.
    assert (v' = v) as -> by congruence.
    by rewrite Hseg, bcrypt_cost_re_match; [| rewrite !elem_of_cons; tauto | done]. }
  split; [|split; [|split; [|done]]].
  - intros digits rest Hseg Hlen. rewrite (Hmatch digits rest Hseg).
    apply int_group_numeral; [apply lookup_singleton_eq | apply Hseg | done].
  - intros digits rest Hseg Hlen. rewrite (Hmatch digits rest Hseg).
    apply int_group_overlong with digits; [apply lookup_singleton_eq | done].
  - intros Hno. unfold parse_bcrypt_cost.
    destruct (re_match bcrypt_cost_re s) as [m|] eqn:Hm; [|done].
    destruct Hno.
    apply bcrypt_cost_re_sound in Hm as (digits & rest & Hseg & _).
    by exists digits, rest.
Qed.

Lemma bcrypt_cost_extracted_witness :
  detect_algorithm (py "$2b$10$N9qo8uLOickgx2ZMRZoMye") = py "bcrypt"
  ∧ parse_bcrypt_cost (py "$2b$10$N9qo8uLOickgx2ZMRZoMye") = Returns (Some 10).
Proof.
  split; [reflexivity|].
  apply (proj1 (bcrypt_cost_extracted (py "$2b$10$N9qo8uLOickgx2ZMRZoMye") eq_refl)
           (py "10") (py "N9qo8uLOickgx2ZMRZoMye")).
  - split; [by exists "b" | split; [done | by repeat constructor]].
  - by_evaluation.
Defined.

(** A cost of 4301 digits: the string is classified as bcrypt and has its
    cost segment, and the call raises instead of returning the number. *)
Lemma bcrypt_cost_overlong_raises :
  let digits := replicate 4301 "1" : str in
  let s := py "$2b$" ++ digits ++ py "$abcdefghijklmnopqrstuv" in
  detect_algorithm s = py "bcrypt"
  ∧ cost_segment s digits (py "abcdefghijklmnopqrstuv")
  ∧ parse_bcrypt_cost s = Raises "ValueError"
  ∧ parse_bcrypt_cost s ≠ Returns (Some (numeral_value digits)).
Proof.
  intros digits s.
  assert (parse_bcrypt_cost s = Raises "ValueError") as Hraise
    by (vm_compute; reflexivity).
  split; [by_evaluation|]. split; [|split; [done | by rewrite Hraise]].
  split; [by exists "b"|]. split; [done|].
  unfold digits. by apply Forall_replicate.
Qed.

(** ** PBKDF2 iterations *)

Lemma pbkdf2_iterations_re_match (digits post : str) :
  is_numeral digits →
  match_here pbkdf2_iterations_re (py "$i=" ++ digits ++ "$" :: post)
  = Some ((length digits + 4)%nat, {[ 1%nat := digits ]}).
Proof.
  intros [Hne Hd]. unfold match_here, pbkdf2_iterations_re.
  change (py "$i=" ++ digits ++ "$" :: post)
    with ("$" :: "i" :: "=" :: digits ++ "$" :: post).
  do 3 (rewrite exec_cat, exec_lit; cbv beta).
  rewrite exec_cat, exec_group_plus_commit; [rewrite exec_lit | done..|].
  - do 2 f_equal. simpl. rewrite length_app. simpl. lia.
  - intros c t g' Hc. apply exec_lit_other. by apply digit_not_dollar.
Qed.

Lemma pbkdf2_iterations_re_sound (s : str) (len : nat) (m : groups) :
  match_here pbkdf2_iterations_re s = Some (len, m) →
  ∃ digits post, iterations_segment s [] digits post ∧ m = {[ 1%nat := digits ]}.
Proof.
  intros H. apply match_here_sound in H as (s' & Hm & _).
  unfold pbkdf2_iterations_re in Hm. inv_matches.
  rewrite take_run. eexists _, _. by split.
Qed.

Lemma iterations_segment_drop (s : str) (i : nat) (digits post : str) :
  iterations_segment (drop i s) [] digits post →
  iterations_segment s (take i s) digits post.
Proof.
  intros [Hs Hnum]. split; [|done].
  rewrite <- (take_drop i s) at 1. by rewrite Hs.
Qed.

(** C6. For a string classified as PBKDF2, the iteration count is the
    numeral of the leftmost segment [$i=<digits>$], read in base ten, when
    the numeral has at most [max_str_digits] digits; on a longer numeral the
    call raises [ValueError]; when the string has no such segment the count
    is unset; [$pbkdf2-sha256$i=29000$abc$def] is classified as
    pbkdf2-sha256 with 29000 iterations. *)
Theorem pbkdf2_iterations_extracted (s : str) :
  detect_algorithm s = py "pbkdf2-sha256"
  ∨ detect_algorithm s = py "pbkdf2-sha512" →
  (∀ pre digits post,
     iterations_segment s pre digits post →
     (∀ pre' digits' post',
        iterations_segment s pre' digits' post' →
        (length pre ≤ length pre')%nat) →
     Z.of_nat (length digits) <= max_str_digits →
     parse_pbkdf2_iterations s = Returns (Some (numeral_value digits)))
  ∧ (∀ pre digits post,
       iterations_segment s pre digits post →
       (∀ pre' digits' post',
          iterations_segment s pre' digits' post' →
          (length pre ≤ length pre')%nat) →
       max_str_digits < Z.of_nat (length digits) →
       parse_pbkdf2_iterations s = Raises "ValueError")
  ∧ ((¬ ∃ pre digits post, iterations_segment s pre digits post) →
     parse_pbkdf2_iterations s = Returns None)
  ∧ detect_algorithm (py "$pbkdf2-sha256$i=29000$abc$def") = py "pbkdf2-sha256"
  ∧ parse_pbkdf2_iterations (py "$pbkdf2-sha256$i=29000$abc$def")
    = Returns (Some 29000).
Proof.
  intros _.
  assert (∀ pre digits post,
            iterations_segment s pre digits post →
            (∀ pre' digits' post',
               iterations_segment s pre' digits' post' →
               (length pre ≤ length pre')%nat) →
            parse_pbkdf2_iterations s = int_group {[ 1%nat := digits ]} 1)
    as Hmatch.
  { intros pre digits post [-> Hnum] Hfirst. unfold parse_pbkdf2_iterations.
    rewrite re_search_skip.
    - by rewrite (re_search_here _ _ _ _
                    (pbkdf2_iterations_re_match digits post Hnum)).
    - intros i Hi.
      destruct (match_here _ _) as [[len g]|] eqn:H; [|done].
      apply pbkdf2_iterations_re_sound in H as (d & p & H & _).
      apply iterations_segment_drop, Hfirst in H.
      rewrite length_take in H. lia. }
  split; [|split; [|split; [|done]]].
  - intros pre digits post Hseg Hfirst Hlen.
    rewrite (Hmatch pre digits post Hseg Hfirst).
    apply int_group_numeral; [apply lookup_singleton_eq | apply Hseg | done].
  - intros pre digits post Hseg Hfirst Hlen.
    rewrite (Hmatch pre digits post Hseg Hfirst).
    apply int_group_overlong with digits; [apply lookup_singleton_eq | done].
  - intros Hno. unfold parse_pbkdf2_iterations.
    destruct (re_search _ _) as [m|] eqn:Hm; [|done].
    apply re_search_sound in Hm as (i & len & Hm).
    apply pbkdf2_iterations_re_sound in Hm as (d & p & Hseg & _).
    destruct Hno. apply iterations_segment_drop in Hseg. eauto.
Qed.

Lemma pbkdf2_iterations_extracted_witness :
  parse_pbkdf2_iterations (py "$pbkdf2-sha512$i=210000$c2FsdA$aGFzaA")
  = Returns (Some 210000).
Proof.
  apply (proj1 (pbkdf2_iterations_extracted
                  (py "$pbkdf2-sha512$i=210000$c2FsdA$aGFzaA")
                  (or_intror eq_refl))
           (py "$pbkdf2-sha512") (py "210000") (py "c2FsdA$aGFzaA")).
  - split; [reflexivity | split; [done | by repeat constructor]].
  - intros pre' digits' post' [Hs _].
    do 15 (destruct pre' as [|? pre']; [by simplify_eq | injection Hs as <- Hs]).
    simpl. repeat apply le_n_S. apply Nat.le_0_l.
  - by_evaluation.
Defined.

(** An iteration count of 4301 digits: the string is classified as
    pbkdf2-sha256, its only segment [$i=<digits>$] holds that numeral, and
    the call raises instead of returning the number. *)
Lemma pbkdf2_iterations_overlong_raises :
  let digits := replicate 4301 "1" : str in
  let s := py "$pbkdf2-sha256$i=" ++ digits ++ py "$abc$def" in
  detect_algorithm s = py "pbkdf2-sha256"
  ∧ iterations_segment s (py "$pbkdf2-sha256") digits (py "abc$def")
  ∧ parse_pbkdf2_iterations s = Raises "ValueError"
  ∧ parse_pbkdf2_iterations s ≠ Returns (Some (numeral_value digits)).
Proof.
  intros digits s.
  assert (parse_pbkdf2_iterations s = Raises "ValueError") as Hraise
    by (vm_compute; reflexivity).
  split; [by_evaluation|]. split; [|split; [done | by rewrite Hraise]].
  split; [reflexivity|]. split; [done|].
  unfold digits. by apply Forall_replicate.
Qed.

(** ** [str.find] *)

Lemma occurs_at_startswith (sub s : str) (i : nat) :
  occurs_at sub s i ↔ (i ≤ length s)%nat ∧ startswith (drop i s) sub = true.
Proof.
  rewrite startswith_spec. split.
  - intros (pre & post & -> & <-). split; [rewrite length_app; lia|].
    exists post. by rewrite drop_app_length.
  - intros [Hi [post Hpost]]. exists (take i s), post. split.
    + by rewrite <- Hpost, take_drop.
    + rewrite length_take. lia.
Qed.

Lemma find_from_none (sub s : str) (i : Z) :
  (∀ j, (j ≤ length s)%nat → startswith (drop j s) sub = false) →
  find_from sub s i = -1.
Proof.
  revert i. induction s as [|c s IH]; intros i H;
    pose proof (H 0%nat) as H0; rewrite drop_0 in H0; simpl.
  - by rewrite H0 by done.
  - rewrite H0 by (simpl; lia). apply IH.
    intros j Hj. apply (H (S j)). simpl. lia.
Qed.

Lemma find_from_first (sub s : str) (i : Z) (n : nat) :
  startswith (drop n s) sub = true → (n ≤ length s)%nat →
  (∀ j, (j < n)%nat → startswith (drop j s) sub = false) →
  find_from sub s i = i + Z.of_nat n.
Proof.
  revert i s. induction n as [|n IH]; intros i s Hn Hlen Hfirst.
  - rewrite drop_0 in Hn. destruct s; simpl; rewrite Hn; lia.
  - destruct s as [|c s]; [simpl in Hlen; lia|].
    pose proof (Hfirst 0%nat) as H0. rewrite drop_0 in H0.
    simpl. rewrite H0 by lia.
    rewrite IH; [lia | done | simpl in Hlen; lia |].
    intros j Hj. apply (Hfirst (S j)). lia.
Qed.

Lemma find_absent (sub s : str) :
  (∀ i, ¬ occurs_at sub s i) → find s sub 0 = -1.
Proof.
  intros H. unfold find. rewrite drop_0. apply find_from_none.
  intros j Hj. apply not_true_is_false. intros Hs.
  apply (H j). by apply occurs_at_startswith.
Qed.

Lemma find_first_at (sub s : str) (i : nat) :
  first_at sub s i → find s sub 0 = Z.of_nat i.
Proof.
  intros [Hi Hfirst]. unfold find. rewrite drop_0.
  apply occurs_at_startswith in Hi as [Hlen Hi].
  rewrite (find_from_first sub s 0 i); [lia | done..|].
  intros j Hj. apply not_true_is_false. intros Hs.
  assert (occurs_at sub s j) as Hocc%Hfirst; [|lia].
  apply occurs_at_startswith. split; [lia | done].
Qed.

Lemma find_char_absent (c : ascii) (s : str) (start : nat) :
  c ∉ drop start s → find s [c] (Z.of_nat start) = -1.
Proof.
  intros H. unfold find. rewrite Nat2Z.id. apply find_from_none.
  intros j Hj. apply not_true_is_false. intros Hs.
  apply startswith_spec in Hs as [rest Hs]. apply H.
  rewrite <- (take_drop j (drop start s)), Hs. set_solver.
Qed.

Lemma find_char_first (c : ascii) (s gap rest : str) (start : nat) :
  drop start s = gap ++ c :: rest → c ∉ gap → (start ≤ length s)%nat →
  find s [c] (Z.of_nat start) = Z.of_nat (start + length gap).
Proof.
  intros Hs Hgap Hstart. unfold find. rewrite Nat2Z.id, Hs.
  rewrite (find_from_first [c] _ _ (length gap)).
  - lia.
  - rewrite drop_app_length. simpl. by rewrite Ascii.eqb_refl.
  - rewrite length_app. lia.
  - intros j Hj. apply not_true_is_false. intros H.
    apply startswith_spec in H as [t H]. apply Hgap.
    rewrite drop_app_le in H by lia.
    assert (drop j gap ≠ []) as Hne.
    { intros Hnil. apply (f_equal length) in Hnil.
      rewrite length_drop in Hnil. simpl in Hnil. lia. }
    destruct (drop j gap) as [|c' g'] eqn:Hd; [done|].
    simpl in H. injection H as -> _.
    rewrite <- (take_drop j gap), Hd. set_solver.
Qed.

(** ** The section body *)

Lemma section_token_no_brace : "{" ∉ section_token.
Proof. by_evaluation. Qed.

Lemma section_body_absent (content : str) :
  (∀ i, ¬ occurs_at section_token content i) → section_body content = None.
Proof. intros H. unfold section_body. by rewrite find_absent. Qed.

Lemma section_body_no_brace (content : str) (i : nat) :
  first_at section_token content i → "{" ∉ drop i content →
  section_body content = None.
Proof.
  intros Hi Hb. unfold section_body. rewrite (find_first_at _ _ i) by done.
  destruct (Z.of_nat i =? -1) eqn:E; [done|].
  change (py "{") with ["{"]. by rewrite find_char_absent.
Qed.

(** C9. When the quoted section name does not occur in the dump, and when
    it occurs but no opening brace follows its first occurrence, the result
    is the empty mapping. *)
Theorem missing_section_gives_empty (content : str) :
  (∀ i, ¬ occurs_at section_token content i)
  ∨ (∃ i, first_at section_token content i ∧ "{" ∉ drop i content) →
  parse_saxdb_nickserv content = ∅.
Proof.
  unfold parse_saxdb_nickserv. intros [H | (i & Hi & Hb)].
  - by rewrite section_body_absent.
  - by rewrite (section_body_no_brace content i).
Qed.

Lemma missing_section_gives_empty_witness :
  parse_saxdb_nickserv (quoted "'ChanServ' { 'x' { 'a' 'b'; }; };") = ∅
  ∧ parse_saxdb_nickserv (quoted "'x' { }; 'NickServ' 'y' 'z';") = ∅.
Proof.
  split; apply missing_section_gives_empty.
  - left. intros i [Hi H]%occurs_at_startswith.
    do 34 (destruct i as [|i]; [discriminate H|]). simpl in Hi. lia.
  - right. exists 9%nat. split; [split|].
    + by exists (quoted "'x' { }; "), (quoted " 'y' 'z';").
    + intros j [Hj H]%occurs_at_startswith.
      do 9 (destruct j as [|j]; [discriminate H|]). lia.
    + by_evaluation.
Defined.

(** ** [finditer] *)

Lemma finditer_from_sound (r : regex) (s : str) (skip : nat) (g : groups) :
  g ∈ finditer_from r s skip →
  ∃ i len, match_here r (drop i s) = Some (len, g).
Proof.
  revert skip. induction s as [|c s IH]; intros skip; cbn [finditer_from].
  - destruct skip; [|by intros ?%elem_of_nil].
    destruct (match_here r []) as [[len g']|] eqn:H; [|by intros ?%elem_of_nil].
    intros ->%list_elem_of_singleton. by exists 0%nat, len.
  - destruct skip as [|skip].
    + destruct (match_here r (c :: s)) as [[len g']|] eqn:H.
      * intros [-> | Hin]%elem_of_cons; [by exists 0%nat, len|].
        apply IH in Hin as (i & len' & Hi). by exists (S i), len'.
      * intros (i & len' & Hi)%IH. by exists (S i), len'.
    + intros (i & len' & Hi)%IH. by exists (S i), len'.
Qed.

(** ** Properties of one account *)

Lemma prop_pattern_sound (s : str) (len : nat) (m : groups) :
  match_here prop_pattern s = Some (len, m) →
  ∃ key, m !! 1%nat = Some key ∧ key ≠ [] ∧ dq ∉ key.
Proof.
  intros H. apply match_here_sound in H as (s' & Hm & _).
  unfold prop_pattern in Hm. inv_matches;
    rewrite !take_run; eexists;
    (split; [by rewrite lookup_insert_ne, lookup_insert_eq by done|]);
    (split; [done|]).
  all: match goal with
       | H : Forall (λ c, not_char dq c = true) ?run |- dq ∉ ?run =>
           intros Hin; apply (proj1 (Forall_forall _ _) H) in Hin;
           unfold not_char in Hin; by rewrite Ascii.eqb_refl in Hin
       end.
Qed.

Lemma parse_properties_keys (properties_str key value : str) :
  parse_properties properties_str !! key = Some value → key ≠ [].
Proof.
  unfold parse_properties, finditer.
  assert (∀ ms (props : gmap str str),
            (∀ m, m ∈ ms → ∃ k, m !! 1%nat = Some k ∧ k ≠ []) →
            (∀ k v, props !! k = Some v → k ≠ []) →
            ∀ k v, (fold_left add_property ms props) !! k = Some v → k ≠ [])
    as Hfold.
  { induction ms as [|m ms IH]; intros props Hms Hprops; [done|].
    simpl. apply IH.
    - intros m' Hm'. apply Hms. by right.
    - intros k v. unfold add_property.
      destruct (Hms m) as (k' & Hk' & Hne); [by left|].
      unfold group. rewrite Hk'. simpl.
      destruct (decide (k' = k)) as [<- | Hneq].
      + done.
      + rewrite lookup_insert_ne by done. apply Hprops. }
  apply Hfold; [|done].
  intros m (i & len & Hm)%finditer_from_sound.
  apply prop_pattern_sound in Hm as (k & Hk & Hne & _). eauto.
Qed.

(** ** The accounts mapping *)

Lemma add_account_lookup (accounts : gmap str (gmap str str)) (m : groups)
    (name : str) (props : gmap str str) :
  (add_account accounts m) !! name = Some props →
  accounts !! name = Some props
  ∨ (name = group m 1 ∧ props = parse_properties (group m 2)
     ∧ (name ∉ excluded_names) ∧ props ≠ ∅).
Proof.
  unfold add_account. case_bool_decide as Hex; [by left|].
  case_bool_decide as Hprops; [by left|].
  destruct (decide (group m 1 = name)) as [<- | Hne].
  - rewrite lookup_insert_eq. intros [= <-]. by right.
  - rewrite lookup_insert_ne by done. by left.
Qed.

Lemma accounts_fold_lookup (ms : list groups) (accounts : gmap str (gmap str str))
    (name : str) (props : gmap str str) :
  (fold_left add_account ms accounts) !! name = Some props →
  accounts !! name = Some props
  ∨ (∃ m, m ∈ ms ∧ name = group m 1 ∧ props = parse_properties (group m 2)
          ∧ (name ∉ excluded_names) ∧ props ≠ ∅).
Proof.
  revert accounts. induction ms as [|m ms IH]; intros accounts; simpl; [by left|].
  intros [H | (m' & Hin & H)]%IH.
  - apply add_account_lookup in H as [H | H]; [by left|].
    right. exists m. split; [by left | done].
  - right. exists m'. split; [by right | done].
Qed.

Lemma parse_saxdb_nickserv_lookup (content name : str) (props : gmap str str) :
  parse_saxdb_nickserv content !! name = Some props →
  ∃ properties_str, props = parse_properties properties_str
                    ∧ (name ∉ excluded_names) ∧ props ≠ ∅.
Proof.
  unfold parse_saxdb_nickserv. destruct (section_body content) as [body|]; [|done].
  intros [H | (m & _ & _ & -> & Hex & Hne)]%accounts_fold_lookup; [done|].
  by exists (group m 2).
Qed.

(** C8. Every account name in the result maps to a non-empty property
    mapping and is none of the five excluded structural names. *)
Theorem accounts_nonempty_not_excluded (content name : str) (props : gmap str str) :
  parse_saxdb_nickserv content !! name = Some props →
  props ≠ ∅ ∧ name ∉ excluded_names.
Proof.
  intros (properties_str & _ & Hex & Hne)%parse_saxdb_nickserv_lookup. by split.
Qed.

Lemma accounts_nonempty_not_excluded_witness :
  let content :=
    quoted "'NickServ' { 'bots' { 'a' 'b'; }; 'alice' { 'passwd' 'x'; }; 'ghost' { }; };" in
  parse_saxdb_nickserv content = {[ py "alice" := {[ py "passwd" := py "x" ]} ]}
  ∧ ({[ py "passwd" := py "x" ]} : gmap str str) ≠ ∅
  ∧ py "alice" ∉ excluded_names.
Proof.
  intros content.
  assert (parse_saxdb_nickserv content = {[ py "alice" := {[ py "passwd" := py "x" ]} ]})
    as Hrun by by_evaluation.
  split; [done|].
  apply (accounts_nonempty_not_excluded content).
  rewrite Hrun. apply lookup_singleton_eq.
Defined.

(** C10. Every property key in every account mapping of the result is a
    non-empty string, so a pair written with an empty quoted key is never in
    a mapping; values may be empty: an account whose only property is an
    empty-valued passwd is kept, with the value the empty string, which
    classifies as [empty]. *)
Theorem keys_nonempty_values_may_be_empty :
  (∀ content name props key value,
     parse_saxdb_nickserv content !! name = Some props →
     props !! key = Some value → key ≠ [])
  ∧ parse_saxdb_nickserv (quoted "'NickServ' { 'alice' { 'passwd' ''; }; };")
    = {[ py "alice" := {[ py "passwd" := [] ]} ]}
  ∧ detect_algorithm (passwd_of {[ py "passwd" := [] ]}) = py "empty"
  ∧ parse_properties (quoted "'' 'v';") = ∅
  ∧ parse_saxdb_nickserv (quoted "'NickServ' { 'alice' { '' 'v'; }; };") = ∅.
Proof.
  split; [|repeat split; by_evaluation].
  intros content name props key value
    (properties_str & -> & _)%parse_saxdb_nickserv_lookup.
  apply parse_properties_keys.
Qed.

(** ** The brace scan *)

Lemma scan_braces_unterminated (rest : str) (d pos : Z) :
  (∀ n, 0 < brace_depth (take n rest) d) →
  scan_braces rest d pos = pos + Z.of_nat (length rest).
Proof.
  revert d pos. induction rest as [|c rest IH]; intros d pos H; simpl; [lia|].
  pose proof (H 0%nat) as H0. simpl in H0.
  rewrite (proj2 (Z.ltb_lt _ _)) by done.
  rewrite IH; [lia|]. intros n. apply (H (S n)).
Qed.

Lemma scan_braces_closed (body rest : str) (d pos : Z) :
  (∀ n, 0 < brace_depth (take n body) d) → brace_depth body d = 1 →
  scan_braces (body ++ "}" :: rest) d pos = pos + Z.of_nat (length body) + 1.
Proof.
  revert d pos. induction body as [|c body IH]; intros d pos H Hend; simpl.
  - simpl in Hend. subst d. simpl. destruct rest; simpl; lia.
  - pose proof (H 0%nat) as H0. simpl in H0.
    rewrite (proj2 (Z.ltb_lt _ _)) by done.
    rewrite IH; [lia | | done]. intros n. apply (H (S n)).
Qed.

Lemma brace_depth_shift (s : str) (d e : Z) :
  brace_depth s (d + e) = brace_depth s d + e.
Proof.
  revert d. induction s as [|c s IH]; intros d; simpl; [done|].
  destruct (Ascii.eqb c "{"); [|destruct (Ascii.eqb c "}")];
    rewrite <- IH; f_equal; lia.
Qed.

Lemma brace_depth_app (s t : str) (d : Z) :
  brace_depth (s ++ t) d = brace_depth t (brace_depth s d).
Proof. revert d. induction s as [|c s IH]; intros d; simpl; [done | apply IH]. Qed.

Lemma drop_past (s gap rest : str) (c : ascii) (i : nat) :
  drop i s = gap ++ c :: rest → drop (i + (length gap + 1)) s = rest.
Proof. intros H. by rewrite <- drop_drop, H, drop_app_add. Qed.

(** What the scan yields when the section is not closed: the text after the
    opening brace without its last character. *)
Lemma section_body_unterminated (content gap rest : str) (i : nat) :
  first_at section_token content i →
  drop i content = gap ++ "{" :: rest → "{" ∉ gap →
  unterminated rest →
  section_body content = Some (take (length rest - 1) rest).
Proof.
  intros Hi Hs Hgap Hopen. unfold section_body.
  assert (i ≤ length content)%nat as Hlen.
  { destruct Hi as [(pre & post & -> & <-) _]. rewrite length_app. lia. }
  rewrite (find_first_at _ _ i) by done.
  rewrite (proj2 (Z.eqb_neq (Z.of_nat i) (-1))) by lia.
  change (py "{") with ["{"].
  rewrite (find_char_first "{" content gap rest i Hs Hgap Hlen).
  rewrite (proj2 (Z.eqb_neq (Z.of_nat (i + length gap)) (-1))) by lia.
  unfold slice.
  replace (Z.to_nat (Z.of_nat (i + length gap) + 1))
    with (i + (length gap + 1))%nat by lia.
  rewrite (drop_past _ _ _ _ _ Hs).
  rewrite scan_braces_unterminated by done.
  do 2 f_equal. lia.
Qed.

(** C2. On the unterminated dump whose text after the opening brace is one
    complete account entry, the section body stops one character short of
    the end of the input: the entry loses its final semicolon and the result
    is empty, although the text up to the end of the input holds the
    account. *)
Theorem unterminated_section_drops_last_char :
  let content := quoted "'NickServ' { 'alice' { 'passwd' 'x'; };" in
  let to_end_of_input := quoted " 'alice' { 'passwd' 'x'; };" in
  section_body content = Some (quoted " 'alice' { 'passwd' 'x'; }")
  ∧ parse_saxdb_nickserv content = ∅
  ∧ drop 12 content = to_end_of_input
  ∧ fold_left add_account (finditer account_pattern to_end_of_input) ∅
    = {[ py "alice" := {[ py "passwd" := py "x" ]} ]}.
Proof. repeat split; by_evaluation. Qed.

(** ** A closed section *)

Lemma section_body_closed (content pre gap body rest : str) :
  content = pre ++ section_token ++ gap ++ "{" :: body ++ "}" :: rest →
  first_at section_token content (length pre) →
  "{" ∉ gap → balanced body →
  section_body content = Some body.
Proof.
  intros Hc Hfirst Hgap [Hend Hpre]. unfold section_body.
  assert (drop (length pre) content
          = (section_token ++ gap) ++ "{" :: body ++ "}" :: rest) as Hs.
  { by rewrite Hc, drop_app_length, <- app_assoc. }
  assert ("{" ∉ section_token ++ gap) as Hgap'.
  { rewrite elem_of_app. intros [H | H]; [by apply section_token_no_brace | done]. }
  assert (length pre ≤ length content)%nat as Hlen.
  { rewrite Hc, length_app. lia. }
  rewrite (find_first_at _ _ (length pre)) by done.
  rewrite (proj2 (Z.eqb_neq (Z.of_nat (length pre)) (-1))) by lia.
  change (py "{") with ["{"].
  rewrite (find_char_first "{" content _ _ _ Hs Hgap' Hlen).
  rewrite (proj2 (Z.eqb_neq (Z.of_nat _) (-1))) by lia.
  unfold slice.
  replace (Z.to_nat (Z.of_nat (length pre + length (section_token ++ gap)) + 1))
    with (length pre + (length (section_token ++ gap) + 1))%nat by lia.
  rewrite (drop_past _ _ _ _ _ Hs).
  rewrite scan_braces_closed.
  - f_equal.
    replace (Z.to_nat _ - _)%nat with (length body) by lia.
    apply take_app_length.
  - intros n. specialize (Hpre n).
    rewrite <- (Z.add_0_l 1), brace_depth_shift. lia.
  - rewrite <- (Z.add_0_l 1), brace_depth_shift. lia.
Qed.

(** ** Scanning up to a match *)

Lemma finditer_from_reaches (r : regex) (before s : str) (skip : nat) :
  (∀ i len g, (i < length before)%nat →
     match_here r (drop i (before ++ s)) = Some (len, g) →
     (i + len ≤ length before)%nat) →
  (skip ≤ length before)%nat →
  ∃ found, finditer_from r (before ++ s) skip = found ++ finditer_from r s 0.
Proof.
  revert skip. induction before as [|c before IH]; intros skip Hclear Hskip.
  - simpl in Hskip. replace skip with 0%nat by lia. by exists [].
  - assert (∀ i len g, (i < length before)%nat →
              match_here r (drop i (before ++ s)) = Some (len, g) →
              (i + len ≤ length before)%nat) as Hclear'.
    { intros i len g Hi Hm.
      assert (S i + len ≤ length (c :: before))%nat; [|simpl in *; lia].
      apply (Hclear (S i) len g); [simpl; lia | done]. }
    destruct skip as [|skip]; cbn [finditer_from app].
    + destruct (match_here r (c :: before ++ s)) as [[len g]|] eqn:Hm.
      * assert (0 + len ≤ length (c :: before))%nat as Hlen
          by (apply (Hclear 0%nat len g); [simpl; lia | done]).
        destruct (IH (len - 1)%nat) as [found Hfound];
          [done | simpl in Hlen; lia |].
        exists (g :: found). by rewrite Hfound.
      * destruct (IH 0%nat) as [found Hfound]; [done | lia |]. by exists found.
    + destruct (IH skip) as [found Hfound]; [done | simpl in Hskip; lia |].
      by exists found.
Qed.

Lemma finditer_from_here (r : regex) (s : str) (len : nat) (g : groups) :
  match_here r s = Some (len, g) → g ∈ finditer_from r s 0.
Proof. intros H. destruct s; cbn [finditer_from]; rewrite H; by left. Qed.

(** ** Accounts are never removed *)

Lemma add_account_keeps (accounts : gmap str (gmap str str)) (m : groups) (name : str) :
  is_Some (accounts !! name) → is_Some ((add_account accounts m) !! name).
Proof.
  intros H. unfold add_account.
  case_bool_decide; [done|]. case_bool_decide; [done|].
  destruct (decide (group m 1 = name)) as [<- | Hne].
  - rewrite lookup_insert_eq. eauto.
  - by rewrite lookup_insert_ne.
Qed.

Lemma accounts_fold_keeps (ms : list groups) (accounts : gmap str (gmap str str))
    (name : str) :
  is_Some (accounts !! name) →
  is_Some ((fold_left add_account ms accounts) !! name).
Proof.
  revert accounts. induction ms as [|m ms IH]; intros accounts H; [done|].
  simpl. by apply IH, add_account_keeps.
Qed.

Lemma accounts_fold_adds (ms : list groups) (accounts : gmap str (gmap str str))
    (m : groups) :
  m ∈ ms → group m 1 ∉ excluded_names → parse_properties (group m 2) ≠ ∅ →
  is_Some ((fold_left add_account ms accounts) !! group m 1).
Proof.
  revert accounts. induction ms as [|m' ms IH]; intros accounts Hin Hex Hne.
  - by apply elem_of_nil in Hin.
  - simpl. apply elem_of_cons in Hin as [<- | Hin]; [|by apply IH].
    apply accounts_fold_keeps. unfold add_account.
    rewrite bool_decide_eq_false_2 by done.
    rewrite bool_decide_eq_false_2 by done.
    rewrite lookup_insert_eq. eauto.
Qed.

Lemma add_property_nonempty (ms : list groups) (props : gmap str str) :
  props ≠ ∅ → fold_left add_property ms props ≠ ∅.
Proof.
  revert props. induction ms as [|m ms IH]; intros props H; [done|].
  simpl. apply IH. unfold add_property. apply insert_non_empty.
Qed.

Lemma parse_properties_nonempty (properties_str : str) (len : nat) (g : groups) :
  match_here prop_pattern properties_str = Some (len, g) →
  parse_properties properties_str ≠ ∅.
Proof.
  intros H. unfold parse_properties, finditer.
  assert (∃ ms, finditer_from prop_pattern properties_str 0 = g :: ms) as [ms ->].
  { destruct properties_str; cbn [finditer_from]; rewrite H; eauto. }
  cbn [fold_left]. apply add_property_nonempty, insert_non_empty.
Qed.

(** ** Character classes *)

Lemma not_char_spec (c c' : ascii) : not_char c c' = true ↔ c' ≠ c.
Proof. unfold not_char. rewrite negb_true_iff. apply Ascii.eqb_neq. Qed.

Lemma not_in_run (c : ascii) (s : str) :
  c ∉ s ↔ Forall (λ c', not_char c c' = true) s.
Proof.
  rewrite Forall_forall. split.
  - intros H c' Hc'. apply not_char_spec. by intros ->.
  - intros H Hc. apply H in Hc. by apply not_char_spec in Hc.
Qed.

Lemma space_not (c c' : ascii) : is_space c' = false → is_space c = true → c ≠ c'.
Proof. intros H Hc ->. congruence. Qed.

Lemma space_run_not_in (c : ascii) (sp : str) :
  is_space c = false → Forall (λ c', is_space c' = true) sp → c ∉ sp.
Proof.
  intros Hc Hsp Hin. apply (proj1 (Forall_forall _ _) Hsp) in Hin. congruence.
Qed.

(** ** The account pattern on an account entry *)

Section PatternRuns.
Context {R : Type}.
Implicit Types (k : str → groups → option R) (g : groups).

Lemma greedy_total (p : ascii → bool) (s : str) (k : str → option R) :
  (∀ s', is_Some (k s')) → is_Some (greedy p s k).
Proof.
  intros Hk. induction s as [|c s IH]; simpl; [done|].
  destruct (p c); [|done]. by destruct (greedy p s k).
Qed.

Lemma exec_opt_total (r : regex) (s : str) g k :
  is_Some (k s g) → is_Some (exec (Opt r) s g k).
Proof. intros [x Hx]. cbn [exec]. destruct (exec r s g k); eauto. Qed.

Lemma exec_account_entry (name sp1 sp2 props after : str) g k :
  name ≠ [] → dq ∉ name →
  Forall (λ c, is_space c = true) sp1 → Forall (λ c, is_space c = true) sp2 →
  props ≠ [] → at_class is_space props = false → "}" ∉ props →
  is_Some (k after (<[2%nat := props]> (<[1%nat := name]> g))) →
  exec account_pattern
    (dq :: name ++ dq :: sp1 ++ "{" :: sp2 ++ props ++ "}" :: ";" :: after) g k
  = k after (<[2%nat := props]> (<[1%nat := name]> g)).
Proof.
  intros Hname Hq Hsp1 Hsp2 Hprops Hfirst Hclose Hk. unfold account_pattern.
  rewrite exec_cat, exec_lit. cbv beta.
  rewrite exec_cat, exec_group_plus_commit; [| done | by apply not_in_run | done |].
  2:{ intros c t g' Hc. rewrite exec_cat. apply exec_lit_other.
      by apply not_char_spec. }
  rewrite exec_cat, exec_lit. cbv beta.
  rewrite exec_cat, exec_star_commit; [| done | done |].
  2:{ intros c t Hc. rewrite exec_cat. apply exec_lit_other.
      by apply (space_not c "{"). }
  rewrite exec_cat, exec_lit. cbv beta.
  assert (∀ g', exec (Star is_space · Lit "}" · Lit ";") ("}" :: ";" :: after) g' k
                = k after g') as Htail by done.
  assert (exec (Group 2 (Plus (not_char "}")) · Star is_space · Lit "}" · Lit ";")
            (props ++ "}" :: ";" :: after) (<[1%nat := name]> g) k
          = k after (<[2%nat := props]> (<[1%nat := name]> g))) as Hblock.
  { rewrite exec_cat, exec_group_plus_longest;
      [by rewrite Htail | done | by apply not_in_run | done | by rewrite Htail]. }
  rewrite exec_cat, exec_star_longest; [done | done | | by rewrite Hblock].
  destruct props as [|c props]; [done|]. done.
Qed.
End PatternRuns.

Lemma match_here_account_entry (name sp1 sp2 props after : str) :
  name ≠ [] → dq ∉ name →
  Forall (λ c, is_space c = true) sp1 → Forall (λ c, is_space c = true) sp2 →
  props ≠ [] → at_class is_space props = false → "}" ∉ props →
  ∃ len,
    match_here account_pattern
      (dq :: name ++ dq :: sp1 ++ "{" :: sp2 ++ props ++ "}" :: ";" :: after)
    = Some (len, <[2%nat := props]> {[ 1%nat := name ]}).
Proof.
  intros. unfold match_here. rewrite exec_account_entry by done. eauto.
Qed.

(** ** The property pattern on a key and its value *)

Lemma exec_property {R : Type} (key sp value more : str) (g : groups)
    (k : str → groups → option R) :
  key ≠ [] → dq ∉ key → sp ≠ [] → Forall (λ c, is_space c = true) sp →
  value_text value → (∀ rest g', is_Some (k rest g')) →
  is_Some (exec prop_pattern (dq :: key ++ dq :: sp ++ value ++ more) g k).
Proof.
  intros Hkey Hq Hsp Hspace Hv Hfinal. unfold prop_pattern.
  assert (at_class is_space (value ++ more) = false) as Hvalue
    by (by destruct Hv as [(v & -> & _) | (v & -> & _)]).
  rewrite exec_cat, exec_lit. cbv beta.
  rewrite exec_cat, exec_group_plus_commit; [| done | by apply not_in_run | done |].
  2:{ intros c t g' Hc. rewrite exec_cat. apply exec_lit_other.
      by apply not_char_spec. }
  rewrite exec_cat, exec_lit. cbv beta.
  rewrite exec_cat, exec_plus_commit; [| done | done | done |].
  2:{ intros c t Hc. rewrite exec_cat. cbn [exec].
      rewrite (proj2 (Ascii.eqb_neq c dq)) by by apply (space_not c dq).
      by rewrite (proj2 (Ascii.eqb_neq c "(")) by by apply (space_not c "("). }
  rewrite exec_cat.
  set (k' := λ (s' : str) (g' : groups),
               exec (Opt (Lit ";") · Star is_space) s' g' k).
  assert (∀ s' g', is_Some (k' s' g')) as Hk.
  { intros s' g'. unfold k'. rewrite exec_cat.
    apply exec_opt_total. cbn [exec]. by apply greedy_total. }
  change (exec (Alt _ _) ?s ?g0 _) with
    (match exec (Lit dq · Group 2 (Star (not_char dq)) · Lit dq) s g0 k' with
     | Some x => Some x
     | None => exec (Group 3 (Lit "(" · Star (not_char ")") · Lit ")")) s g0 k'
     end).
  destruct Hv as [(v & -> & Hv) | (v & -> & Hv)].
  - replace ((dq :: v ++ [dq]) ++ more) with (dq :: v ++ dq :: more)
      by (by rewrite <- app_comm_cons, <- app_assoc).
    rewrite exec_cat, exec_lit. cbv beta.
    rewrite exec_cat, exec_group_star_commit; [| by apply not_in_run | done |].
    2:{ intros c t g' Hc. apply exec_lit_other. by apply not_char_spec. }
    rewrite exec_lit.
    match goal with
    | |- context [k' more ?g0] => destruct (Hk more g0) as [x ->]
    end.
    eauto.
  - assert (∀ g0, exec (Lit dq · Group 2 (Star (not_char dq)) · Lit dq)
                    (("(" :: v ++ [")"]) ++ more) g0 k' = None) as -> by done.
    rewrite (exec_group 3 _ ("(" :: v ++ [")"]) more).
    replace (("(" :: v ++ [")"]) ++ more) with ("(" :: v ++ ")" :: more)
      by (by rewrite <- app_comm_cons, <- app_assoc).
    rewrite exec_cat, exec_lit. cbv beta.
    rewrite exec_cat, exec_star_commit; [| by apply not_in_run | done |].
    2:{ intros c t Hc. apply exec_lit_other. by apply not_char_spec. }
    rewrite exec_lit. apply Hk.
Qed.

Lemma match_here_property (key sp value more : str) :
  key ≠ [] → dq ∉ key → sp ≠ [] → Forall (λ c, is_space c = true) sp →
  value_text value →
  is_Some (match_here prop_pattern (dq :: key ++ dq :: sp ++ value ++ more)).
Proof. intros. unfold match_here. by apply exec_property. Qed.

(** ** Matches of the account pattern do not run into a later entry *)

Lemma account_pattern_sound (s : str) (len : nat) (m : groups) :
  match_here account_pattern s = Some (len, m) →
  ∃ name sp block rest,
    s = dq :: name ++ dq :: sp ++ "{" :: block ++ "}" :: ";" :: rest
    ∧ (dq ∉ name) ∧ Forall (λ c, is_space c = true) sp ∧ ("}" ∉ block)
    ∧ len = (length s - length rest)%nat.
Proof.
  intros H. apply match_here_sound in H as (s' & Hm & ->).
  unfold account_pattern in Hm. inv_matches.
  match goal with
  | |- context [dq :: ?n ++ dq :: ?sp ++ "{" :: ?w2 ++ ?b ++ ?w3 ++ "}" :: ";" :: s'] =>
      exists n, sp, (w2 ++ b ++ w3), s'
  end.
  split; [by rewrite <- !app_assoc|].
  split; [by apply not_in_run|]. split; [done|]. split; [|done].
  rewrite !elem_of_app. intros [H | [H | H]]; revert H.
  - by apply space_run_not_in.
  - by apply not_in_run.
  - by apply space_run_not_in.
Qed.

Lemma split_at_char (c : ascii) (l r a b : str) :
  c ∉ a → l ++ c :: r = a ++ b → ∃ m, l = a ++ m ∧ b = m ++ c :: r.
Proof.
  revert l. induction a as [|x a IH]; intros l Hc H.
  - exists l. by split.
  - destruct l as [|y l]; simpl in H.
    + injection H as -> _. destruct Hc. by left.
    + injection H as -> H. destruct (IH l) as (m & -> & ->); [|done|].
      * intros Hin. apply Hc. by right.
      * by exists m.
Qed.

Lemma brace_depth_no_close (s : str) (d : Z) : "}" ∉ s → d <= brace_depth s d.
Proof.
  revert d. induction s as [|c s IH]; intros d H; simpl; [lia|].
  assert ("}" ∉ s) as Hs by (intros Hin; apply H; by right).
  destruct (Ascii.eqb c "{") eqn:E1.
  - specialize (IH (d + 1) Hs). lia.
  - destruct (Ascii.eqb c "}") eqn:E2.
    + apply Ascii.eqb_eq in E2 as ->. destruct H. by left.
    + by apply IH.
Qed.

Lemma balanced_no_open_tail (prefix tail : str) :
  balanced (prefix ++ "{" :: tail) → "}" ∉ tail → False.
Proof.
  intros [Hend Hpre] Htail.
  specialize (Hpre (length prefix)). rewrite take_app_length in Hpre.
  rewrite brace_depth_app in Hend. simpl in Hend.
  pose proof (brace_depth_no_close tail (brace_depth prefix 0 + 1) Htail). lia.
Qed.

Lemma account_match_clear (before name tail : str) (i len : nat) (g : groups) :
  balanced before → dq ∉ name → "{" ∉ name → (i < length before)%nat →
  match_here account_pattern (drop i (before ++ dq :: name ++ dq :: tail))
  = Some (len, g) →
  (i + len ≤ length before)%nat.
Proof.
  intros Hbal Hq Hb Hi Hm.
  apply account_pattern_sound in Hm
    as (N & W & X & s' & Hs & HN & HW & HX & ->).
  rewrite drop_app_le in Hs by lia.
  assert (length (drop i before) = length before - i)%nat as Hlen
    by apply length_drop.
  rewrite drop_app_le, length_app, Hlen by lia.
  destruct (decide (i + (length before - i + length (dq :: name ++ dq :: tail)
                         - length s') ≤ length before)%nat) as [|Hover]; [done|].
  exfalso.
  replace (dq :: N ++ dq :: W ++ "{" :: X ++ "}" :: ";" :: s')
    with ((dq :: N ++ dq :: W ++ "{" :: X ++ py "};") ++ s') in Hs
    by (repeat (rewrite <- app_assoc || rewrite <- app_comm_cons); done).
  apply app_eq_inv in Hs as [(k & HB & Hk) | (k & HM & HE)].
  { apply (f_equal length) in HB, Hk. rewrite !length_app in *.
    simpl in *. rewrite !length_app in *. simpl in *. lia. }
  destruct k as [|q k].
  { simpl in HE. apply (f_equal length) in HM, HE.
    rewrite !app_nil_r in HM. simpl in *. rewrite !length_app in *.
    simpl in *. rewrite !length_app in *. simpl in *. lia. }
  injection HE as <- HE.
  destruct (drop i before) as [|b B] eqn:HB; [simpl in Hlen; lia|].
  injection HM as <- HM. symmetry in HM.
  apply split_at_char in HM as (m & -> & HM); [|done].
  destruct m as [|d m].
  - injection HM as <-.
    rewrite <- !app_assoc in HE. simpl in HE.
    rewrite <- !app_assoc in HE. simpl in HE. symmetry in HE.
    apply split_at_char in HE as (m2 & -> & HE); [|done].
    destruct m2 as [|x m2]; [discriminate HE|].
    injection HE as <- _.
    apply Forall_app in HW as [_ HW]. apply Forall_cons in HW as [HW _].
    by vm_compute in HW.
  - injection HM as <- HM. symmetry in HM.
    apply split_at_char in HM as (m2 & -> & HM); [|by apply space_run_not_in].
    destruct m2 as [|x m2]; [discriminate HM|]. injection HM as <- HM.
    assert ("}" ∉ m2) as Hm2.
    { apply app_eq_inv in HM as [(k2 & -> & H) | (k2 & -> & H)].
      - intros Hin. apply HX. rewrite elem_of_app. by left.
      - destruct k2 as [|? [|? [|? ?]]]; discriminate H. }
    apply (balanced_no_open_tail (take i before ++ dq :: N ++ dq :: W) m2);
      [|done].
    rewrite <- (take_drop i before), HB in Hbal.
    by repeat (rewrite <- app_assoc || rewrite <- app_comm_cons).
Qed.

Lemma balanced_by_prefixes (s : str) :
  brace_depth s 0 = 0 →
  Forall (λ n, 0 <= brace_depth (take n s) 0) (seq 0 (length s)) →
  balanced s.
Proof.
  intros Hend Hpre. split; [done|]. intros n.
  destruct (decide (n < length s)%nat) as [Hn | Hn].
  - apply (proj1 (Forall_forall _ _) Hpre), elem_of_seq. lia.
  - rewrite take_ge by lia. lia.
Qed.

(** C3. In a dump whose section is closed by its matching brace, the scan
    ends at that brace however the body nests braces; and an account entry
    that follows a brace-balanced part of the body (the accounts with nested
    sub-records before it) is in the result, unless its name is one of the
    excluded ones. *)
Theorem nested_braces_keep_siblings
    (content pre gap body rest before entry after name : str) :
  content = pre ++ section_token ++ gap ++ "{" :: body ++ "}" :: rest →
  first_at section_token content (length pre) →
  "{" ∉ gap →
  balanced body →
  body = before ++ entry ++ after →
  balanced before →
  account_entry name entry →
  name ∉ excluded_names →
  section_body content = Some body
  ∧ is_Some (parse_saxdb_nickserv content !! name).
Proof.
  intros Hcontent Hfirst Hgap Hbody Hsplit Hbefore Hentry Hname.
  assert (section_body content = Some body) as Hsection
    by by apply (section_body_closed content pre gap body rest).
  split; [done|]. unfold parse_saxdb_nickserv. rewrite Hsection.
  destruct Hentry as (sp1 & sp2 & key & sp3 & value & more & -> & Hne & Hq & Hb
                      & Hsp1 & Hsp2 & Hkey & Hkq & Hsp3 & Hsp3' & Hvalue & Hflat).
  set (props := dq :: key ++ dq :: sp3 ++ value ++ more) in *.
  set (m := <[2%nat := props]> {[ 1%nat := name ]} : groups).
  assert ((dq :: name ++ dq :: sp1 ++ "{" :: sp2 ++ props ++ py "};") ++ after
          = dq :: name ++ dq :: sp1 ++ "{" :: sp2 ++ props ++ "}" :: ";" :: after)
    as Htext by (repeat (rewrite <- app_assoc || rewrite <- app_comm_cons); done).
  assert ("}" ∉ props) as Hclose.
  { unfold props.
    repeat (rewrite not_elem_of_cons || rewrite not_elem_of_app).
    repeat (rewrite not_elem_of_app in Hflat).
    destruct Hflat as (? & ? & ?).
    repeat split; try done. by apply space_run_not_in. }
  assert (group m 1 = name) as Hg1.
  { unfold group, m. by rewrite lookup_insert_ne, lookup_singleton_eq. }
  assert (group m 2 = props) as Hg2.
  { unfold group, m. by rewrite lookup_insert_eq. }
  assert (m ∈ finditer account_pattern body) as Hin.
  { unfold finditer. rewrite Hsplit, Htext.
    destruct (finditer_from_reaches account_pattern before
                (dq :: name ++ dq :: sp1 ++ "{" :: sp2 ++ props
                   ++ "}" :: ";" :: after) 0) as [found ->]; [| lia |].
    - intros i len g Hi Hm.
      apply (account_match_clear before name
               (sp1 ++ "{" :: sp2 ++ props ++ "}" :: ";" :: after) i len g);
        done.
    - apply elem_of_app. right.
      destruct (match_here_account_entry name sp1 sp2 props after)
        as [len Hm]; try done.
      by eapply finditer_from_here. }
  rewrite <- Hg1. apply accounts_fold_adds; [done | by rewrite Hg1 |].
  rewrite Hg2.
  destruct (match_here_property key sp3 value more) as [[len g] Hm]; try done.
  by eapply parse_properties_nonempty.
Qed.

Lemma nested_braces_keep_siblings_witness :
  let content :=
    quoted "'ChanServ' { }; 'NickServ' { 'alice' { 'passwd' 'x'; 'nicks' { 'al' { 'registered' '1'; }; }; }; 'bob' { 'passwd' 'y'; }; 'carol' { 'masks' ('*@c'); 'nicks' { 'c' { 'registered' '2'; }; }; }; };" in
  is_Some (parse_saxdb_nickserv content !! py "bob")
  ∧ is_Some (parse_saxdb_nickserv content !! py "carol").
Proof.
  intros content.
  assert (first_at section_token content 16) as Hfirst.
  { split.
    - by exists (quoted "'ChanServ' { }; "),
        (quoted " { 'alice' { 'passwd' 'x'; 'nicks' { 'al' { 'registered' '1'; }; }; }; 'bob' { 'passwd' 'y'; }; 'carol' { 'masks' ('*@c'); 'nicks' { 'c' { 'registered' '2'; }; }; }; };").
    - intros j [Hj H]%occurs_at_startswith.
      do 16 (destruct j as [|j]; [discriminate H|]).
      simpl. repeat apply le_n_S. apply Nat.le_0_l. }
  split.
  - refine (proj2 (nested_braces_keep_siblings content
              (quoted "'ChanServ' { }; ") (py " ")
              (quoted " 'alice' { 'passwd' 'x'; 'nicks' { 'al' { 'registered' '1'; }; }; }; 'bob' { 'passwd' 'y'; }; 'carol' { 'masks' ('*@c'); 'nicks' { 'c' { 'registered' '2'; }; }; }; ")
              (py ";")
              (quoted " 'alice' { 'passwd' 'x'; 'nicks' { 'al' { 'registered' '1'; }; }; }; ")
              (quoted "'bob' { 'passwd' 'y'; };")
              (quoted " 'carol' { 'masks' ('*@c'); 'nicks' { 'c' { 'registered' '2'; }; }; }; ")
              (py "bob") eq_refl Hfirst _ _ eq_refl _ _ _)).
    + by_evaluation.
    + apply balanced_by_prefixes; [reflexivity | by_evaluation].
    + apply balanced_by_prefixes; [reflexivity | by_evaluation].
    + exists (py " "), (py " "), (py "passwd"), (py " "), (quoted "'y'"), (py "; ").
      split; [reflexivity|].
      repeat split; try done; try (by repeat constructor); try by_evaluation.
      left. exists (py "y"). split; [reflexivity | by_evaluation].
    + by_evaluation.
  - refine (proj2 (nested_braces_keep_siblings content
              (quoted "'ChanServ' { }; ") (py " ")
              (quoted " 'alice' { 'passwd' 'x'; 'nicks' { 'al' { 'registered' '1'; }; }; }; 'bob' { 'passwd' 'y'; }; 'carol' { 'masks' ('*@c'); 'nicks' { 'c' { 'registered' '2'; }; }; }; ")
              (py ";")
              (quoted " 'alice' { 'passwd' 'x'; 'nicks' { 'al' { 'registered' '1'; }; }; }; 'bob' { 'passwd' 'y'; }; ")
              (quoted "'carol' { 'masks' ('*@c'); 'nicks' { 'c' { 'registered' '2'; };")
              (quoted " }; }; ")
              (py "carol") eq_refl Hfirst _ _ eq_refl _ _ _)).
    + by_evaluation.
    + apply balanced_by_prefixes; [reflexivity | by_evaluation].
    + apply balanced_by_prefixes; [reflexivity | by_evaluation].
    + exists (py " "), (py " "), (py "masks"), (py " "), (quoted "('*@c')"),
        (quoted "; 'nicks' { 'c' { 'registered' '2'; ").
      split; [reflexivity|].
      repeat split; try done; try (by repeat constructor); try by_evaluation.
      right. exists (quoted "'*@c'"). split; [reflexivity | by_evaluation].
    + by_evaluation.
Defined.

(** ** What the two patterns of the extractor always deliver

    Every match of either pattern spans at least one character (so that
    [finditer] never meets an empty match), and sets the groups that the
    extractor reads without a test: the defaults of [group] are never
    used. *)

Lemma match_here_quoted_start (r : regex) (s : str) (len : nat) (m : groups) :
  match_here (Lit dq · r) s = Some (len, m) → (0 < len)%nat.
Proof.
  intros (s' & Hm & ->)%match_here_sound.
  inversion Hm as [| | | | | |r1 r2 s0 s1 s2 g g1 g2 H1 H2| | |]; subst.
  inversion H1; subst.
  apply matches_suffix in H2 as [t ->]. simpl. rewrite length_app. lia.
Qed.

Lemma account_pattern_groups (s : str) (len : nat) (m : groups) :
  match_here account_pattern s = Some (len, m) →
  is_Some (m !! 1%nat) ∧ is_Some (m !! 2%nat) ∧ (0 < len)%nat.
Proof.
  intros H. split; [|split]; [| |by apply match_here_quoted_start in H].
  all: apply match_here_sound in H as (s' & Hm & _);
    unfold account_pattern in Hm; inv_matches.
  - rewrite lookup_insert_ne, lookup_insert_eq by done. eauto.
  - rewrite lookup_insert_eq. eauto.
Qed.

Lemma prop_pattern_groups (s : str) (len : nat) (m : groups) :
  match_here prop_pattern s = Some (len, m) →
  is_Some (m !! 1%nat)
  ∧ (is_Some (m !! 2%nat) ∨ (m !! 2%nat = None ∧ is_Some (m !! 3%nat)))
  ∧ (0 < len)%nat.
Proof.
  intros H. split; [|split]; [| |by apply match_here_quoted_start in H].
  all: apply match_here_sound in H as (s' & Hm & _);
    unfold prop_pattern in Hm; inv_matches.
  all: rewrite ?lookup_insert_eq, ?lookup_insert_ne, ?lookup_insert_eq,
         ?lookup_empty by done; eauto.
Qed.

Lemma keys_nonempty_values_may_be_empty_witness :
  let content := quoted "'NickServ' { 'carol' { 'passwd' ''; 'email' 'c@x'; }; };" in
  parse_saxdb_nickserv content !! py "carol"
  = Some {[ py "passwd" := []; py "email" := py "c@x" ]}
  ∧ py "email" ≠ [].
Proof.
  intros content.
  assert (parse_saxdb_nickserv content !! py "carol"
          = Some {[ py "passwd" := []; py "email" := py "c@x" ]}) as Hrun
    by by_evaluation.
  split; [exact Hrun|].
  apply (proj1 keys_nonempty_values_may_be_empty content (py "carol")
           {[ py "passwd" := []; py "email" := py "c@x" ]}
           (py "email") (py "c@x") Hrun).
  by_evaluation.
Defined.

(** ** A key written twice *)

Lemma exec_opt_taken {R : Type} (r : regex) (s : str) (g : groups)
    (k : str → groups → option R) :
  is_Some (exec r s g k) → exec (Opt r) s g k = exec r s g k.
Proof. intros [x Hx]. cbn [exec]. by rewrite Hx. Qed.

(** The pattern on a quoted key, one space, a quoted scalar, a semicolon and
    blanks: it spans all of them and captures the key and the scalar. *)
Lemma exec_scalar_property {R : Type} (key value blanks rest : str) (g : groups)
    (k : str → groups → option R) :
  key ≠ [] → dq ∉ key → dq ∉ value →
  Forall (λ c, is_space c = true) blanks → at_class is_space rest = false →
  is_Some (k rest (<[2%nat := value]> (<[1%nat := key]> g))) →
  exec prop_pattern
    (dq :: key ++ dq :: " " :: dq :: value ++ dq :: ";" :: blanks ++ rest) g k
  = k rest (<[2%nat := value]> (<[1%nat := key]> g)).
Proof.
  intros Hkey Hq Hv Hblanks Hrest Hk. unfold prop_pattern.
  rewrite exec_cat, exec_lit. cbv beta.
  rewrite exec_cat, exec_group_plus_commit; [| done | by apply not_in_run | done |].
  2:{ intros c t g' Hc. rewrite exec_cat. apply exec_lit_other.
      by apply not_char_spec. }
  rewrite exec_cat, exec_lit. cbv beta.
  rewrite exec_cat.
  rewrite (exec_plus_commit _ [" "] (dq :: value ++ dq :: ";" :: blanks ++ rest));
    [| done | by repeat constructor | done |].
  2:{ intros c t Hc. rewrite exec_cat. cbn [exec].
      rewrite (proj2 (Ascii.eqb_neq c dq)) by by apply (space_not c dq).
      by rewrite (proj2 (Ascii.eqb_neq c "(")) by by apply (space_not c "("). }
  set (G := <[2%nat := value]> (<[1%nat := key]> g)) in *.
  assert (exec (Star is_space) (blanks ++ rest) G k = k rest G) as Hblank
    by by apply exec_star_longest.
  assert (exec (Opt (Lit ";") · Star is_space) (";" :: blanks ++ rest) G k
          = k rest G) as Htail.
  { rewrite exec_cat, exec_opt_taken; rewrite exec_lit; by rewrite Hblank. }
  rewrite exec_cat.
  change (exec (Alt _ _) ?s ?g0 ?k0) with
    (match exec (Lit dq · Group 2 (Star (not_char dq)) · Lit dq) s g0 k0 with
     | Some x => Some x
     | None => exec (Group 3 (Lit "(" · Star (not_char ")") · Lit ")")) s g0 k0
     end).
  rewrite exec_cat, exec_lit. cbv beta.
  rewrite exec_cat, exec_group_star_commit; [| by apply not_in_run | done |].
  2:{ intros c t g' Hc. apply exec_lit_other. by apply not_char_spec. }
  rewrite exec_lit. fold G. rewrite Htail. by destruct Hk as [x ->].
Qed.

Lemma match_here_scalar_property (key value blanks rest : str) :
  key ≠ [] → dq ∉ key → dq ∉ value →
  Forall (λ c, is_space c = true) blanks → at_class is_space rest = false →
  match_here prop_pattern
    (dq :: key ++ dq :: " " :: dq :: value ++ dq :: ";" :: blanks ++ rest)
  = Some ((length key + length value + length blanks + 6)%nat,
          <[2%nat := value]> {[ 1%nat := key ]}).
Proof.
  intros. unfold match_here. rewrite exec_scalar_property by done.
  do 2 f_equal. repeat (cbn [length]; rewrite ?length_app). lia.
Qed.

Lemma finditer_from_skip (r : regex) (covered s : str) :
  finditer_from r (covered ++ s) (length covered) = finditer_from r s 0.
Proof. induction covered as [|c covered IH]; [done | apply IH]. Qed.

Lemma finditer_from_whole (r : regex) (s : str) (g : groups) :
  s ≠ [] → match_here r s = Some (length s, g) → match_here r [] = None →
  finditer_from r s 0 = [g].
Proof.
  intros Hs Hm Hnil. destruct s as [|c s]; [done|].
  cbn [finditer_from]. rewrite Hm. f_equal. simpl length.
  replace (S (length s) - 1)%nat with (length s) by lia.
  rewrite <- (app_nil_r s) at 1. rewrite finditer_from_skip.
  cbn [finditer_from]. by rewrite Hnil.
Qed.

Lemma parse_properties_two_pairs (k1 v1 k2 v2 : str) :
  k1 ≠ [] → dq ∉ k1 → dq ∉ v1 → k2 ≠ [] → dq ∉ k2 → dq ∉ v2 →
  parse_properties
    (dq :: k1 ++ dq :: " " :: dq :: v1 ++ dq :: ";" :: " "
        :: dq :: k2 ++ dq :: " " :: dq :: v2 ++ dq :: ";" :: [])
  = <[k2 := v2]> {[ k1 := v1 ]}.
Proof.
  intros Hk1 Hq1 Hv1 Hk2 Hq2 Hv2. unfold parse_properties, finditer.
  set (second := dq :: k2 ++ dq :: " " :: dq :: v2 ++ dq :: ";" :: []).
  assert (finditer_from prop_pattern second 0
          = [<[2%nat := v2]> {[ 1%nat := k2 ]}]) as Hsecond.
  { apply finditer_from_whole; [done | | done].
    pose proof (match_here_scalar_property k2 v2 [] [] Hk2 Hq2 Hv2) as Hm.
    simpl app in Hm. unfold second. rewrite Hm by done.
    do 2 f_equal. repeat (cbn [length]; rewrite ?length_app). lia. }
  pose proof (match_here_scalar_property k1 v1 [" "] second Hk1 Hq1 Hv1) as Hm1.
  simpl app in Hm1.
  cbn [finditer_from]. rewrite Hm1 by (by repeat constructor).
  replace (length k1 + length v1 + length [" "] + 6 - 1)%nat
    with (length (k1 ++ dq :: " " :: dq :: v1 ++ dq :: ";" :: [" "]))
    by (repeat (cbn [length]; rewrite ?length_app); lia).
  replace (k1 ++ dq :: " " :: dq :: v1 ++ dq :: ";" :: " " :: second)
    with ((k1 ++ dq :: " " :: dq :: v1 ++ dq :: ";" :: [" "]) ++ second)
    by (by repeat (rewrite <- app_assoc || rewrite <- app_comm_cons)).
  rewrite finditer_from_skip, Hsecond.
  cbn [fold_left]. unfold add_property, prop_value, group.
  rewrite !lookup_insert_eq, !lookup_insert_ne, !lookup_singleton_eq by done.
  simpl. by rewrite insert_empty.
Qed.

Lemma fold_add_property_last (after : list groups) (props : gmap str str)
    (key value : str) :
  props !! key = Some value →
  (∀ m, m ∈ after → group m 1 ≠ key) →
  (fold_left add_property after props) !! key = Some value.
Proof.
  revert props. induction after as [|m after IH]; intros props Hk Hafter; [done|].
  simpl. apply IH.
  - unfold add_property. rewrite lookup_insert_ne; [done|].
    apply Hafter. by left.
  - intros m' Hm'. apply Hafter. by right.
Qed.

(** C1, as the code has it. A key written more than once keeps the value of
    its last occurrence: in every property block the value bound to a key is
    that of the last match of the property pattern with this key; for every
    key k and values v1 and v2, the block ['k' 'v1'; 'k' 'v2';] (with double
    quotes) yields the mapping from k to v2, alone and inside a dump. *)
Theorem duplicate_key_last_wins :
  (∀ properties_str before m after,
     finditer prop_pattern properties_str = before ++ m :: after →
     (∀ m', m' ∈ after → group m' 1 ≠ group m 1) →
     parse_properties properties_str !! group m 1 = Some (prop_value m))
  ∧ (∀ k v1 v2,
       k ≠ [] → dq ∉ k → dq ∉ v1 → dq ∉ v2 →
       parse_properties
         (dq :: k ++ dq :: " " :: dq :: v1 ++ dq :: ";" :: " "
             :: dq :: k ++ dq :: " " :: dq :: v2 ++ dq :: ";" :: [])
       = {[ k := v2 ]})
  ∧ parse_properties (quoted "'k' 'v1'; 'k' 'v2';") = {[ py "k" := py "v2" ]}
  ∧ parse_saxdb_nickserv (quoted "'NickServ' { 'alice' { 'k' 'v1'; 'k' 'v2'; }; };")
    = {[ py "alice" := {[ py "k" := py "v2" ]} ]}.
Proof.
  split; [|split; [|split; by_evaluation]].
  - intros properties_str before m after Hms Hafter.
    unfold parse_properties. rewrite Hms, fold_left_app. simpl.
    apply fold_add_property_last; [|done].
    unfold add_property. apply lookup_insert_eq.
  - intros k v1 v2 Hk Hq Hv1 Hv2.
    rewrite parse_properties_two_pairs by done. apply insert_singleton_eq.
Qed.

Lemma duplicate_key_last_wins_witness :
  let first := <[2%nat := py "v1"]> {[ 1%nat := py "k" ]} : groups in
  let last := <[2%nat := py "v2"]> {[ 1%nat := py "k" ]} : groups in
  finditer prop_pattern (quoted "'k' 'v1'; 'k' 'v2';") = [first] ++ last :: []
  ∧ parse_properties (quoted "'k' 'v1'; 'k' 'v2';") !! group last 1
    = Some (prop_value last)
  ∧ parse_properties (quoted "'nick' 'old'; 'nick' 'new';")
    = {[ py "nick" := py "new" ]}.
Proof.
  intros first last.
  assert (finditer prop_pattern (quoted "'k' 'v1'; 'k' 'v2';")
          = [first] ++ last :: []) as Hms by by_evaluation.
  split; [exact Hms|]. split.
  - apply (proj1 duplicate_key_last_wins _ [first] last [] Hms).
    intros m' Hm'. by apply elem_of_nil in Hm'.
  - apply (proj1 (proj2 duplicate_key_last_wins) (py "nick") (py "old") (py "new"));
      [done | by_evaluation..].
Defined.

(** C1, as the claim is worded, fails: the block with the key k twice does
    not yield the mapping from k to v1. *)
Lemma duplicate_key_first_wins_fails :
  parse_properties (quoted "'k' 'v1'; 'k' 'v2';") ≠ {[ py "k" := py "v1" ]}.
Proof.
  by_evaluation.
Qed.

(** * The report generator *)

(** ** [defaultdict(list)] *)

Section DefaultDict.
Context {V : Type}.
Implicit Types (d : list (str * list V)) (k : str) (v : V).

Lemma dd_get_append k k' v d :
  dd_get k' (dd_append k v d)
  = dd_get k' d ++ (if bool_decide (k = k') then [v] else []).
Proof.
  induction d as [|[k0 l] d IH]; simpl.
  - by destruct (bool_decide (k = k')).
  - destruct (decide (k0 = k)) as [-> | H0].
    + rewrite bool_decide_eq_true_2 by done. simpl.
      destruct (bool_decide (k = k')); [done | by rewrite app_nil_r].
    + rewrite (bool_decide_eq_false_2 (k0 = k)) by done. simpl.
      destruct (decide (k0 = k')) as [-> | H1].
      * rewrite bool_decide_eq_true_2 by done.
        rewrite bool_decide_eq_false_2 by done. by rewrite app_nil_r.
      * by rewrite (bool_decide_eq_false_2 (k0 = k')) by done.
Qed.

Lemma dd_keys_append k k' v d :
  k' ∈ (dd_append k v d).*1 ↔ k' = k ∨ k' ∈ d.*1.
Proof.
  induction d as [|[k0 l] d IH]; simpl.
  - rewrite list_elem_of_singleton, elem_of_nil. tauto.
  - case_bool_decide as H0; simpl; rewrite !elem_of_cons.
    + subst k0. tauto.
    + rewrite IH. tauto.
Qed.

Lemma dd_nodup_append k v d : NoDup d.*1 → NoDup (dd_append k v d).*1.
Proof.
  induction d as [|[k0 l] d IH]; simpl; intros Hd.
  - apply NoDup_singleton.
  - apply NoDup_cons in Hd as [Hk0 Hd].
    case_bool_decide as H0; simpl; apply NoDup_cons.
    + by split.
    + split; [|by apply IH]. rewrite dd_keys_append. intros [-> | H]; done.
Qed.

Lemma dd_filled_append k v d :
  Forall (λ kl, kl.2 ≠ []) d → Forall (λ kl, kl.2 ≠ []) (dd_append k v d).
Proof.
  induction d as [|[k0 l] d IH]; simpl; intros Hd.
  - by repeat constructor.
  - apply Forall_cons in Hd as [Hl Hd].
    case_bool_decide; constructor; simpl; auto.
    by destruct l.
Qed.

Lemma dd_get_elem k d l :
  NoDup d.*1 → (k, l) ∈ d → dd_get k d = l.
Proof.
  induction d as [|[k0 l0] d IH]; simpl; intros Hd Hin.
  - by apply elem_of_nil in Hin.
  - apply NoDup_cons in Hd as [Hk0 Hd].
    apply elem_of_cons in Hin as [[= <- <-] | Hin].
    + by rewrite bool_decide_eq_true_2.
    + case_bool_decide as H0; [|by apply IH].
      subst k0. destruct Hk0. apply list_elem_of_fmap. by exists (k, l).
Qed.

Lemma dd_elem_get k d :
  dd_get k d ≠ [] → (k, dd_get k d) ∈ d.
Proof.
  induction d as [|[k0 l0] d IH]; simpl; [done|].
  case_bool_decide as H0.
  - subst k0. intros _. by left.
  - intros H. right. by apply IH.
Qed.

Lemma dd_has_get k d :
  Forall (λ kl, kl.2 ≠ []) d → (dd_has k d = true ↔ dd_get k d ≠ []).
Proof.
  intros Hd. unfold dd_has. rewrite bool_decide_eq_true. split.
  - induction Hd as [|[k0 l0] d Hl _ IH]; simpl; [by intros ?%elem_of_nil|].
    intros [<- | Hin]%elem_of_cons.
    + by rewrite bool_decide_eq_true_2.
    + case_bool_decide; [done | by apply IH].
  - intros H%dd_elem_get. apply list_elem_of_fmap. by exists (k, dd_get k d).
Qed.
End DefaultDict.

(** ** What the work-factor parsers can do *)

Lemma numeral_value_nonneg (digits : str) :
  Forall (λ c, is_digit c = true) digits → 0 <= numeral_value digits.
Proof.
  induction 1 as [|c digits Hc _ IH]; simpl; [lia|].
  assert (0 <= digit_value c).
  { unfold is_digit in Hc. unfold digit_value.
    apply andb_true_iff in Hc as [Hc _]. apply Nat.leb_le in Hc. lia. }
  assert (0 <= 10 ^ Z.of_nat (length digits)) by (apply Z.pow_nonneg; lia).
  nia.
Qed.

(** [int] on a captured numeral: its value, or [ValueError] when the
    numeral has more digits than the interpreter converts. *)
Lemma int_group_outcome (digits : str) :
  is_numeral digits →
  (int_group {[ 1%nat := digits ]} 1 = Returns (Some (numeral_value digits))
   ∧ 0 <= numeral_value digits)
  ∨ (int_group {[ 1%nat := digits ]} 1 = Raises "ValueError"
     ∧ max_str_digits < Z.of_nat (length digits)).
Proof.
  intros Hnum.
  destruct (Z.le_gt_cases (Z.of_nat (length digits)) max_str_digits) as [Hle | Hgt].
  - left. split; [|apply numeral_value_nonneg, Hnum].
    apply int_group_numeral; [apply lookup_singleton_eq | done..].
  - right. split; [|done].
    apply int_group_overlong with digits; [apply lookup_singleton_eq | done].
Qed.

Lemma parse_bcrypt_cost_outcome (s : str) :
  (∃ cost, parse_bcrypt_cost s = Returns cost ∧ ∀ n, cost = Some n → 0 <= n)
  ∨ (parse_bcrypt_cost s = Raises "ValueError"
     ∧ ∃ digits rest, cost_segment s digits rest
                      ∧ max_str_digits < Z.of_nat (length digits)).
Proof.
  unfold parse_bcrypt_cost.
  destruct (re_match bcrypt_cost_re s) as [m|] eqn:Hm;
    [|left; by exists None].
  apply bcrypt_cost_re_sound in Hm as (digits & rest & Hseg & ->).
  destruct (int_group_outcome digits) as [[-> Hpos] | [-> Hlong]];
    [apply Hseg | |].
  - left. eexists. split; [done|]. by intros n [= <-].
  - right. split; [done|]. by exists digits, rest.
Qed.

Lemma parse_pbkdf2_iterations_outcome (s : str) :
  (∃ iters, parse_pbkdf2_iterations s = Returns iters
            ∧ ∀ n, iters = Some n → 0 <= n)
  ∨ (parse_pbkdf2_iterations s = Raises "ValueError"
     ∧ ∃ pre digits post, iterations_segment s pre digits post
                          ∧ max_str_digits < Z.of_nat (length digits)).
Proof.
  unfold parse_pbkdf2_iterations.
  destruct (re_search pbkdf2_iterations_re s) as [m|] eqn:Hm;
    [|left; by exists None].
  apply re_search_sound in Hm as (i & len & Hm).
  apply pbkdf2_iterations_re_sound in Hm as (digits & post & Hseg & ->).
  destruct (int_group_outcome digits) as [[-> Hpos] | [-> Hlong]];
    [apply Hseg | |].
  - left. eexists. split; [done|]. by intros n [= <-].
  - right. split; [done|]. apply iterations_segment_drop in Hseg. eauto.
Qed.

Lemma cost_segment_length (s digits rest : str) :
  cost_segment s digits rest → (length digits ≤ length s)%nat.
Proof.
  intros [[v ->] _]. cbn [length]. rewrite length_app. lia.
Qed.

Lemma iterations_segment_length (s pre digits post : str) :
  iterations_segment s pre digits post → (length digits ≤ length s)%nat.
Proof. intros [-> _]. rewrite !length_app. lia. Qed.

(** ** The tally *)

(** One account: the tally grows by the account and by the work factor
    recorded for it, unless the conversion of the work factor raises. *)
Lemma tally_account_cases (t : tally) (item : account) :
  tally_account t item
  = Returns (Tally (dd_append (algorithm_of item) item (by_algorithm t))
               (match recorded_iterations item with
                | Some n => dd_append (algorithm_of item) n (iterations_stats t)
                | None => iterations_stats t
                end)
               (bcrypt_costs t ++ option_list (recorded_cost item)))
  ∨ (tally_account t item = Raises "ValueError"
     ∧ max_str_digits < Z.of_nat (length (passwd_of item.2))).
Proof.
  destruct item as [name props].
  unfold tally_account, recorded_iterations, recorded_cost, algorithm_of.
  cbn [snd].
  set (passwd := passwd_of props). set (algo := detect_algorithm passwd).
  destruct (startswith algo (py "pbkdf2")) eqn:Hpb.
  - destruct (parse_pbkdf2_iterations_outcome passwd)
      as [(iters & -> & _) | (-> & pre & digits & post & Hseg & Hlong)].
    + left. destruct iters as [n|]; [|by rewrite app_nil_r].
      destruct (n =? 0); by rewrite app_nil_r.
    + right. split; [done|]. apply iterations_segment_length in Hseg. lia.
  - destruct (bool_decide (algo = py "bcrypt")); [|left; by rewrite app_nil_r].
    destruct (parse_bcrypt_cost_outcome passwd)
      as [(cost & -> & _) | (-> & digits & rest & Hseg & Hlong)].
    + left. destruct cost as [n|]; [|by rewrite app_nil_r].
      destruct (n =? 0); [by rewrite app_nil_r | done].
    + right. split; [done|]. apply cost_segment_length in Hseg. lia.
Qed.

Lemma recorded_cost_spec (item : account) (n : Z) :
  recorded_cost item = Some n ↔
  algorithm_of item = py "bcrypt" ∧ 0 < n
  ∧ parse_bcrypt_cost (passwd_of item.2) = Returns (Some n).
Proof.
  unfold recorded_cost.
  destruct (startswith (algorithm_of item) (py "pbkdf2")) eqn:Hpb.
  - split; [done|]. intros (Hb & _). by rewrite Hb in Hpb.
  - case_bool_decide as Hb; [|split; [done | by intros (? & _)]].
    destruct (parse_bcrypt_cost_outcome (passwd_of item.2))
      as [(cost & Hp & Hpos) | (Hp & _)]; rewrite Hp;
      [|split; [done | by intros (_ & _ & ?)]].
    destruct cost as [c|]; [|split; [done | by intros (_ & _ & ?)]].
    specialize (Hpos c eq_refl).
    destruct (c =? 0) eqn:Hc.
    + apply Z.eqb_eq in Hc as ->. split; [done|]. intros (_ & ? & [= <-]). lia.
    + apply Z.eqb_neq in Hc. split.
      * intros [= <-]. repeat split; [done | lia].
      * by intros (_ & _ & [= <-]).
Qed.

Lemma recorded_iterations_spec (item : account) (n : Z) :
  recorded_iterations item = Some n ↔
  (algorithm_of item = py "pbkdf2-sha256" ∨ algorithm_of item = py "pbkdf2-sha512")
  ∧ 0 < n
  ∧ parse_pbkdf2_iterations (passwd_of item.2) = Returns (Some n).
Proof.
  unfold recorded_iterations.
  assert (startswith (algorithm_of item) (py "pbkdf2") = true ↔
          algorithm_of item = py "pbkdf2-sha256"
          ∨ algorithm_of item = py "pbkdf2-sha512") as Htag.
  { unfold algorithm_of, detect_algorithm.
    repeat match goal with
      | |- context [if ?b then _ else _] => destruct b
      end; split; (done || by intros [|]) || (intros _; tauto). }
  destruct (startswith (algorithm_of item) (py "pbkdf2")) eqn:Hpb.
  - destruct (parse_pbkdf2_iterations_outcome (passwd_of item.2))
      as [(iters & Hp & Hpos) | (Hp & _)]; rewrite Hp;
      [|split; [done | by intros (_ & _ & ?)]].
    destruct iters as [c|]; [|split; [done | by intros (_ & _ & ?)]].
    specialize (Hpos c eq_refl).
    destruct (c =? 0) eqn:Hc.
    + apply Z.eqb_eq in Hc as ->. split; [done|]. intros (_ & ? & [= <-]). lia.
    + apply Z.eqb_neq in Hc. split.
      * intros [= <-]. repeat split; [by apply Htag | lia].
      * by intros (_ & _ & [= <-]).
  - split; [done|]. intros (H%Htag & _). done.
Qed.

(** The closed form of the tally: when no conversion raises, the buckets
    and the recorded work factors are read off the accounts in order;
    otherwise the [ValueError] of the first overlong numeral comes out. *)
Lemma tally_accounts_cases (items : list account) (t0 : tally) :
  (∃ t, tally_accounts items t0 = Returns t
    ∧ (∀ algo, dd_get algo (by_algorithm t)
               = dd_get algo (by_algorithm t0)
                 ++ filter (λ item, algorithm_of item = algo) items)
    ∧ (∀ algo, dd_get algo (iterations_stats t)
               = dd_get algo (iterations_stats t0)
                 ++ omap (λ item, if bool_decide (algorithm_of item = algo)
                                  then recorded_iterations item else None) items)
    ∧ bcrypt_costs t = bcrypt_costs t0 ++ omap recorded_cost items
    ∧ (NoDup (by_algorithm t0).*1 → NoDup (by_algorithm t).*1)
    ∧ (NoDup (iterations_stats t0).*1 → NoDup (iterations_stats t).*1)
    ∧ (Forall (λ kl, kl.2 ≠ []) (by_algorithm t0) →
       Forall (λ kl, kl.2 ≠ []) (by_algorithm t))
    ∧ (Forall (λ kl, kl.2 ≠ []) (iterations_stats t0) →
       Forall (λ kl, kl.2 ≠ []) (iterations_stats t)))
  ∨ (tally_accounts items t0 = Raises "ValueError"
     ∧ ∃ item, item ∈ items
               ∧ max_str_digits < Z.of_nat (length (passwd_of item.2))).
Proof.
  revert t0. induction items as [|item items IH]; intros t0.
  - left. exists t0. split; [done|]. repeat split; try done.
    + intros algo. by rewrite filter_nil, app_nil_r.
    + intros algo. by rewrite app_nil_r.
    + by rewrite app_nil_r.
  - cbn [tally_accounts].
    destruct (tally_account_cases t0 item) as [-> | [-> Hlong]];
      [|right; split; [done|]; exists item; split; [by left | done]].
    destruct (IH (Tally (dd_append (algorithm_of item) item (by_algorithm t0))
                    (match recorded_iterations item with
                     | Some n => dd_append (algorithm_of item) n (iterations_stats t0)
                     | None => iterations_stats t0
                     end)
                    (bcrypt_costs t0 ++ option_list (recorded_cost item))))
      as [(t & Ht & Hby & Hit & Hbc & Hnd1 & Hnd2 & Hf1 & Hf2)
         | (Hraise & item' & Hin & Hlong)];
      [|right; split; [done|]; exists item'; split; [by right | done]].
    cbn [by_algorithm iterations_stats bcrypt_costs] in *.
    left. exists t. split; [done|]. repeat split.
    + intros algo. rewrite Hby, dd_get_append, filter_cons, <- app_assoc.
      f_equal. case_bool_decide; by case_decide.
    + intros algo. rewrite Hit. cbn [omap list_omap].
      destruct (recorded_iterations item) as [n|] eqn:Hn.
      * rewrite dd_get_append, <- app_assoc. f_equal.
        by case_bool_decide.
      * by destruct (bool_decide (algorithm_of item = algo)).
    + rewrite Hbc, <- app_assoc. f_equal. cbn [omap list_omap].
      by destruct (recorded_cost item).
    + intros H. by apply Hnd1, dd_nodup_append.
    + intros H. apply Hnd2. destruct (recorded_iterations item); [|done].
      by apply dd_nodup_append.
    + intros H. by apply Hf1, dd_filled_append.
    + intros H. apply Hf2. destruct (recorded_iterations item); [|done].
      by apply dd_filled_append.
Qed.

Lemma generate_report_tally_facts (items : list account) (t : tally) :
  generate_report_tally items = Returns t →
  (∀ algo, dd_get algo (by_algorithm t)
           = filter (λ item, algorithm_of item = algo) items)
  ∧ (∀ algo, dd_get algo (iterations_stats t)
             = omap (λ item, if bool_decide (algorithm_of item = algo)
                             then recorded_iterations item else None) items)
  ∧ bcrypt_costs t = omap recorded_cost items
  ∧ NoDup (by_algorithm t).*1 ∧ NoDup (iterations_stats t).*1
  ∧ Forall (λ kl, kl.2 ≠ []) (by_algorithm t)
  ∧ Forall (λ kl, kl.2 ≠ []) (iterations_stats t).
Proof.
  intros Ht. unfold generate_report_tally in Ht.
  destruct (tally_accounts_cases items empty_tally)
    as [(t' & Ht' & Hby & Hit & Hbc & Hnd1 & Hnd2 & Hf1 & Hf2) | (Hraise & _)];
    [|congruence].
  rewrite Ht' in Ht. injection Ht as <-.
  repeat split; [apply Hby | apply Hit | apply Hbc | | | |].
  - apply Hnd1, NoDup_nil_2.
  - apply Hnd2, NoDup_nil_2.
  - by apply Hf1.
  - by apply Hf2.
Qed.

(** The tally returns when no hash is longer than the longest numeral that
    [int] converts. *)
Lemma generate_report_tally_short (items : list account) :
  Forall (λ item, Z.of_nat (length (passwd_of item.2)) <= max_str_digits) items →
  ∃ t, generate_report_tally items = Returns t.
Proof.
  intros Hshort. unfold generate_report_tally.
  destruct (tally_accounts_cases items empty_tally)
    as [(t & Ht & _) | (_ & item & Hin & Hlong)]; [by exists t|].
  apply (proj1 (Forall_forall _ _) Hshort) in Hin. lia.
Qed.

(** X1. When [generate_report] has tallied the accounts, the bucket of each
    algorithm is the list, in the order of the accounts, of those whose
    [passwd] property (the empty string when there is none) classifies as
    that algorithm.  The tally returns whenever no hash has more than
    [max_str_digits] characters; when it raises, it raises the
    [ValueError] of [int], and some hash is longer than that. *)
Theorem tally_buckets_partition_accounts (items : list account) :
  (∀ t, generate_report_tally items = Returns t →
     ∀ algo, dd_get algo (by_algorithm t)
             = filter (λ item, detect_algorithm (passwd_of item.2) = algo) items)
  ∧ (Forall (λ item, Z.of_nat (length (passwd_of item.2)) <= max_str_digits)
       items →
     ∃ t, generate_report_tally items = Returns t)
  ∧ (∀ exn, generate_report_tally items = Raises exn →
       exn = "ValueError"%string
       ∧ ∃ item, item ∈ items
                 ∧ max_str_digits < Z.of_nat (length (passwd_of item.2))).
Proof.
  split; [|split].
  - intros t Ht. by apply generate_report_tally_facts.
  - apply generate_report_tally_short.
  - intros exn Hexn. unfold generate_report_tally in Hexn.
    destruct (tally_accounts_cases items empty_tally)
      as [(t & Ht & _) | (Hraise & Hitem)]; [congruence|].
    split; [congruence | done].
Qed.

Lemma tally_buckets_partition_accounts_witness :
  let items : list account :=
    [ (py "alice", {[ py "passwd" := py "$2b$12$abcdefghijklmnopqrstuv" ]});
      (py "bob", {[ py "passwd" := py "5f4dcc3b5aa765d61d8327deb882cf99" ]});
      (py "carol", {[ py "passwd" := py "$2y$10$abcdefghijklmnopqrstuv" ]}) ] in
  ∃ t, generate_report_tally items = Returns t
    ∧ dd_get (py "bcrypt") (by_algorithm t)
      = [ (py "alice", {[ py "passwd" := py "$2b$12$abcdefghijklmnopqrstuv" ]});
          (py "carol", {[ py "passwd" := py "$2y$10$abcdefghijklmnopqrstuv" ]}) ].
Proof.
  intros items.
  destruct (proj1 (proj2 (tally_buckets_partition_accounts items)))
    as (t & Ht); [by_evaluation|].
  exists t. split; [exact Ht|].
  rewrite (proj1 (tally_buckets_partition_accounts items) t Ht).
  by_evaluation.
Defined.

(** ** The tags and the order of the text report *)

Lemma detect_algorithm_tag (s : str) : detect_algorithm s ∈ algo_order.
Proof.
  unfold detect_algorithm, algo_order.
  repeat match goal with
    | |- context [if ?b then _ else _] => destruct b
    end; rewrite !elem_of_cons; tauto.
Qed.

Lemma algo_order_nodup : NoDup algo_order.
Proof. by_evaluation. Qed.

Lemma sum_list_with_cons {A : Type} (f : A → nat) (x : A) (l : list A) :
  sum_list_with f (x :: l) = (f x + sum_list_with f l)%nat.
Proof. done. Qed.

Lemma count_tag_fresh {A : Type} (f : A → str) (tags : list str) (x : A) (l : list A) :
  f x ∉ tags →
  sum_list_with (λ tag, length (filter (λ y, f y = tag) (x :: l))) tags
  = sum_list_with (λ tag, length (filter (λ y, f y = tag) l)) tags.
Proof.
  induction tags as [|tag tags IH]; [done|].
  intros [Hne Hx]%not_elem_of_cons.
  rewrite !sum_list_with_cons, IH by done.
  by rewrite filter_cons, decide_False by done.
Qed.

Lemma count_tag_once {A : Type} (f : A → str) (tags : list str) (x : A) (l : list A) :
  NoDup tags → f x ∈ tags →
  sum_list_with (λ tag, length (filter (λ y, f y = tag) (x :: l))) tags
  = S (sum_list_with (λ tag, length (filter (λ y, f y = tag) l)) tags).
Proof.
  induction tags as [|tag tags IH]; [by intros _ ?%elem_of_nil|].
  intros [Htag Hnd]%NoDup_cons Hx. rewrite !sum_list_with_cons.
  destruct (decide (f x = tag)) as [Heq | Hne].
  - rewrite count_tag_fresh by congruence.
    by rewrite filter_cons, decide_True by done.
  - apply elem_of_cons in Hx as [Hx | Hx]; [done|].
    rewrite IH by done.
    rewrite filter_cons, decide_False by done. lia.
Qed.

Lemma count_by_tag {A : Type} (f : A → str) (tags : list str) (l : list A) :
  NoDup tags → (∀ x, x ∈ l → f x ∈ tags) →
  sum_list_with (λ tag, length (filter (λ x, f x = tag) l)) tags = length l.
Proof.
  intros Hnd. induction l as [|x l IH]; intros Hl.
  - clear. induction tags as [|tag tags IH]; [done|].
    by rewrite sum_list_with_cons, IH.
  - rewrite count_tag_once; [| done | apply Hl; by left].
    simpl. f_equal. apply IH. intros y Hy. apply Hl. by right.
Qed.

(** X2. The eight names in the order in which the text report lists the
    algorithms are all the tags there are: every bucket of the tally has one
    of these names, and the sizes of the eight buckets add up to the number
    of accounts. *)
Theorem distribution_covers_accounts (items : list account) (t : tally) :
  generate_report_tally items = Returns t →
  (∀ algo, dd_has algo (by_algorithm t) = true → algo ∈ algo_order)
  ∧ sum_list_with (λ algo, length (dd_get algo (by_algorithm t))) algo_order
    = length items.
Proof.
  intros (Hby & _ & _ & _ & _ & Hfilled & _)%generate_report_tally_facts.
  split.
  - intros algo Hin. apply dd_has_get in Hin; [|done].
    rewrite Hby in Hin.
    destruct (filter _ items) as [|item l] eqn:Hl; [done|].
    assert (item ∈ filter (λ item, algorithm_of item = algo) items) as Hitem
      by (rewrite Hl; by left).
    apply list_elem_of_filter in Hitem as [<- _]. apply detect_algorithm_tag.
  - assert (∀ tags,
              sum_list_with (λ algo, length (dd_get algo (by_algorithm t))) tags
              = sum_list_with
                  (λ tag, length (filter (λ item, algorithm_of item = tag) items))
                  tags) as ->.
    { induction tags as [|tag tags IH]; [done|].
      by rewrite !sum_list_with_cons, Hby, IH. }
    apply count_by_tag; [apply algo_order_nodup|].
    intros item _. apply detect_algorithm_tag.
Qed.

Lemma distribution_covers_accounts_witness :
  let items : list account :=
    [ (py "alice", {[ py "passwd" := py "$2b$12$abcdefghijklmnopqrstuv" ]});
      (py "bob", {[ py "passwd" := py "5f4dcc3b5aa765d61d8327deb882cf99" ]});
      (py "carol", {[ py "email" := py "c@x" ]}) ] in
  ∃ t, generate_report_tally items = Returns t
    ∧ sum_list_with (λ algo, length (dd_get algo (by_algorithm t))) algo_order = 3%nat.
Proof.
  intros items.
  destruct (generate_report_tally_short items) as (t & Ht); [by_evaluation|].
  exists t. split; [exact Ht|].
  apply (proj2 (distribution_covers_accounts items t Ht)).
Defined.

(** ** Recorded work factors *)

(** X3. The recorded bcrypt costs are exactly the costs above 0 read from
    the hashes of the accounts classified as bcrypt: a hash without a cost
    segment and a hash whose cost is 0 leave no trace in the statistics, and
    there are never more recorded costs than bcrypt accounts. *)
Theorem recorded_costs_are_positive_costs (items : list account) (t : tally) :
  generate_report_tally items = Returns t →
  (∀ n, n ∈ bcrypt_costs t ↔
     0 < n ∧ ∃ item, item ∈ items
                     ∧ detect_algorithm (passwd_of item.2) = py "bcrypt"
                     ∧ parse_bcrypt_cost (passwd_of item.2) = Returns (Some n))
  ∧ (length (bcrypt_costs t) ≤ length (dd_get (py "bcrypt") (by_algorithm t)))%nat.
Proof.
  intros (Hby & _ & Hbc & _)%generate_report_tally_facts. split.
  - intros n. rewrite Hbc, list_elem_of_omap. split.
    + intros (item & Hin & (Hb & Hn & Hp)%recorded_cost_spec). eauto.
    + intros (Hn & item & Hin & Hb & Hp). exists item. split; [done|].
      by apply recorded_cost_spec.
  - rewrite Hbc, Hby. clear. induction items as [|item items IH]; [done|].
    rewrite filter_cons. cbn [omap list_omap].
    destruct (recorded_cost item) as [n|] eqn:Hn.
    + apply recorded_cost_spec in Hn as (Hb & _).
      rewrite decide_True by done. cbn [length]. by apply le_n_S.
    + case_decide; cbn [length]; [by apply Nat.le_le_succ_r | done].
Qed.

Lemma recorded_costs_are_positive_costs_witness :
  let items : list account :=
    [ (py "alice", {[ py "passwd" := py "$2b$12$abcdefghijklmnopqrstuv" ]});
      (py "zero", {[ py "passwd" := py "$2a$00$abcdefghijklmnopqrstuv" ]});
      (py "bare", {[ py "passwd" := py "$2y$" ]}) ] in
  ∃ t, generate_report_tally items = Returns t
    ∧ (12 ∈ bcrypt_costs t) ∧ (0 ∉ bcrypt_costs t).
Proof.
  intros items.
  destruct (generate_report_tally_short items) as (t & Ht); [by_evaluation|].
  exists t. split; [exact Ht|].
  pose proof (proj1 (recorded_costs_are_positive_costs items t Ht)) as H.
  split.
  - apply H. split; [done|]. eexists. split; [by left|].
    split; [by_evaluation | vm_compute; reflexivity].
  - intros [H0 _]%H. by apply Z.lt_irrefl in H0.
Defined.

(** X4. The iteration counts recorded under an algorithm are exactly the
    counts above 0 read from the hashes of the accounts classified as that
    algorithm, which is then one of the two PBKDF2 tags; the statistics have
    no entry with an empty list. *)
Theorem recorded_iterations_are_positive_counts
    (items : list account) (t : tally) :
  generate_report_tally items = Returns t →
  (∀ algo n, n ∈ dd_get algo (iterations_stats t) ↔
     (algo = py "pbkdf2-sha256" ∨ algo = py "pbkdf2-sha512") ∧ 0 < n
     ∧ ∃ item, item ∈ items
               ∧ detect_algorithm (passwd_of item.2) = algo
               ∧ parse_pbkdf2_iterations (passwd_of item.2) = Returns (Some n))
  ∧ (∀ algo iters, (algo, iters) ∈ iterations_stats t → iters ≠ []).
Proof.
  intros (_ & Hit & _ & _ & _ & _ & Hfilled)%generate_report_tally_facts. split.
  - intros algo n. rewrite Hit, list_elem_of_omap. split.
    + intros (item & Hin & Hrec). case_bool_decide as Ha; [|done].
      apply recorded_iterations_spec in Hrec as (Htag & Hn & Hp).
      rewrite Ha in Htag. eauto 10.
    + intros (Htag & Hn & item & Hin & Ha & Hp). exists item. split; [done|].
      rewrite bool_decide_eq_true_2 by done.
      apply recorded_iterations_spec. unfold algorithm_of. rewrite Ha. eauto.
  - intros algo iters Hin.
    by apply (proj1 (Forall_forall _ _) Hfilled (algo, iters)).
Qed.

Lemma recorded_iterations_are_positive_counts_witness :
  let items : list account :=
    [ (py "alice", {[ py "passwd" := py "$pbkdf2-sha256$i=29000$abc$def" ]});
      (py "zero", {[ py "passwd" := py "$pbkdf2-sha256$i=0$abc$def" ]}) ] in
  ∃ t, generate_report_tally items = Returns t
    ∧ (29000 ∈ dd_get (py "pbkdf2-sha256") (iterations_stats t))
    ∧ (0 ∉ dd_get (py "pbkdf2-sha256") (iterations_stats t)).
Proof.
  intros items.
  destruct (generate_report_tally_short items) as (t & Ht); [by_evaluation|].
  exists t. split; [exact Ht|].
  pose proof (proj1 (recorded_iterations_are_positive_counts items t Ht)) as H.
  split.
  - apply H. split; [by left|]. split; [done|].
    eexists. split; [by left|].
    split; [by_evaluation | vm_compute; reflexivity].
  - intros (_ & H0 & _)%H. by apply Z.lt_irrefl in H0.
Defined.

(** ** Integer statistics *)

Lemma foldl_min_spec (x : Z) (rest : list Z) :
  foldl Z.min x rest ∈ x :: rest
  ∧ Forall (λ y, foldl Z.min x rest <= y) (x :: rest).
Proof.
  revert x. induction rest as [|z rest IH]; intros x; simpl.
  - split; [by left | repeat constructor; lia].
  - destruct (IH (Z.min x z)) as [Hin Hall].
    apply Forall_cons in Hall as [Hm Hall]. split.
    + apply elem_of_cons in Hin as [Hin | Hin]; [|by do 2 right].
      rewrite Hin. destruct (Z.min_spec x z) as [[_ ->] | [_ ->]];
        [by left | right; by left].
    + repeat constructor; [lia | lia | done].
Qed.

Lemma foldl_max_spec (x : Z) (rest : list Z) :
  foldl Z.max x rest ∈ x :: rest
  ∧ Forall (λ y, y <= foldl Z.max x rest) (x :: rest).
Proof.
  revert x. induction rest as [|z rest IH]; intros x; simpl.
  - split; [by left | repeat constructor; lia].
  - destruct (IH (Z.max x z)) as [Hin Hall].
    apply Forall_cons in Hall as [Hm Hall]. split.
    + apply elem_of_cons in Hin as [Hin | Hin]; [|by do 2 right].
      rewrite Hin. destruct (Z.max_spec x z) as [[_ ->] | [_ ->]];
        [right; by left | by left].
    + repeat constructor; [lia | lia | done].
Qed.

Lemma sum_Z_bounds (lo hi : Z) (l : list Z) (acc : Z) :
  Forall (λ y, lo <= y <= hi) l →
  acc + lo * Z.of_nat (length l) <= foldl Z.add acc l
  <= acc + hi * Z.of_nat (length l).
Proof.
  intros Hl. revert acc. induction Hl as [|y l Hy _ IH]; intros acc; simpl.
  - lia.
  - specialize (IH (acc + y)). lia.
Qed.

(** X5. For every non-empty list of work factors, the minimum and the
    maximum that the reports print are members of the list that bound all
    of it, and the printed average (the sum floor-divided by the length)
    lies between them. *)
Theorem work_stats_are_consistent (x : Z) (rest : list Z) :
  let '(low, high, avg) := work_stats x rest in
  low ∈ x :: rest ∧ high ∈ x :: rest
  ∧ Forall (λ y, low <= y <= high) (x :: rest)
  ∧ low <= avg <= high.
Proof.
  unfold work_stats.
  destruct (foldl_min_spec x rest) as [Hlo Hlo'].
  destruct (foldl_max_spec x rest) as [Hhi Hhi'].
  set (low := foldl Z.min x rest) in *. set (high := foldl Z.max x rest) in *.
  assert (Forall (λ y, low <= y <= high) (x :: rest)) as Hall.
  { apply Forall_forall. intros y Hy. split.
    - by apply (proj1 (Forall_forall _ _) Hlo').
    - by apply (proj1 (Forall_forall _ _) Hhi'). }
  pose proof (sum_Z_bounds low high (x :: rest) 0 Hall) as Hsum.
  fold (sum_Z (x :: rest)) in Hsum.
  assert (0 < Z.of_nat (length (x :: rest))) as Hlen by (cbn [length]; lia).
  repeat split; try done.
  - apply Z.div_le_lower_bound; [done | lia].
  - apply Z.div_le_upper_bound; [done | lia].
Qed.

(** ** [report["algorithms"]] *)

Section JsonFacts.
Context {P : Type} (percentage : nat → nat → P).
Implicit Types (table : gmap str (algo_entry P)).

Lemma json_counts_lookup (n : nat) (by_algo : list (str * list account))
    (algo : str) :
  NoDup by_algo.*1 →
  json_counts percentage n by_algo !! algo
  = if dd_has algo by_algo
    then Some (AlgoEntry (length (dd_get algo by_algo))
                 (percentage (length (dd_get algo by_algo)) n) None None)
    else None.
Proof.
  unfold json_counts, dd_has.
  assert (∀ table,
            NoDup by_algo.*1 →
            (fold_left
               (λ table '(algo, accts),
                  <[algo := AlgoEntry (length accts)
                              (percentage (length accts) n) None None]> table)
               by_algo table) !! algo
            = if bool_decide (algo ∈ by_algo.*1)
              then Some (AlgoEntry (length (dd_get algo by_algo))
                           (percentage (length (dd_get algo by_algo)) n)
                           None None)
              else table !! algo) as Hfold.
  { induction by_algo as [|[k l] d IH]; intros table Hnd; [done|].
    apply NoDup_cons in Hnd as [Hk Hnd]. cbn [fold_left fmap list_fmap fst].
    rewrite IH by done. cbn [dd_get].
    destruct (decide (k = algo)) as [-> | Hne].
    - rewrite (bool_decide_eq_true_2 (algo = algo)) by done.
      rewrite (bool_decide_eq_false_2 (algo ∈ d.*1)) by done.
      rewrite (bool_decide_eq_true_2 (algo ∈ algo :: d.*1)) by (by left).
      apply lookup_insert_eq.
    - rewrite (bool_decide_eq_false_2 (k = algo)) by done.
      destruct (decide (algo ∈ d.*1)) as [Hin | Hnin].
      + rewrite !bool_decide_eq_true_2; [done | by right | done].
      + rewrite !bool_decide_eq_false_2; [by rewrite lookup_insert_ne | | done].
        intros [-> | H]%elem_of_cons; done. }
  intros Hnd. rewrite Hfold by done. by rewrite lookup_empty.
Qed.

Lemma json_iterations_spec (table : gmap str (algo_entry P))
    (stats : list (str * list Z)) :
  NoDup stats.*1 →
  (∀ algo, dd_get algo stats ≠ [] → is_Some (table !! algo)) →
  ∃ table', json_iterations table stats = Returns table'
    ∧ ∀ algo, table' !! algo
              = (λ e, AlgoEntry (entry_count e) (entry_percentage e)
                        (match dd_get algo stats with
                         | [] => entry_iterations e
                         | x :: rest => Some (work_stats x rest)
                         end)
                        (entry_cost e)) <$> table !! algo.
Proof.
  revert table. induction stats as [|[k iters] stats IH]; intros table Hnd Hkeys.
  - exists table. split; [done|]. intros algo. cbn [dd_get].
    destruct (table !! algo) as [[? ? ? ?]|]; done.
  - apply NoDup_cons in Hnd as [Hk Hnd]. cbn [json_iterations json_add_iterations].
    assert (dd_get k stats = []) as Hfresh.
    { destruct (dd_get k stats) eqn:Hg; [done|].
      destruct Hk. apply list_elem_of_fmap. exists (k, dd_get k stats).
      split; [done|]. apply dd_elem_get. by rewrite Hg. }
    destruct iters as [|x rest].
    + destruct (IH table Hnd) as (table' & Hrun & Hlook).
      { intros algo Hne. apply Hkeys. cbn [dd_get].
        case_bool_decide; [congruence | done]. }
      exists table'. split; [done|]. intros algo. rewrite Hlook. cbn [dd_get].
      case_bool_decide as Ha; [|done]. subst k. by rewrite Hfresh.
    + destruct (Hkeys k) as [e He].
      { cbn [dd_get]. by rewrite bool_decide_eq_true_2. }
      rewrite He.
      destruct (IH (<[k := AlgoEntry (entry_count e) (entry_percentage e)
                            (Some (work_stats x rest)) (entry_cost e)]> table) Hnd)
        as (table' & Hrun & Hlook).
      { intros algo Hne. destruct (decide (k = algo)) as [-> | Hka].
        - rewrite lookup_insert_eq. eauto.
        - rewrite lookup_insert_ne by done. apply Hkeys. cbn [dd_get].
          by rewrite bool_decide_eq_false_2. }
      exists table'. split; [done|]. intros algo. rewrite Hlook. cbn [dd_get].
      destruct (decide (k = algo)) as [-> | Hka].
      * rewrite bool_decide_eq_true_2 by done.
        rewrite lookup_insert_eq, He, Hfresh. done.
      * rewrite bool_decide_eq_false_2 by done.
        by rewrite lookup_insert_ne.
Qed.

(** X6. On the tally of [generate_report], building [report["algorithms"]]
    never raises [KeyError]: every algorithm with recorded work factors has
    its bucket.  The entry of an algorithm holds the size of its bucket,
    the statistics of its recorded iteration counts when there are any, and
    for bcrypt the statistics of the recorded costs when there are any. *)
Theorem json_algorithms_never_misses_a_key
    (items : list account) (t : tally) (n_accounts : nat) :
  generate_report_tally items = Returns t →
  ∃ table, json_algorithms percentage n_accounts t = Returns table
    ∧ ∀ algo,
        table !! algo
        = if dd_has algo (by_algorithm t)
          then Some (AlgoEntry
                       (length (dd_get algo (by_algorithm t)))
                       (percentage (length (dd_get algo (by_algorithm t)))
                          n_accounts)
                       (match dd_get algo (iterations_stats t) with
                        | [] => None
                        | x :: rest => Some (work_stats x rest)
                        end)
                       (if bool_decide (algo = py "bcrypt")
                        then match bcrypt_costs t with
                             | [] => None
                             | x :: rest => Some (work_stats x rest)
                             end
                        else None))
          else None.
Proof.
  intros (Hby & Hit & Hbc & Hnd1 & Hnd2 & Hf1 & Hf2)%generate_report_tally_facts.
  unfold json_algorithms.
  assert (∀ algo item, item ∈ items → algorithm_of item = algo →
            dd_has algo (by_algorithm t) = true) as Hbucket.
  { intros algo item Hin Ha. apply dd_has_get; [done|]. rewrite Hby.
    intros Hnil.
    assert (item ∈ filter (λ item, algorithm_of item = algo) items) as H
      by by apply list_elem_of_filter.
    rewrite Hnil in H. by apply elem_of_nil in H. }
  destruct (json_iterations_spec (json_counts percentage n_accounts (by_algorithm t))
              (iterations_stats t) Hnd2) as (table1 & -> & Hlook1).
  { intros algo Hne. rewrite json_counts_lookup by done.
    destruct (dd_get algo (iterations_stats t)) as [|n rest] eqn:Hg; [done|].
    assert (n ∈ dd_get algo (iterations_stats t)) as Hn by (rewrite Hg; by left).
    rewrite Hit in Hn. apply list_elem_of_omap in Hn as (item & Hin & Hrec).
    case_bool_decide as Ha; [|done].
    rewrite (Hbucket algo item) by done. eauto. }
  unfold json_add_cost.
  destruct (bcrypt_costs t) as [|c costs] eqn:Hc.
  - exists table1. split; [done|]. intros algo.
    rewrite Hlook1, json_counts_lookup by done.
    destruct (dd_has algo (by_algorithm t)); [|done]. cbn.
    by case_bool_decide.
  - assert (dd_has (py "bcrypt") (by_algorithm t) = true) as Hb.
    { assert (c ∈ omap recorded_cost items) as Hin by (rewrite <- Hbc; by left).
      apply list_elem_of_omap in Hin as (item & Hin & (Hb & _)%recorded_cost_spec).
      by apply (Hbucket _ item). }
    assert (is_Some (table1 !! py "bcrypt")) as [e He].
    { rewrite Hlook1, json_counts_lookup, Hb by done. cbn. eauto. }
    rewrite He. eexists. split; [done|]. intros algo.
    destruct (decide (algo = py "bcrypt")) as [-> | Hne].
    + rewrite lookup_insert_eq, Hb, bool_decide_eq_true_2 by done.
      rewrite Hlook1, json_counts_lookup, Hb in He by done.
      cbn in He. injection He as <-. done.
    + rewrite lookup_insert_ne, bool_decide_eq_false_2 by done.
      rewrite Hlook1, json_counts_lookup by done.
      by destruct (dd_has algo (by_algorithm t)).
Qed.
End JsonFacts.

Lemma json_algorithms_never_misses_a_key_witness :
  let items : list account :=
    [ (py "alice", {[ py "passwd" := py "$2b$12$abcdefghijklmnopqrstuv" ]});
      (py "bob", {[ py "passwd" := py "$pbkdf2-sha256$i=29000$abc$def" ]}) ] in
  ∃ t table,
    generate_report_tally items = Returns t
    ∧ json_algorithms (λ _ _, tt) 2 t = Returns table
    ∧ entry_cost <$> table !! py "bcrypt" = Some (Some (12, 12, 12)).
Proof.
  intros items.
  destruct (generate_report_tally_short items) as (t & Ht); [by_evaluation|].
  destruct (json_algorithms_never_misses_a_key (λ _ _, tt) items t 2 Ht)
    as (table & Hrun & Hlook).
  exists t, table. split; [exact Ht|]. split; [exact Hrun|].
  rewrite Hlook.
  assert (t = Tally
                [(py "bcrypt", [(py "alice", {[ py "passwd" := py "$2b$12$abcdefghijklmnopqrstuv" ]})]);
                 (py "pbkdf2-sha256", [(py "bob", {[ py "passwd" := py "$pbkdf2-sha256$i=29000$abc$def" ]})])]
                [(py "pbkdf2-sha256", [29000])] [12]) as ->.
  { assert (generate_report_tally items = Returns (Tally
                [(py "bcrypt", [(py "alice", {[ py "passwd" := py "$2b$12$abcdefghijklmnopqrstuv" ]})]);
                 (py "pbkdf2-sha256", [(py "bob", {[ py "passwd" := py "$pbkdf2-sha256$i=29000$abc$def" ]})])]
                [(py "pbkdf2-sha256", [29000])] [12])) as Hrun'
      by (vm_compute; reflexivity).
    rewrite Hrun' in Ht. by injection Ht as <-. }
  vm_compute. reflexivity.
Defined.

(** ** The recommendations *)

Lemma str_int_inj (m n : Z) : str_int m = str_int n → m = n.
Proof.
  unfold str_int, py. intros H.
  apply (f_equal string_of_list_ascii) in H.
  rewrite !string_of_list_ascii_of_string in H. by apply (inj pretty).
Qed.

Lemma line_action_inj (m n : Z) : line_action m = line_action n → m = n.
Proof.
  unfold line_action. intros H. apply app_inv_head, app_inv_tail in H.
  by apply str_int_inj.
Qed.

(** The first characters tell the kinds of lines apart. *)
Ltac line_prefix n H :=
  apply (f_equal (take n)) in H;
  cbv [take app py list_ascii_of_string line_ok line_action line_action_more
       line_info line_info_more line_warn_iterations line_warn_iterations_more
       line_warn_cost line_warn_cost_more] in H.

Ltac line_clash :=
  match goal with
  | H : @eq str _ _ |- _ => solve [ line_prefix 12%nat H; discriminate H ]
  end.

Lemma or_iff_both (A A' B B' : Prop) : (A ↔ A') → (B ↔ B') → (A ∨ B ↔ A' ∨ B').
Proof. tauto. Qed.

Lemma length_filter_zero {A : Type} (Q : A → Prop) `{!∀ x, Decision (Q x)}
    (l : list A) :
  length (filter Q l) = 0%nat ↔ ∀ x, x ∈ l → ¬ Q x.
Proof.
  rewrite length_zero_iff_nil. split.
  - intros Hnil x Hin HQ.
    assert (x ∈ filter Q l) as Hx by by apply list_elem_of_filter.
    rewrite Hnil in Hx. by apply elem_of_nil in Hx.
  - intros Hall. destruct (filter Q l) as [|x l'] eqn:Hl; [done|].
    assert (x ∈ filter Q l) as [HQ Hin]%list_elem_of_filter
      by (rewrite Hl; by left).
    by destruct (Hall x Hin).
Qed.

Lemma recommendation_lines_elem (n_accounts : nat) (t : tally) (line : str) :
  line ∈ recommendation_lines n_accounts t ↔
  let legacy_count :=
    (length (dd_get (py "md5-seeded") (by_algorithm t))
     + length (dd_get (py "md5-plain") (by_algorithm t)))%nat in
  let modern_count :=
    (length (dd_get (py "pbkdf2-sha256") (by_algorithm t))
     + length (dd_get (py "pbkdf2-sha512") (by_algorithm t))
     + length (dd_get (py "bcrypt") (by_algorithm t)))%nat in
  ((legacy_count = 0%nat ∧ (0 < n_accounts)%nat ∧ line = line_ok)
   ∨ (¬ (legacy_count = 0%nat ∧ (0 < n_accounts)%nat)
      ∧ ((0 < legacy_count)%nat
         ∧ (line = line_action (Z.of_nat legacy_count) ∨ line = line_action_more)
         ∨ modern_count = 0%nat ∧ (line = line_info ∨ line = line_info_more))))
  ∨ (∃ algo x rest,
       (algo, x :: rest) ∈ iterations_stats t ∧ lowest x rest < 100000
       ∧ (line = line_warn_iterations algo (lowest x rest)
          ∨ line = line_warn_iterations_more))
  ∨ (∃ x rest,
       bcrypt_costs t = x :: rest ∧ lowest x rest < 10
       ∧ (line = line_warn_cost (lowest x rest) ∨ line = line_warn_cost_more)).
Proof.
  unfold recommendation_lines. cbv zeta.
  set (legacy_count := (length (dd_get (py "md5-seeded") (by_algorithm t))
                        + length (dd_get (py "md5-plain") (by_algorithm t)))%nat).
  set (modern_count := (length (dd_get (py "pbkdf2-sha256") (by_algorithm t))
                        + length (dd_get (py "pbkdf2-sha512") (by_algorithm t))
                        + length (dd_get (py "bcrypt") (by_algorithm t)))%nat).
  rewrite !elem_of_app.
  apply or_iff_both.
  - destruct (decide (legacy_count = 0%nat ∧ (0 < n_accounts)%nat)) as [[H1 H2] | Hno].
    + rewrite (proj2 (Nat.eqb_eq _ _) H1), (proj2 (Nat.ltb_lt _ _) H2). simpl.
      rewrite list_elem_of_singleton. tauto.
    + assert ((legacy_count =? 0)%nat && (0 <? n_accounts)%nat = false) as ->.
      { apply andb_false_iff. destruct (Nat.eqb_spec legacy_count 0); [|by left].
        right. apply Nat.ltb_ge. lia. }
      rewrite elem_of_app.
      destruct (Nat.ltb_spec 0 legacy_count), (Nat.eqb_spec modern_count 0);
        rewrite ?elem_of_cons, ?elem_of_nil; intuition lia.
  - apply or_iff_both.
    + rewrite list_elem_of_In, in_flat_map. split.
      * intros ([algo iters] & Hin%list_elem_of_In & Hline%list_elem_of_In).
        destruct iters as [|x rest]; [by apply elem_of_nil in Hline|].
        destruct (Z.ltb_spec (lowest x rest) 100000);
          [|by apply elem_of_nil in Hline].
        exists algo, x, rest. split; [done|]. split; [done|].
        rewrite !elem_of_cons, elem_of_nil in Hline. tauto.
      * intros (algo & x & rest & Hin & Hlow & Hline).
        exists (algo, x :: rest). split; [by apply list_elem_of_In|].
        apply list_elem_of_In. rewrite (proj2 (Z.ltb_lt _ _) Hlow).
        rewrite !elem_of_cons. tauto.
    + destruct (bcrypt_costs t) as [|x rest].
      * rewrite elem_of_nil. split; [done|]. by intros (? & ? & ? & _).
      * destruct (Z.ltb_spec (lowest x rest) 10).
        -- rewrite !elem_of_cons, elem_of_nil. split.
           ++ intros Hline. exists x, rest. tauto.
           ++ intros (? & ? & [= <- <-] & _ & Hline). tauto.
        -- rewrite elem_of_nil. split; [done|].
           intros (? & ? & [= <- <-] & ? & _). lia.
Qed.

Lemma legacy_count_zero (items : list account) (t : tally) :
  generate_report_tally items = Returns t →
  (length (dd_get (py "md5-seeded") (by_algorithm t))
   + length (dd_get (py "md5-plain") (by_algorithm t)) = 0)%nat
  ↔ ∀ item, item ∈ items →
      algorithm_of item ≠ py "md5-seeded" ∧ algorithm_of item ≠ py "md5-plain".
Proof.
  intros (Hby & _)%generate_report_tally_facts. rewrite !Hby.
  rewrite Nat.eq_add_0, !length_filter_zero. split.
  - intros [H1 H2] item Hin. split; [by apply H1 | by apply H2].
  - intros H. split; intros item Hin; by apply H.
Qed.

(** X7. The text report prints [[OK] All accounts using modern password
    hashing!] exactly when there is at least one account and no account is
    classified as md5-seeded or md5-plain; accounts with unknown or empty
    hashes do not prevent it. *)
Theorem ok_line_iff_no_legacy_account (items : list account) (t : tally) :
  generate_report_tally items = Returns t →
  (line_ok ∈ recommendation_lines (length items) t ↔
   items ≠ []
   ∧ ∀ item, item ∈ items →
       detect_algorithm (passwd_of item.2) ≠ py "md5-seeded"
       ∧ detect_algorithm (passwd_of item.2) ≠ py "md5-plain").
Proof.
  intros Ht. rewrite recommendation_lines_elem. cbv zeta.
  rewrite (legacy_count_zero items t Ht). split.
  - intros [[(Hlegacy & Hn & _) | (_ & [(_ & [H | H]) | (_ & [H | H])])]
           | [(algo & x & rest & _ & _ & [H | H])
             | (x & rest & _ & _ & [H | H])]]; try line_clash.
    split; [|done]. intros ->. simpl in Hn. lia.
  - intros [Hne Hlegacy]. left. left. split; [done|]. split; [|done].
    destruct items; [done | simpl; lia].
Qed.

Lemma ok_line_iff_no_legacy_account_witness :
  let items : list account :=
    [ (py "alice", {[ py "passwd" := py "not-a-real-hash" ]});
      (py "bob", {[ py "email" := py "b@x" ]}) ] in
  ∃ t, generate_report_tally items = Returns t
    ∧ line_ok ∈ recommendation_lines (length items) t.
Proof.
  intros items.
  destruct (generate_report_tally_short items) as (t & Ht); [by_evaluation|].
  exists t. split; [exact Ht|].
  apply (ok_line_iff_no_legacy_account items t Ht).
  split; [done|]. intros item Hin. subst items.
  rewrite !elem_of_cons, elem_of_nil in Hin.
  destruct Hin as [-> | [-> | []]]; split; by_evaluation.
Defined.

(** X8. The text report prints the line [[ACTION] n accounts need migration
    from legacy MD5] for exactly one number n: the number of accounts
    classified as md5-seeded or md5-plain, and only when that number is not
    0; it never prints it together with the [OK] line. *)
Theorem action_line_counts_legacy_accounts
    (items : list account) (t : tally) (n : Z) :
  generate_report_tally items = Returns t →
  (line_action n ∈ recommendation_lines (length items) t ↔
   0 < n
   ∧ n = Z.of_nat
           (length (filter (λ item, detect_algorithm (passwd_of item.2)
                                    = py "md5-seeded") items)
            + length (filter (λ item, detect_algorithm (passwd_of item.2)
                                      = py "md5-plain") items)))
  ∧ (line_action n ∈ recommendation_lines (length items) t →
     line_ok ∉ recommendation_lines (length items) t).
Proof.
  intros Ht. pose proof Ht as (Hby & _)%generate_report_tally_facts.
  assert (line_action n ∈ recommendation_lines (length items) t ↔
          0 < n
          ∧ n = Z.of_nat
                  (length (filter (λ item, algorithm_of item = py "md5-seeded") items)
                   + length (filter (λ item, algorithm_of item = py "md5-plain") items)))
    as Hiff.
  { rewrite recommendation_lines_elem. cbv zeta. rewrite !Hby. split.
    - intros [[(_ & _ & H) | (_ & [(Hpos & [H | H]) | (_ & [H | H])])]
             | [(algo & x & rest & _ & _ & [H | H])
               | (x & rest & _ & _ & [H | H])]]; try line_clash.
      apply line_action_inj in H as ->. split; [lia | done].
    - intros [Hpos ->]. left. right. split; [lia|]. left. split; [lia | by left]. }
  split; [exact Hiff|].
  intros [Hpos Hn]%Hiff Hok.
  apply recommendation_lines_elem in Hok. cbv zeta in Hok. rewrite !Hby in Hok.
  destruct Hok as [[(Hzero & _ & _) | (_ & [(_ & [H | H]) | (_ & [H | H])])]
                  | [(algo & x & rest & _ & _ & [H | H])
                    | (x & rest & _ & _ & [H | H])]]; try line_clash.
  lia.
Qed.

Lemma action_line_counts_legacy_accounts_witness :
  let items : list account :=
    [ (py "alice", {[ py "passwd" := py "5f4dcc3b5aa765d61d8327deb882cf99" ]});
      (py "bob", {[ py "passwd" := py "$2b$12$abcdefghijklmnopqrstuv" ]}) ] in
  ∃ t, generate_report_tally items = Returns t
    ∧ (line_action 1 ∈ recommendation_lines (length items) t)
    ∧ (line_ok ∉ recommendation_lines (length items) t).
Proof.
  intros items.
  destruct (generate_report_tally_short items) as (t & Ht); [by_evaluation|].
  exists t. split; [exact Ht|].
  assert (line_action 1 ∈ recommendation_lines (length items) t) as Hin.
  { apply (proj1 (action_line_counts_legacy_accounts items t 1 Ht)).
    split; [done | by_evaluation]. }
  split; [exact Hin|].
  exact (proj2 (action_line_counts_legacy_accounts items t 1 Ht) Hin).
Defined.

(** The two follow-up lines of the warnings differ only after the word
    [password_]. *)
Ltac line_clash_far :=
  match goal with
  | H : @eq str _ _ |- _ => solve [ line_prefix 45%nat H; discriminate H ]
  end.

Lemma lowest_spec (x : Z) (rest : list Z) :
  lowest x rest ∈ x :: rest ∧ ∀ y, y ∈ x :: rest → lowest x rest <= y.
Proof.
  destruct (foldl_min_spec x rest) as [Hin Hall]. split; [done|].
  intros y Hy. by apply (proj1 (Forall_forall _ _) Hall).
Qed.

(** X9. The text report advises to increase [password_pbkdf2_iterations]
    exactly when some account classified as PBKDF2 has a hash whose
    iteration count is above 0 and below 100000; the warning printed for
    the algorithm of such an account then quotes a count that is above 0 and
    not above that account's. *)
Theorem low_iteration_warning_iff_low_count (items : list account) (t : tally) :
  generate_report_tally items = Returns t →
  (line_warn_iterations_more ∈ recommendation_lines (length items) t ↔
   ∃ item n, item ∈ items
     ∧ startswith (detect_algorithm (passwd_of item.2)) (py "pbkdf2") = true
     ∧ parse_pbkdf2_iterations (passwd_of item.2) = Returns (Some n)
     ∧ 0 < n < 100000)
  ∧ (∀ item n, item ∈ items →
       startswith (detect_algorithm (passwd_of item.2)) (py "pbkdf2") = true →
       parse_pbkdf2_iterations (passwd_of item.2) = Returns (Some n) →
       0 < n < 100000 →
       ∃ m, 0 < m <= n
         ∧ line_warn_iterations (detect_algorithm (passwd_of item.2)) m
             ∈ recommendation_lines (length items) t).
Proof.
  intros Ht.
  pose proof Ht as (_ & Hit & _ & _ & Hnd & _)%generate_report_tally_facts.
  assert (∀ item n, item ∈ items →
            startswith (algorithm_of item) (py "pbkdf2") = true →
            parse_pbkdf2_iterations (passwd_of item.2) = Returns (Some n) →
            0 < n < 100000 →
            ∃ x rest, (algorithm_of item, x :: rest) ∈ iterations_stats t
              ∧ 0 < lowest x rest <= n) as Hlow.
  { intros item n Hin Hpb Hp Hn.
    assert (recorded_iterations item = Some n) as Hrec.
    { unfold recorded_iterations. rewrite Hpb, Hp.
      destruct (n =? 0) eqn:H0; [apply Z.eqb_eq in H0; lia | done]. }
    assert (n ∈ dd_get (algorithm_of item) (iterations_stats t)) as Hmem.
    { rewrite Hit. apply list_elem_of_omap. exists item. split; [done|].
      by rewrite bool_decide_eq_true_2. }
    destruct (dd_get (algorithm_of item) (iterations_stats t))
      as [|x rest] eqn:Hget; [by apply elem_of_nil in Hmem|].
    exists x, rest. split.
    - rewrite <- Hget. apply dd_elem_get. by rewrite Hget.
    - destruct (lowest_spec x rest) as [Hmin Hle]. split; [|by apply Hle].
      rewrite <- Hget, Hit in Hmin.
      apply list_elem_of_omap in Hmin as (item' & _ & Hrec').
      case_bool_decide; [|done].
      by apply recorded_iterations_spec in Hrec' as (_ & ? & _). }
  split.
  - rewrite recommendation_lines_elem. cbv zeta. split.
    + intros [[(_ & _ & H) | (_ & [(_ & [H | H]) | (_ & [H | H])])]
             | [(algo & x & rest & Hin & Hlt & _)
               | (x & rest & _ & _ & [H | H])]];
        try line_clash; try line_clash_far.
      destruct (lowest_spec x rest) as [Hmin _].
      rewrite <- (dd_get_elem _ _ _ Hnd Hin), Hit in Hmin.
      apply list_elem_of_omap in Hmin as (item & Hitem & Hrec).
      case_bool_decide as Ha; [|done].
      pose proof Hrec as (Htag & Hpos & Hp)%recorded_iterations_spec.
      exists item, (lowest x rest). repeat split; try done.
      fold (algorithm_of item). by destruct Htag as [-> | ->].
    + intros (item & n & Hin & Hpb & Hp & Hn).
      destruct (Hlow item n Hin Hpb Hp Hn) as (x & rest & Hstat & Hle).
      right. left. exists (algorithm_of item), x, rest.
      split; [done|]. split; [lia | by right].
  - intros item n Hin Hpb Hp Hn.
    destruct (Hlow item n Hin Hpb Hp Hn) as (x & rest & Hstat & Hle).
    exists (lowest x rest). split; [done|].
    apply recommendation_lines_elem. cbv zeta.
    right. left. exists (algorithm_of item), x, rest.
    split; [done|]. split; [lia | by left].
Qed.

Lemma low_iteration_warning_iff_low_count_witness :
  let items : list account :=
    [ (py "alice", {[ py "passwd" := py "$pbkdf2-sha256$i=29000$abc$def" ]});
      (py "bob", {[ py "passwd" := py "$pbkdf2-sha256$i=310000$abc$def" ]}) ] in
  ∃ t, generate_report_tally items = Returns t
    ∧ line_warn_iterations_more ∈ recommendation_lines (length items) t.
Proof.
  intros items.
  destruct (generate_report_tally_short items) as (t & Ht); [by_evaluation|].
  exists t. split; [exact Ht|].
  apply (proj1 (low_iteration_warning_iff_low_count items t Ht)).
  exists (py "alice", {[ py "passwd" := py "$pbkdf2-sha256$i=29000$abc$def" ]}),
    29000.
  split; [by left|]. split; [by_evaluation|].
  split; [vm_compute; reflexivity | lia].
Defined.

(** X10. The text report advises to increase [password_bcrypt_cost] exactly
    when some account classified as bcrypt has a hash whose cost is above 0
    and below 10, and the warning then quotes the lowest recorded cost: a
    cost above 0 that is not above the cost of any such account. *)
Theorem low_cost_warning_iff_low_cost (items : list account) (t : tally) :
  generate_report_tally items = Returns t →
  (line_warn_cost_more ∈ recommendation_lines (length items) t ↔
   ∃ item n, item ∈ items
     ∧ detect_algorithm (passwd_of item.2) = py "bcrypt"
     ∧ parse_bcrypt_cost (passwd_of item.2) = Returns (Some n)
     ∧ 0 < n < 10)
  ∧ (∀ m, line_warn_cost m ∈ recommendation_lines (length items) t →
       0 < m < 10
       ∧ ∀ item n, item ∈ items →
           detect_algorithm (passwd_of item.2) = py "bcrypt" →
           parse_bcrypt_cost (passwd_of item.2) = Returns (Some n) →
           0 < n → m <= n).
Proof.
  intros Ht.
  pose proof Ht as (_ & Hit & Hbc & _ & Hnd & _)%generate_report_tally_facts.
  assert (∀ x rest, bcrypt_costs t = x :: rest →
            0 < lowest x rest
            ∧ (∃ item, item ∈ items ∧ algorithm_of item = py "bcrypt"
                 ∧ parse_bcrypt_cost (passwd_of item.2)
                   = Returns (Some (lowest x rest)))
            ∧ ∀ item n, item ∈ items → algorithm_of item = py "bcrypt" →
                parse_bcrypt_cost (passwd_of item.2) = Returns (Some n) →
                0 < n → lowest x rest <= n) as Hlow.
  { intros x rest Hcosts. destruct (lowest_spec x rest) as [Hmin Hle].
    rewrite <- Hcosts, Hbc in Hmin, Hle.
    apply list_elem_of_omap in Hmin as (item & Hin & Hrec).
    apply recorded_cost_spec in Hrec as (Hb & Hpos & Hp).
    split; [done|]. split; [by exists item|].
    intros item' n Hin' Hb' Hp' Hn. apply Hle, list_elem_of_omap.
    exists item'. split; [done|]. by apply recorded_cost_spec. }
  split.
  - rewrite recommendation_lines_elem. cbv zeta. split.
    + intros [[(_ & _ & H) | (_ & [(_ & [H | H]) | (_ & [H | H])])]
             | [(algo & x & rest & _ & _ & [H | H])
               | (x & rest & Hcosts & Hlt & _)]];
        try line_clash; try line_clash_far.
      destruct (Hlow x rest Hcosts) as (Hpos & (item & Hin & Hb & Hp) & _).
      exists item, (lowest x rest). repeat split; done.
    + intros (item & n & Hin & Hb & Hp & Hn).
      assert (n ∈ bcrypt_costs t) as Hmem.
      { rewrite Hbc. apply list_elem_of_omap. exists item. split; [done|].
        apply recorded_cost_spec. repeat split; [done | lia | done]. }
      destruct (bcrypt_costs t) as [|x rest] eqn:Hcosts;
        [by apply elem_of_nil in Hmem|].
      destruct (Hlow x rest eq_refl) as (_ & _ & Hle).
      specialize (Hle item n Hin Hb Hp (proj1 Hn)).
      right. right. exists x, rest. split; [done|]. split; [lia | by right].
  - intros m. rewrite recommendation_lines_elem. cbv zeta.
    intros [[(_ & _ & H) | (_ & [(_ & [H | H]) | (_ & [H | H])])]
           | [(algo & x & rest & Hstat & _ & [H | H])
             | (x & rest & Hcosts & Hlt & [H | H])]];
      try line_clash; try line_clash_far.
    + exfalso. assert (x ∈ dd_get algo (iterations_stats t)) as Hx
        by (rewrite (dd_get_elem _ _ _ Hnd Hstat); by left).
      rewrite Hit in Hx. apply list_elem_of_omap in Hx as (item & _ & Hrec).
      case_bool_decide as Ha; [|done].
      apply recorded_iterations_spec in Hrec as (Htag & _).
      rewrite Ha in Htag. destruct Htag as [-> | ->]; line_clash_far.
    + unfold line_warn_cost in H.
      apply app_inv_head, app_inv_tail, str_int_inj in H as ->.
      destruct (Hlow x rest Hcosts) as (Hpos & _ & Hle).
      split; [lia | exact Hle].
Qed.

Lemma low_cost_warning_iff_low_cost_witness :
  let items : list account :=
    [ (py "alice", {[ py "passwd" := py "$2b$08$abcdefghijklmnopqrstuv" ]});
      (py "bob", {[ py "passwd" := py "$2y$12$abcdefghijklmnopqrstuv" ]}) ] in
  ∃ t, generate_report_tally items = Returns t
    ∧ line_warn_cost_more ∈ recommendation_lines (length items) t.
Proof.
  intros items.
  destruct (generate_report_tally_short items) as (t & Ht); [by_evaluation|].
  exists t. split; [exact Ht|].
  apply (proj1 (low_cost_warning_iff_low_cost items t Ht)).
  exists (py "alice", {[ py "passwd" := py "$2b$08$abcdefghijklmnopqrstuv" ]}), 8.
  split; [by left|]. split; [by_evaluation|].
  split; [vm_compute; reflexivity | lia].
Defined.

Lemma length_filter_pos {A : Type} (Q : A → Prop) `{!∀ x, Decision (Q x)}
    (l : list A) :
  (0 < length (filter Q l))%nat ↔ ∃ x, x ∈ l ∧ Q x.
Proof.
  split.
  - destruct (filter Q l) as [|x l'] eqn:Hl; simpl; [lia|]. intros _.
    assert (x ∈ filter Q l) as [HQ Hin]%list_elem_of_filter
      by (rewrite Hl; by left).
    by exists x.
  - intros (x & Hin & HQ).
    assert (x ∈ filter Q l) as Hx by by apply list_elem_of_filter.
    destruct (filter Q l); [by apply elem_of_nil in Hx | simpl; lia].
Qed.

(** X11. The text report prints [[INFO] No accounts using modern algorithms
    yet] exactly when no account is classified as pbkdf2-sha256,
    pbkdf2-sha512 or bcrypt and, besides, there is no account at all or some
    account is classified as md5-seeded or md5-plain.  Accounts classified
    as argon2id do not count as modern here. *)
Theorem info_line_iff_no_modern_account (items : list account) (t : tally) :
  generate_report_tally items = Returns t →
  (line_info ∈ recommendation_lines (length items) t ↔
   (items = []
    ∨ ∃ item, item ∈ items
        ∧ (detect_algorithm (passwd_of item.2) = py "md5-seeded"
           ∨ detect_algorithm (passwd_of item.2) = py "md5-plain"))
   ∧ ∀ item, item ∈ items →
       detect_algorithm (passwd_of item.2) ≠ py "pbkdf2-sha256"
       ∧ detect_algorithm (passwd_of item.2) ≠ py "pbkdf2-sha512"
       ∧ detect_algorithm (passwd_of item.2) ≠ py "bcrypt").
Proof.
  intros Ht. pose proof Ht as (Hby & _)%generate_report_tally_facts.
  rewrite recommendation_lines_elem. cbv zeta. rewrite !Hby.
  set (seeded := filter (λ item, algorithm_of item = py "md5-seeded") items).
  set (plain := filter (λ item, algorithm_of item = py "md5-plain") items).
  assert ((length seeded + length plain = 0)%nat ∨
          ∃ item, item ∈ items
            ∧ (algorithm_of item = py "md5-seeded"
               ∨ algorithm_of item = py "md5-plain")) as Hcases.
  { destruct (length seeded) eqn:Hs; [destruct (length plain) eqn:Hp|].
    - by left.
    - right. destruct (proj1 (length_filter_pos
        (λ item, algorithm_of item = py "md5-plain") items))
        as (item & ? & ?); [fold plain; lia | eauto].
    - right. destruct (proj1 (length_filter_pos
        (λ item, algorithm_of item = py "md5-seeded") items))
        as (item & ? & ?); [fold seeded; lia | eauto]. }
  assert ((∃ item, item ∈ items
            ∧ (algorithm_of item = py "md5-seeded"
               ∨ algorithm_of item = py "md5-plain")) →
          (0 < length seeded + length plain)%nat) as Hlegacy.
  { intros (item & Hin & [Ha | Ha]).
    - assert (0 < length seeded)%nat; [|lia].
      apply length_filter_pos. eauto.
    - assert (0 < length plain)%nat; [|lia].
      apply length_filter_pos. eauto. }
  rewrite !Nat.eq_add_0, !length_filter_zero. split.
  - intros [[(_ & _ & H) | (Hnot & [(_ & [H | H]) | (Hmodern & _)])]
           | [(algo & x & rest & _ & _ & [H | H])
             | (x & rest & _ & _ & [H | H])]]; try line_clash.
    split.
    + destruct Hcases as [Hzero | Hsome]; [|by right].
      left. destruct items; [done|]. destruct Hnot. split; [|simpl; lia].
      apply Nat.eq_add_0 in Hzero as [H1 H2].
      split; [exact H1 | exact H2].
    + destruct Hmodern as [[H1 H2] H3]. intros item Hin.
      repeat split; [by apply H1 | by apply H2 | by apply H3].
  - intros [Hfirst Hmodern]. left. right. split.
    + intros [[H1 H2] Hn]. destruct Hfirst as [-> | Hsome]; [simpl in Hn; lia|].
      apply Hlegacy in Hsome. lia.
    + right. split; [|by left].
      repeat split; intros item Hin; by destruct (Hmodern item Hin) as (? & ? & ?).
Qed.

Lemma info_line_iff_no_modern_account_witness :
  let items : list account :=
    [ (py "alice", {[ py "passwd" := py "5f4dcc3b5aa765d61d8327deb882cf99" ]});
      (py "bob", {[ py "passwd" := py "$argon2id$v=19$m=65536,t=3,p=4$abc$def" ]}) ] in
  ∃ t, generate_report_tally items = Returns t
    ∧ line_info ∈ recommendation_lines (length items) t.
Proof.
  intros items.
  destruct (generate_report_tally_short items) as (t & Ht); [by_evaluation|].
  exists t. split; [exact Ht|].
  apply (info_line_iff_no_modern_account items t Ht). split.
  - right.
    exists (py "alice", {[ py "passwd" := py "5f4dcc3b5aa765d61d8327deb882cf99" ]}).
    split; [by left | right; by_evaluation].
  - intros item Hin. subst items.
    rewrite !elem_of_cons, elem_of_nil in Hin.
    destruct Hin as [-> | [-> | []]]; repeat split; by_evaluation.
Defined.

(** ** Fixed-width texts *)

Lemma pad_right_length (width : nat) (s : str) :
  length (pad_right width s) = (width `max` length s)%nat.
Proof. unfold pad_right. rewrite length_app, length_replicate. lia. Qed.

Lemma detect_algorithm_length (s : str) : (length (detect_algorithm s) ≤ 13)%nat.
Proof.
  pose proof (detect_algorithm_tag s) as Hin. unfold algo_order in Hin.
  rewrite !elem_of_cons, elem_of_nil in Hin.
  destruct Hin as [-> | [-> | [-> | [-> | [-> | [-> | [-> | [-> | []]]]]]]]];
    vm_compute; lia.
Qed.

Lemma hash_preview_length (passwd : str) :
  (length (hash_preview passwd) ≤ 38)%nat.
Proof.
  unfold hash_preview. destruct (35 <? length passwd)%nat eqn:Hlen.
  - apply Nat.ltb_lt in Hlen. rewrite length_app, length_take.
    change (length (py "...")) with 3%nat. lia.
  - apply Nat.ltb_ge in Hlen. lia.
Qed.

(** X12. In a line of the account listing the algorithm column is always 15
    characters wide and the hash-preview column always 40: no tag and no
    preview overflows its column.  Only the name can, so the line is 77
    characters long for a name of at most 20 characters and longer by the
    excess of the name otherwise. *)
Theorem listing_columns_never_overflow (name : str) (props : gmap str str) :
  length (pad_right 15 (detect_algorithm (passwd_of props))) = 15%nat
  ∧ length (pad_right 40 (hash_preview (passwd_of props))) = 40%nat
  ∧ length (listing_line name props) = (20 `max` length name + 57)%nat.
Proof.
  pose proof (detect_algorithm_length (passwd_of props)) as Halgo.
  pose proof (hash_preview_length (passwd_of props)) as Hpreview.
  unfold listing_line. cbv zeta.
  rewrite length_app, length_cons, length_app, length_cons, !pad_right_length.
  lia.
Qed.

(** X13. The hash shown for an account with an unknown or empty hash is
    never the empty text and never longer than 33 characters; it agrees
    with the stored hash on the first 30 characters unless the hash is
    empty; and the placeholder [(empty)] is shown for the empty hash and,
    besides, only for the hash that reads [(empty)] itself. *)
Theorem display_hash_is_bounded (passwd : str) :
  (1 ≤ length (display_hash passwd) ≤ 33)%nat
  ∧ (passwd ≠ [] → take 30 (display_hash passwd) = take 30 passwd)
  ∧ (display_hash passwd = py "(empty)" ↔ passwd = [] ∨ passwd = py "(empty)").
Proof.
  unfold display_hash. destruct (30 <? length passwd)%nat eqn:Hlen.
  - apply Nat.ltb_lt in Hlen. split; [|split].
    + rewrite length_app, length_take.
      change (length (py "...")) with 3%nat. lia.
    + intros _. rewrite take_app_le by (rewrite length_take; lia).
      by rewrite take_take, Nat.min_id.
    + split.
      * intros H. apply (f_equal length) in H.
        rewrite length_app, length_take in H.
        change (length (py "...")) with 3%nat in H.
        change (length (py "(empty)")) with 7%nat in H. lia.
      * intros [-> | ->]; simpl in Hlen; lia.
  - apply Nat.ltb_ge in Hlen. case_bool_decide as Hempty.
    + subst passwd. split; [simpl; lia|]. split; [done|]. split; [by left | done].
    + split; [|split; [done|]].
      * destruct passwd; [done | simpl in *; lia].
      * split; [by right | by intros [? | ?]].
Qed.

(** ** Where the accounts and their properties come from *)

(** What a match of the account pattern looks like, with its groups. *)
Lemma account_match_shape (s : str) (len : nat) (m : groups) :
  match_here account_pattern s = Some (len, m) →
  ∃ name sp w2 block w3 rest,
    s = dq :: name ++ dq :: sp ++ "{" :: w2 ++ block ++ w3 ++ "}" :: ";" :: rest
    ∧ group m 1 = name ∧ group m 2 = block
    ∧ name ≠ [] ∧ (dq ∉ name)
    ∧ Forall (λ c, is_space c = true) sp
    ∧ Forall (λ c, is_space c = true) w2
    ∧ block ≠ [] ∧ ("}" ∉ block)
    ∧ Forall (λ c, is_space c = true) w3
    ∧ len = (length s - length rest)%nat.
Proof.
  intros H. apply match_here_sound in H as (s' & Hm & ->).
  unfold account_pattern in Hm. inv_matches.
  match goal with
  | |- context [dq :: ?n ++ dq :: ?sp ++ "{" :: ?w2 ++ ?b ++ ?w3 ++ "}" :: ";" :: s'] =>
      exists n, sp, w2, b, w3, s'
  end.
  rewrite !take_run. unfold group.
  rewrite lookup_insert_ne, !lookup_insert_eq by done. cbn [default].
  repeat split; try done; by apply not_in_run.
Qed.

(** What a match of the property pattern stores: a key without a quote,
    and as value either the text between the quotes of a scalar or the text
    of a list with its parentheses. *)
Lemma prop_match_shape (s : str) (len : nat) (m : groups) :
  match_here prop_pattern s = Some (len, m) →
  group m 1 ≠ [] ∧ (dq ∉ group m 1)
  ∧ ((dq ∉ prop_value m)
     ∨ ∃ items, prop_value m = "(" :: items ++ [")"] ∧ ")" ∉ items).
Proof.
  intros H. apply match_here_sound in H as (s' & Hm & _).
  unfold prop_pattern in Hm. inv_matches.
  all: repeat match goal with
         | |- context [take (length ("(" :: ?run ++ ")" :: ?t) - length ?t)
                         ("(" :: ?run ++ ")" :: ?t)] =>
             replace ("(" :: run ++ ")" :: t) with (("(" :: run ++ [")"]) ++ t)
               by (by rewrite <- app_comm_cons, <- app_assoc)
         end.
  all: rewrite ?take_run; unfold prop_value, group.
  all: rewrite ?lookup_insert_eq;
    repeat (rewrite lookup_insert_ne by done); rewrite ?lookup_insert_eq;
    rewrite ?lookup_empty; cbn [default].
  all: split; [done|]; split; [by apply not_in_run|].
  all: first [ left; by apply not_in_run
             | right; eexists; split; [reflexivity | by apply not_in_run] ].
Qed.

Lemma fold_add_property_lookup (ms : list groups) (props : gmap str str)
    (key value : str) :
  fold_left add_property ms props !! key = Some value →
  props !! key = Some value
  ∨ ∃ m, m ∈ ms ∧ key = group m 1 ∧ value = prop_value m.
Proof.
  revert props. induction ms as [|m ms IH]; intros props; simpl; [by left|].
  intros [H | (m' & Hin & H)]%IH.
  - unfold add_property in H.
    destruct (decide (group m 1 = key)) as [<- | Hne].
    + rewrite lookup_insert_eq in H. injection H as <-.
      right. exists m. split; [by left | done].
    + rewrite lookup_insert_ne in H by done. by left.
  - right. exists m'. split; [by right | done].
Qed.

(** X14. Every account of the result is written in the body of the section:
    somewhere in the body stands its name between double quotes (a name that
    is not empty and holds no double quote), blanks, an opening brace, and a
    text up to the first closing brace, which a semicolon follows; and the
    properties of the account are those read from that text.  What stands
    after the first closing brace of an entry never reaches the properties. *)
Theorem accounts_come_from_entries (content name : str) (props : gmap str str) :
  parse_saxdb_nickserv content !! name = Some props →
  ∃ body i sp w2 block w3 rest,
    section_body content = Some body
    ∧ drop i body
      = dq :: name ++ dq :: sp ++ "{" :: w2 ++ block ++ w3 ++ "}" :: ";" :: rest
    ∧ name ≠ [] ∧ (dq ∉ name)
    ∧ Forall (λ c, is_space c = true) (sp ++ w2 ++ w3)
    ∧ block ≠ [] ∧ ("}" ∉ block)
    ∧ props = parse_properties block.
Proof.
  unfold parse_saxdb_nickserv.
  destruct (section_body content) as [body|] eqn:Hbody; [|done].
  intros [H | (m & Hin & -> & -> & _)]%accounts_fold_lookup; [done|].
  apply finditer_from_sound in Hin as (i & len & Hm).
  apply account_match_shape in Hm
    as (name & sp & w2 & block & w3 & rest & Hs & <- & <- & Hname & Hq
        & Hsp & Hw2 & Hblock & Hclose & Hw3 & _).
  exists body, i, sp, w2, (group m 2), w3, rest.
  repeat split; try done. by repeat apply Forall_app_2.
Qed.

Lemma accounts_come_from_entries_witness :
  let content := quoted "'NickServ' { 'alice' { 'passwd' 'x'; 'nicks' { 'al' { 'registered' '1'; }; }; }; };" in
  ∃ body i sp w2 block w3 rest,
    section_body content = Some body
    ∧ drop i body
      = dq :: py "alice" ++ dq :: sp ++ "{" :: w2 ++ block ++ w3 ++ "}" :: ";" :: rest
    ∧ py "alice" ≠ [] ∧ (dq ∉ py "alice")
    ∧ Forall (λ c, is_space c = true) (sp ++ w2 ++ w3)
    ∧ block ≠ [] ∧ ("}" ∉ block)
    ∧ ({[ py "passwd" := py "x"; py "registered" := py "1" ]} : gmap str str)
      = parse_properties block.
Proof.
  intros content.
  apply (accounts_come_from_entries content (py "alice")).
  by_evaluation.
Defined.

(** X15. In every account of the result no property key holds a double
    quote, and every value is either a text without double quote (a scalar,
    stored without its quotes) or a list kept with its parentheses, with no
    closing parenthesis inside. *)
Theorem stored_values_are_scalars_or_lists
    (content name key value : str) (props : gmap str str) :
  parse_saxdb_nickserv content !! name = Some props →
  props !! key = Some value →
  (dq ∉ key)
  ∧ ((dq ∉ value) ∨ ∃ items, value = "(" :: items ++ [")"] ∧ ")" ∉ items).
Proof.
  intros (properties_str & -> & _)%parse_saxdb_nickserv_lookup.
  unfold parse_properties.
  intros [H | (m & Hin & -> & ->)]%fold_add_property_lookup; [done|].
  apply finditer_from_sound in Hin as (i & len & Hm).
  by apply prop_match_shape in Hm as (_ & Hq & Hv).
Qed.

Lemma stored_values_are_scalars_or_lists_witness :
  let content := quoted "'NickServ' { 'carol' { 'masks' ('*@c' '*@d'); 'passwd' 'x'; }; };" in
  (dq ∉ py "masks")
  ∧ ((dq ∉ quoted "('*@c' '*@d')")
     ∨ ∃ items, quoted "('*@c' '*@d')" = "(" :: items ++ [")"] ∧ ")" ∉ items).
Proof.
  intros content.
  apply (stored_values_are_scalars_or_lists content (py "carol") (py "masks")
           (quoted "('*@c' '*@d')")
           {[ py "masks" := quoted "('*@c' '*@d')"; py "passwd" := py "x" ]});
    by_evaluation.
Defined.

(** ** Two entries of one name *)

Lemma match_here_account_entry_span (name sp1 sp2 props after : str) :
  name ≠ [] → dq ∉ name →
  Forall (λ c, is_space c = true) sp1 → Forall (λ c, is_space c = true) sp2 →
  props ≠ [] → at_class is_space props = false → "}" ∉ props →
  match_here account_pattern
    ((dq :: name ++ dq :: sp1 ++ "{" :: sp2 ++ props ++ py "};") ++ after)
  = Some (length (dq :: name ++ dq :: sp1 ++ "{" :: sp2 ++ props ++ py "};"),
          <[2%nat := props]> {[ 1%nat := name ]}).
Proof.
  intros. unfold match_here.
  replace ((dq :: name ++ dq :: sp1 ++ "{" :: sp2 ++ props ++ py "};") ++ after)
    with (dq :: name ++ dq :: sp1 ++ "{" :: sp2 ++ props ++ "}" :: ";" :: after)
    by (repeat (rewrite <- app_assoc || rewrite <- app_comm_cons); done).
  rewrite exec_account_entry by done.
  f_equal. f_equal.
  repeat (rewrite length_app || rewrite length_cons). simpl. lia.
Qed.

Lemma add_account_other (accounts : gmap str (gmap str str)) (m : groups)
    (name : str) :
  group m 1 ≠ name → add_account accounts m !! name = accounts !! name.
Proof.
  intros Hne. unfold add_account. repeat case_bool_decide; try done.
  by rewrite lookup_insert_ne.
Qed.

Lemma accounts_fold_other (ms : list groups) (accounts : gmap str (gmap str str))
    (name : str) :
  (∀ m, m ∈ ms → group m 1 ≠ name) →
  fold_left add_account ms accounts !! name = accounts !! name.
Proof.
  revert accounts. induction ms as [|m ms IH]; intros accounts Hms; [done|].
  simpl. rewrite IH by (intros m' Hm'; apply Hms; by right).
  apply add_account_other, Hms. by left.
Qed.

(** X16. When a name has several entries in the section, the last one
    decides: for an account entry that follows a brace-balanced part of the
    body and after which the quoted name does not occur again, the result
    maps the name to the properties read from that entry's text, whatever
    entries of the same name stand before it. *)
Theorem last_entry_of_a_name_wins
    (content pre gap body rest before entry after name : str) :
  content = pre ++ section_token ++ gap ++ "{" :: body ++ "}" :: rest →
  first_at section_token content (length pre) →
  "{" ∉ gap →
  balanced body →
  body = before ++ entry ++ after →
  balanced before →
  account_entry name entry →
  name ∉ excluded_names →
  (∀ i, ¬ occurs_at (dq :: name ++ [dq]) after i) →
  ∃ sp1 sp2 block,
    entry = dq :: name ++ dq :: sp1 ++ "{" :: sp2 ++ block ++ py "};"
    ∧ Forall (λ c, is_space c = true) sp1
    ∧ Forall (λ c, is_space c = true) sp2
    ∧ at_class is_space block = false
    ∧ parse_saxdb_nickserv content !! name = Some (parse_properties block).
Proof.
  intros Hcontent Hfirst Hgap Hbody Hsplit Hbefore Hentry Hname Hlast.
  assert (section_body content = Some body) as Hsection
    by by apply (section_body_closed content pre gap body rest).
  unfold parse_saxdb_nickserv. rewrite Hsection.
  destruct Hentry as (sp1 & sp2 & key & sp3 & value & more & -> & Hne & Hq & Hb
                      & Hsp1 & Hsp2 & Hkey & Hkq & Hsp3 & Hsp3' & Hvalue & Hflat).
  set (props := dq :: key ++ dq :: sp3 ++ value ++ more) in *.
  exists sp1, sp2, props. do 4 (split; [done|]).
  set (m := <[2%nat := props]> {[ 1%nat := name ]} : groups).
  assert ("}" ∉ props) as Hclose.
  { unfold props.
    repeat (rewrite not_elem_of_cons || rewrite not_elem_of_app).
    repeat (rewrite not_elem_of_app in Hflat).
    destruct Hflat as (? & ? & ?).
    repeat split; try done. by apply space_run_not_in. }
  assert (group m 1 = name) as Hg1.
  { unfold group, m. by rewrite lookup_insert_ne, lookup_singleton_eq. }
  assert (group m 2 = props) as Hg2.
  { unfold group, m. by rewrite lookup_insert_eq. }
  set (entry := dq :: name ++ dq :: sp1 ++ "{" :: sp2 ++ props ++ py "};") in *.
  assert (match_here account_pattern (entry ++ after) = Some (length entry, m))
    as Hm by by apply match_here_account_entry_span.
  assert (∃ found, finditer account_pattern body
                   = found ++ m :: finditer_from account_pattern after 0)
    as [found Hfound].
  { unfold finditer. rewrite Hsplit.
    destruct (finditer_from_reaches account_pattern before (entry ++ after) 0)
      as [found ->]; [| lia |].
    - intros i len g Hi Hg.
      apply (account_match_clear before name
               (sp1 ++ "{" :: sp2 ++ props ++ "}" :: ";" :: after) i len g);
        try done.
      replace (dq :: name ++ dq :: sp1 ++ "{" :: sp2 ++ props ++ "}" :: ";" :: after)
        with (entry ++ after); [done|].
      unfold entry.
      repeat (rewrite <- app_assoc || rewrite <- app_comm_cons); done.
    - exists found. f_equal.
      assert (∃ c tail, entry = c :: tail) as (c & tail & Hcons) by by eexists _, _.
      rewrite Hcons in Hm |- *. rewrite <- app_comm_cons in Hm |- *.
      cbn [finditer_from]. rewrite Hm. f_equal.
      cbn [length]. replace (S (length tail) - 1)%nat with (length tail) by lia.
      apply finditer_from_skip. }
  rewrite Hfound, fold_left_app. cbn [fold_left].
  rewrite accounts_fold_other.
  - unfold add_account. rewrite Hg1, Hg2.
    rewrite bool_decide_eq_false_2 by done.
    rewrite bool_decide_eq_false_2; [by rewrite lookup_insert_eq|].
    destruct (match_here_property key sp3 value more) as [[len g] Hp]; try done.
    by eapply parse_properties_nonempty.
  - intros m' (i & len & Hm')%finditer_from_sound Hsame.
    apply account_match_shape in Hm'
      as (name' & sp & w2 & block & w3 & tail & Hs & Hn' & _).
    rewrite Hsame in Hn'. subst name'.
    apply (Hlast (length (take i after))).
    exists (take i after), (sp ++ "{" :: w2 ++ block ++ w3 ++ "}" :: ";" :: tail).
    split; [|done].
    rewrite <- (take_drop i after) at 1. rewrite Hs.
    by rewrite <- app_comm_cons, <- app_assoc.
Qed.

Lemma last_entry_of_a_name_wins_witness :
  let content :=
    quoted "'NickServ' { 'alice' { 'passwd' 'old'; }; 'alice' { 'passwd' 'new'; }; };" in
  ∃ sp1 sp2 block,
    quoted "'alice' { 'passwd' 'new'; };"
    = dq :: py "alice" ++ dq :: sp1 ++ "{" :: sp2 ++ block ++ py "};"
    ∧ Forall (λ c, is_space c = true) sp1
    ∧ Forall (λ c, is_space c = true) sp2
    ∧ at_class is_space block = false
    ∧ parse_saxdb_nickserv content !! py "alice" = Some (parse_properties block).
Proof.
  intros content.
  assert (first_at section_token content 0) as Hfirst.
  { split; [|intros; lia].
    by exists [], (quoted " { 'alice' { 'passwd' 'old'; }; 'alice' { 'passwd' 'new'; }; };"). }
  refine (last_entry_of_a_name_wins content [] (py " ")
            (quoted " 'alice' { 'passwd' 'old'; }; 'alice' { 'passwd' 'new'; }; ")
            (py ";")
            (quoted " 'alice' { 'passwd' 'old'; }; ")
            (quoted "'alice' { 'passwd' 'new'; };")
            (py " ")
            (py "alice") eq_refl Hfirst _ _ eq_refl _ _ _ _).
  - by_evaluation.
  - apply balanced_by_prefixes; [reflexivity | by_evaluation].
  - apply balanced_by_prefixes; [reflexivity | by_evaluation].
  - exists (py " "), (py " "), (py "passwd"), (py " "), (quoted "'new'"), (py "; ").
    split; [reflexivity|].
    repeat split; try done; try (by repeat constructor); try by_evaluation.
    left. exists (py "new"). split; [reflexivity | by_evaluation].
  - by_evaluation.
  - intros j [Hj H]%occurs_at_startswith.
    destruct j as [|[|j]]; [discriminate H | discriminate H | simpl in Hj; lia].
Defined.

(** ** The work-factor parsers on any string *)

Lemma bcrypt_cost_re_shape (s : str) (m : groups) :
  re_match bcrypt_cost_re s = Some m → rule_bcrypt s.
Proof.
  unfold re_match. destruct (match_here _ _) as [[len g]|] eqn:H; [|done].
  intros _. apply match_here_sound in H as (s' & Hm & _).
  unfold bcrypt_cost_re in Hm. inv_matches.
  match goal with
  | H : char_in ?c _ = true |- _ =>
      apply char_in_spec in H; rewrite !elem_of_cons, elem_of_nil in H
  end.
  eexists _, _. split; [reflexivity | tauto].
Qed.

(** X17. On every string, classified as it may be, a number that a
    work-factor parser returns is never negative, and [parse_bcrypt_cost]
    returns a number only for a string that [detect_algorithm] classifies as
    bcrypt.  A parser raises nothing but the [ValueError] of [int], and only
    when the numeral it found has more than [max_str_digits] digits; so
    both parsers return on every string of at most that many characters. *)
Theorem work_factor_parsers_raise_only_on_long_numerals (s : str) :
  (∀ n, parse_bcrypt_cost s = Returns (Some n) →
     0 <= n ∧ detect_algorithm s = py "bcrypt")
  ∧ (∀ n, parse_pbkdf2_iterations s = Returns (Some n) → 0 <= n)
  ∧ (∀ exn, parse_bcrypt_cost s = Raises exn →
       exn = "ValueError"%string
       ∧ ∃ digits rest, cost_segment s digits rest
                        ∧ max_str_digits < Z.of_nat (length digits))
  ∧ (∀ exn, parse_pbkdf2_iterations s = Raises exn →
       exn = "ValueError"%string
       ∧ ∃ pre digits post, iterations_segment s pre digits post
                            ∧ max_str_digits < Z.of_nat (length digits))
  ∧ (Z.of_nat (length s) <= max_str_digits →
     (∃ cost, parse_bcrypt_cost s = Returns cost)
     ∧ ∃ iters, parse_pbkdf2_iterations s = Returns iters).
Proof.
  pose proof (parse_bcrypt_cost_outcome s) as Hb.
  pose proof (parse_pbkdf2_iterations_outcome s) as Hp.
  split; [|split; [|split; [|split]]].
  - intros n Hn. split.
    + destruct Hb as [(cost & Hcost & Hpos) | (Hcost & _)]; [|congruence].
      apply Hpos. congruence.
    + unfold parse_bcrypt_cost in Hn.
      destruct (re_match bcrypt_cost_re s) as [m|] eqn:Hm; [|done].
      pose proof (bcrypt_cost_re_shape s m Hm) as Hrule.
      apply (detect_algorithm_hit s (rule_bcrypt, py "bcrypt")); [|done|].
      * unfold format_rules. rewrite !elem_of_cons. tauto.
      * by destruct Hrule as (v & rest & -> & _).
  - intros n Hn.
    destruct Hp as [(iters & Hiters & Hpos) | (Hiters & _)]; [|congruence].
    apply Hpos. congruence.
  - intros exn Hexn.
    destruct Hb as [(cost & Hcost & _) | (Hcost & Hseg)]; [congruence|].
    split; [congruence | done].
  - intros exn Hexn.
    destruct Hp as [(iters & Hiters & _) | (Hiters & Hseg)]; [congruence|].
    split; [congruence | done].
  - intros Hlen. split.
    + destruct Hb as [(cost & Hcost & _) | (_ & digits & rest & Hseg & Hlong)];
        [by exists cost|].
      apply cost_segment_length in Hseg. lia.
    + destruct Hp as [(iters & Hiters & _)
                     | (_ & pre & digits & post & Hseg & Hlong)];
        [by exists iters|].
      apply iterations_segment_length in Hseg. lia.
Qed.

Lemma work_factor_parsers_raise_only_on_long_numerals_witness :
  (∃ cost, parse_bcrypt_cost (py "$2b$12$abcdefghijklmnopqrstuv") = Returns cost)
  ∧ ∃ iters,
      parse_pbkdf2_iterations (py "$2b$12$abcdefghijklmnopqrstuv") = Returns iters.
Proof.
  apply (work_factor_parsers_raise_only_on_long_numerals
           (py "$2b$12$abcdefghijklmnopqrstuv")).
  by_evaluation.
Defined.
